(** * ECG analysis: R-peak detection and heart-rate variability

    A shallow embedding of [code/biosignal-processing/ecg_heartrate.py]
    ([detect_r_peaks], [compute_heart_rate], [compute_hrv_metrics], and
    the analysis and report of [main]) and of the NumPy / SciPy routines
    these functions call.

    Numbers.  NumPy's float64 values are modelled in exact arithmetic:
    a value is a real number, or one of the three exceptional results of
    IEEE-754 division and subtraction (+inf, -inf, NaN).  The detection
    pipeline only ever divides by a non-zero window length, so it is written
    over an ordered field (instantiated with the reals, and with fractions
    of big integers for evaluation); the rate and HRV functions divide by
    counts and by the sampling rate, which can be zero, so they are written
    over the extended values.

    What the exact values leave out.  A statement about the exact model is
    a statement about the code up to the rounding of float64, and where the
    two differ the difference is stated with the float64 computation of the
    last part of the definitions:
    - [np_mean], [np_std]: the exact mean of equal values is that value and
      their deviation is 0; the float64 mean is a rounded sum divided by
      the count ([np_mean_float64], [np_std_float64]);
    - [lfilter_zi]: the exact solution of the linear system SciPy solves,
      in closed form; SciPy solves the system numerically
      ([lfilter_zi_solved]), and the solution carries the rounding of the
      elimination;
    - [xdiv]: one zero without a sign, and no overflow: a quotient by a
      negative number that is 0 here is -0.0 in float64, and a very small
      divisor gives a large real here where float64 gives an infinity;
    - [window_size], [min_distance]: the truncation of the exact product;
      the code truncates the float64 product ([window_size_float64],
      [min_distance_float64]), which can be the next integer when the exact
      product is just below it.

    Errors.  A Python exception is a value of [exn]; a function that can
    raise returns an [outcome]. *)

From stdpp Require Import gmap strings.
From Stdlib Require Import Reals Lra Lia ZArith List Sorted.
From Stdlib Require Floats.
From Bignums Require Import BigZ.
Import ListNotations.

Open Scope R_scope.

(** ** Exceptions and outcomes *)

(** The exceptions the modelled library calls raise.  [ValueError] carries
    the library check that failed. *)
Inductive value_error : Type :=
  | CriticalFrequencies   (* butter: "Digital filter critical frequencies must be 0 < Wn < fs/2" *)
  | InputShorterThanPad   (* filtfilt: "The length of the input vector x must be greater than padlen" *)
  | UnexpectedShapeZi     (* lfilter: "Unexpected shape for zi" *)
  | EmptyOperand          (* np.convolve: "a cannot be empty" / "v cannot be empty" *)
  | NegativeDimensions    (* np.ones: "negative dimensions are not allowed" *)
  | ZeroSizeReduction     (* np.max: "zero-size array to reduction operation maximum" *)
  | DistanceBelowOne      (* find_peaks: "`distance` must be greater or equal to 1" *)
  | NoNonzeroDenominator  (* lfilter_zi: "There must be at least one nonzero `a` coefficient." *)
  | LeadingDenominatorZero (* lfilter: "Filter coefficient a[0] == 0 not supported yet" *)
  | CompanionTooShort.    (* linalg.companion: "The length of `a` must be at least 2." *)

Inductive exn : Type :=
  | ValueError (why : value_error)
  | LinAlgError.          (* np.linalg.solve: "Singular matrix" *)

Inductive outcome (A : Type) : Type :=
  | Returns (a : A)
  | Raises (e : exn).
Arguments Returns {A} a.
Arguments Raises {A} e.

Definition bind {A B : Type} (m : outcome A) (k : A -> outcome B) : outcome B :=
  match m with
  | Returns a => k a
  | Raises e => Raises e
  end.

Notation "'let*' x ':=' m 'in' k" := (bind m (fun x => k))
  (at level 10, x name, m at level 100, k at level 200).

Definition raises {A : Type} (m : outcome A) : Prop :=
  exists e, m = Raises e.

(** ** Extended real values (float64 without rounding) *)

Inductive xreal : Type :=
  | Fin (r : R)
  | PInf
  | NInf
  | NaN.

Definition Rltb (a b : R) : bool := if Rlt_dec a b then true else false.
Definition Rleb (a b : R) : bool := if Rle_dec a b then true else false.
Definition Reqb (a b : R) : bool := if Req_dec_T a b then true else false.

(** The infinity with the sign of [r]; NaN for [r = 0]. *)
Definition inf_of_sign (r : R) : xreal :=
  if Rltb 0 r then PInf else if Rltb r 0 then NInf else NaN.

Definition xneg (x : xreal) : xreal :=
  match x with
  | Fin a => Fin (- a)
  | PInf => NInf
  | NInf => PInf
  | NaN => NaN
  end.

Definition xadd (x y : xreal) : xreal :=
  match x, y with
  | Fin a, Fin b => Fin (a + b)
  | NaN, _ | _, NaN => NaN
  | PInf, NInf | NInf, PInf => NaN
  | PInf, _ | _, PInf => PInf
  | NInf, _ | _, NInf => NInf
  end.

Definition xsub (x y : xreal) : xreal := xadd x (xneg y).

Definition xmul (x y : xreal) : xreal :=
  match x, y with
  | Fin a, Fin b => Fin (a * b)
  | NaN, _ | _, NaN => NaN
  | Fin a, PInf | PInf, Fin a => inf_of_sign a
  | Fin a, NInf | NInf, Fin a => inf_of_sign (- a)
  | PInf, PInf | NInf, NInf => PInf
  | PInf, NInf | NInf, PInf => NInf
  end.

(** True division as NumPy does it: a warning, never an exception.
    [x / 0] is an infinity for [x <> 0] and NaN for [x = 0]. *)
Definition xdiv (x y : xreal) : xreal :=
  match x, y with
  | NaN, _ | _, NaN => NaN
  | Fin a, Fin b => if Reqb b 0 then inf_of_sign a else Fin (a / b)
  | Fin _, PInf | Fin _, NInf => Fin 0
  | PInf, Fin b => if Rltb b 0 then NInf else PInf
  | NInf, Fin b => if Rltb b 0 then PInf else NInf
  | PInf, _ | NInf, _ => NaN
  end.

Definition xsqrt (x : xreal) : xreal :=
  match x with
  | Fin a => if Rltb a 0 then NaN else Fin (sqrt a)
  | PInf => PInf
  | NInf | NaN => NaN
  end.

Definition xabs (x : xreal) : xreal :=
  match x with
  | Fin a => Fin (Rabs a)
  | PInf | NInf => PInf
  | NaN => NaN
  end.

(** Comparisons; every comparison with NaN is false. *)
Definition xltb (x y : xreal) : bool :=
  match x, y with
  | NaN, _ | _, NaN => false
  | Fin a, Fin b => Rltb a b
  | NInf, NInf | PInf, _ => false
  | NInf, _ | Fin _, PInf => true
  | Fin _, NInf => false
  end.

Definition xleb (x y : xreal) : bool :=
  match x, y with
  | NaN, _ | _, NaN => false
  | Fin a, Fin b => Rleb a b
  | NInf, _ | _, PInf => true
  | PInf, _ | Fin _, NInf => false
  end.

Definition finite (x : xreal) : Prop := exists r, x = Fin r.
Definition nonneg (x : xreal) : Prop := exists r, x = Fin r /\ 0 <= r.

(** ** NumPy array functions used by the rate and HRV code *)

(** [np.diff]: [out[i] = a[i+1] - a[i]]; empty for fewer than two elements. *)
Fixpoint np_diff {A : Type} (sub : A -> A -> A) (a : list A) : list A :=
  match a with
  | x :: ((y :: _) as tl) => sub y x :: np_diff sub tl
  | _ => []
  end.

Definition np_sum (a : list xreal) : xreal := fold_left xadd a (Fin 0).

(** [np.mean]: the sum divided by the element count; NaN on an empty array
    (0.0 / 0 with a RuntimeWarning). *)
Definition np_mean (a : list xreal) : xreal :=
  xdiv (np_sum a) (Fin (INR (length a))).

(** [np.std] (ddof = 0): [sqrt(mean((a - mean(a))**2))]. *)
Definition np_std (a : list xreal) : xreal :=
  let m := np_mean a in
  xsqrt (np_mean (map (fun x => let d := xsub x m in xmul d d) a)).

(** [np.trapz(y, x)]: [(diff(x) * (y[1:] + y[:-1]) / 2.0).sum()]. *)
Fixpoint trapz_terms (y x : list xreal) : list xreal :=
  match y, x with
  | y0 :: ((y1 :: _) as ty), x0 :: ((x1 :: _) as tx) =>
      xdiv (xmul (xsub x1 x0) (xadd y1 y0)) (Fin 2) :: trapz_terms ty tx
  | _, _ => []
  end.

Definition np_trapz (y x : list xreal) : xreal := np_sum (trapz_terms y x).

(** ** [scipy.signal.welch] with its defaults

    [welch(x, fs, nperseg)]: periodic Hann window, [noverlap = nperseg // 2],
    [nfft = nperseg], constant detrending per segment, one-sided spectrum,
    density scaling, mean over the segments. *)

(** [get_window('hann', N)] (periodic). *)
Definition hann (N : nat) : list R :=
  if (N <=? 1)%nat then repeat 1 N
  else map (fun n => 1 / 2 - 1 / 2 * cos (2 * PI * INR n / INR N)) (seq 0 N).

(** [detrend(type='constant')]: subtract the segment's mean. *)
Definition detrend_constant (seg : list xreal) : list xreal :=
  let m := np_mean seg in map (fun v => xsub v m) seg.

(** [conj(X[k]) * X[k]] for the [k]-th bin of the real FFT of [v]. *)
Definition rfft_power (v : list xreal) (k : nat) : xreal :=
  let N := length v in
  let angle n := 2 * PI * INR k * INR n / INR N in
  let re := np_sum (map (fun nv => xmul (snd nv) (Fin (cos (angle (fst nv)))))
                        (combine (seq 0 N) v)) in
  let im := np_sum (map (fun nv => xmul (snd nv) (Fin (- sin (angle (fst nv)))))
                        (combine (seq 0 N) v)) in
  xadd (xmul re re) (xmul im im).

(** The factor of the one-sided spectrum: every bin but the first (and,
    for an even [nfft], the last) is doubled. *)
Definition onesided_factor (nfft k : nat) : R :=
  if (k =? 0)%nat then 1
  else if Nat.even nfft && (k =? nfft / 2)%nat then 1
  else 2.

Definition segment_psd (seg : list xreal) (win : list R) (scale : xreal)
    (nfft : nat) : list xreal :=
  let v := map (fun xw => xmul (fst xw) (Fin (snd xw)))
               (combine (detrend_constant seg) win) in
  map (fun k => xmul (xmul (rfft_power v k) scale) (Fin (onesided_factor nfft k)))
      (seq 0 (nfft / 2 + 1)).

(** The segments [x[i*step : i*step + nperseg]], [i*step + nperseg <= len(x)]. *)
Definition segments (x : list xreal) (nperseg step : nat) : list (list xreal) :=
  map (fun i => firstn nperseg (skipn (i * step) x))
      (seq 0 ((length x - nperseg) / step + 1)).

(** [Pxy.mean(axis=-1)] over the segments (a single segment is returned
    as it is). *)
Definition mean_over_segments (ps : list (list xreal)) (nbins : nat) : list xreal :=
  match ps with
  | [p] => p
  | _ => map (fun k => np_mean (map (fun p => nth k p NaN) ps)) (seq 0 nbins)
  end.

(** [np.fft.rfftfreq(n, d)]: [arange(0, n//2 + 1) * (1.0 / (n * d))]. *)
Definition rfftfreq (n : nat) (d : xreal) : list xreal :=
  let val := xdiv (Fin 1) (xmul (Fin (INR n)) d) in
  map (fun k => xmul (Fin (INR k)) val) (seq 0 (n / 2 + 1)).

Definition welch (x : list xreal) (fs : xreal) (nperseg : nat)
    : list xreal * list xreal :=
  let win := hann nperseg in
  let noverlap := (nperseg / 2)%nat in
  let step := (nperseg - noverlap)%nat in
  let sumsq := fold_left Rplus (map (fun w => w * w) win) 0 in
  let scale := xdiv (Fin 1) (xmul fs (Fin sumsq)) in
  let freqs := rfftfreq nperseg (xdiv (Fin 1) fs) in
  let ps := map (fun seg => segment_psd seg win scale nperseg)
                (segments x nperseg step) in
  (freqs, mean_over_segments ps (nperseg / 2 + 1)).

(** Boolean-mask indexing [a[mask]] with [mask = (lo <= freqs) & (freqs <= hi)]. *)
Definition in_band (lo hi : R) (f : xreal) : bool :=
  xleb (Fin lo) f && xleb f (Fin hi).

Fixpoint select_band (lo hi : R) (freqs a : list xreal) : list xreal :=
  match freqs, a with
  | f :: fs', v :: a' =>
      if in_band lo hi f then v :: select_band lo hi fs' a'
      else select_band lo hi fs' a'
  | _, _ => []
  end.

(** [np.trapz(psd[idx], freqs[idx])] with
    [idx = np.logical_and(freqs >= lo, freqs <= hi)]. *)
Definition band_power (lo hi : R) (freqs psd : list xreal) : xreal :=
  np_trapz (select_band lo hi freqs psd) (select_band lo hi freqs freqs).

(** ** The rate and HRV functions of [ecg_heartrate.py] *)

(** [np.diff(r_peaks) / fs], with integer beat indices. *)
Definition rr_seconds (r_peaks : list Z) (fs : R) : list xreal :=
  map (fun d => xdiv (Fin (IZR d)) (Fin fs)) (np_diff Z.sub r_peaks).

Definition compute_heart_rate (r_peaks : list Z) (fs : R) : outcome (list xreal) :=
  let rr_intervals := rr_seconds r_peaks fs in
  let hr := map (fun rr => xdiv (Fin 60) rr) rr_intervals in
  Returns hr.

Definition nn50_count (rr_intervals : list xreal) : nat :=
  length (filter (fun d => xltb (Fin 50) (xabs d)) (np_diff xsub rr_intervals)).

(** [np.diff(r_peaks) / fs * 1000]. *)
Definition rr_milliseconds (r_peaks : list Z) (fs : R) : list xreal :=
  map (fun s => xmul s (Fin 1000)) (rr_seconds r_peaks fs).

Definition compute_hrv_metrics (r_peaks : list Z) (fs : R)
    : outcome (gmap string xreal) :=
  let rr_intervals := rr_milliseconds r_peaks fs in
  let hrv : gmap string xreal := ∅ in
  let mean_rr := np_mean rr_intervals in
  let hrv := <["mean_rr" := mean_rr]> hrv in
  let hrv := <["std_rr" := np_std rr_intervals]> hrv in
  let hrv := <["rmssd" :=
      xsqrt (np_mean (map (fun d => xmul d d) (np_diff xsub rr_intervals)))]> hrv in
  let hrv := <["sdsd" := np_std (np_diff xsub rr_intervals)]> hrv in
  let nn50 := Fin (INR (nn50_count rr_intervals)) in
  let hrv := <["nn50" := nn50]> hrv in
  let hrv := <["pnn50" :=
      xmul (xdiv nn50 (Fin (INR (length rr_intervals)))) (Fin 100)]> hrv in
  if (10 <? length rr_intervals)%nat then
    let '(freqs, psd) :=
      welch rr_intervals (xdiv (Fin 1000) mean_rr)
            (Nat.min 256 (length rr_intervals)) in
    let lf_power := band_power (4 / 100) (15 / 100) freqs psd in
    let hrv := <["lf_power" := lf_power]> hrv in
    let hf_power := band_power (15 / 100) (4 / 10) freqs psd in
    let hrv := <["hf_power" := hf_power]> hrv in
    let hrv := <["lf_hf_ratio" :=
        if xltb (Fin 0) hf_power then xdiv lf_power hf_power else Fin 0]> hrv in
    Returns hrv
  else Returns hrv.

(** The mapping [compute_hrv_metrics] returns when there is no interval. *)
Definition hrv_of_no_interval : gmap string xreal :=
  <["pnn50" := NaN]> (<["nn50" := Fin 0]> (<["sdsd" := NaN]> (<["rmssd" := NaN]>
    (<["std_rr" := NaN]> (<["mean_rr" := NaN]> ∅))))).


(** ** The ordered field of the detection pipeline *)

(** The arithmetic and the comparisons the detection code performs on
    samples.  [R_numeric] is the model; [frac_numeric] runs the same
    definitions on rational inputs. *)
Class Numeric (T : Type) : Type := {
  nofZ : Z -> T;
  nadd : T -> T -> T;
  nsub : T -> T -> T;
  nmul : T -> T -> T;
  ndiv : T -> T -> T;
  nltb : T -> T -> bool;
  nleb : T -> T -> bool;
  neqb : T -> T -> bool
}.

Declare Scope num_scope.
Delimit Scope num_scope with n.
Infix "+" := nadd : num_scope.
Infix "-" := nsub : num_scope.
Infix "*" := nmul : num_scope.
Infix "/" := ndiv : num_scope.
Infix "<?" := nltb : num_scope.
Infix "<=?" := nleb : num_scope.
Infix "=?" := neqb : num_scope.

#[export] Instance R_numeric : Numeric R := {
  nofZ := IZR;
  nadd := Rplus;
  nsub := Rminus;
  nmul := Rmult;
  ndiv := Rdiv;
  nltb := Rltb;
  nleb := Rleb;
  neqb := Reqb
}.

(** Fractions of big integers, for running the pipeline.  The value of
    [Frac n d] is [n / d] for [d > 0] (and [n / 1] otherwise).  A sum keeps
    the larger denominator when it is a multiple of the other one, which is
    the case all along a filter run; nothing else is normalised. *)
Record frac : Type := Frac { fnum : bigZ; fden : bigZ }.

Definition safe_den (f : frac) : bigZ :=
  if (fden f <=? 0)%bigZ then 1%bigZ else fden f.

Definition frac_add (f g : frac) : frac :=
  let d1 := safe_den f in
  let d2 := safe_den g in
  if (d1 =? d2)%bigZ then Frac (fnum f + fnum g) d1
  else
    let '(q, r) := BigZ.div_eucl d2 d1 in
    if (r =? 0)%bigZ then Frac (fnum f * q + fnum g) d2
    else
      let '(q', r') := BigZ.div_eucl d1 d2 in
      if (r' =? 0)%bigZ then Frac (fnum f + fnum g * q') d1
      else Frac (fnum f * d2 + fnum g * d1) (d1 * d2).

Definition frac_opp (f : frac) : frac := Frac (- fnum f) (fden f).

Definition frac_sub (f g : frac) : frac := frac_add f (frac_opp g).

Definition frac_mul (f g : frac) : frac :=
  Frac (fnum f * fnum g) (safe_den f * safe_den g).

(** Division by zero gives zero, as [Rdiv] does. *)
Definition frac_div (f g : frac) : frac :=
  if (fnum g =? 0)%bigZ then Frac 0 1
  else if (0 <? fnum g)%bigZ
       then Frac (fnum f * safe_den g) (safe_den f * fnum g)
       else Frac (- (fnum f * safe_den g)) (safe_den f * - fnum g).

Definition frac_ltb (f g : frac) : bool :=
  (fnum f * safe_den g <? fnum g * safe_den f)%bigZ.

Definition frac_leb (f g : frac) : bool :=
  (fnum f * safe_den g <=? fnum g * safe_den f)%bigZ.

Definition frac_eqb (f g : frac) : bool :=
  (fnum f * safe_den g =? fnum g * safe_den f)%bigZ.

#[export] Instance frac_numeric : Numeric frac := {
  nofZ := fun z => Frac (BigZ.of_Z z) 1;
  nadd := frac_add;
  nsub := frac_sub;
  nmul := frac_mul;
  ndiv := frac_div;
  nltb := frac_ltb;
  nleb := frac_leb;
  neqb := frac_eqb
}.

(** The real number a fraction stands for. *)
Definition frac_to_R (f : frac) : R :=
  IZR (BigZ.to_Z (fnum f)) / IZR (BigZ.to_Z (safe_den f)).

(** The fraction [n / d] of two integers. *)
Definition fr (n d : Z) : frac := Frac (BigZ.of_Z n) (BigZ.of_Z d).

Section Detection.

Context {T : Type} `{Numeric T}.

Local Abbreviation zero := (nofZ 0).
Local Abbreviation two := (nofZ 2).

(** Running sum, as [ndarray.sum] (from the left, starting at 0). *)
Definition nsum (l : list T) : T := fold_left nadd l zero.

(** *** [scipy.signal.lfilter], [lfilter_zi] and [filtfilt] *)

(** Both coefficient vectors at the length of the longer one. *)
Definition pad_to (n : nat) (c : list T) : list T :=
  c ++ repeat zero (n - length c).

(** The delay values after one sample of the transposed direct form II:
    [Z[n] = Z[n+1] + x*b[n+1] - y*a[n+1]], and for the last one
    [Z[N-1] = x*b[N] - y*a[N]].  [z] is [Z[1:]], [bs] is [b[1:]] and
    [as_] is [a[1:]]. *)
Fixpoint next_state (x y : T) (z bs as_ : list T) : list T :=
  match bs, as_ with
  | bn :: bs', an :: as' =>
      match z with
      | zn :: z' => (zn + x * bn - y * an)%n :: next_state x y z' bs' as'
      | [] => [(x * bn - y * an)%n]
      end
  | _, _ => []
  end.

(** One sample: [y = Z[0] + b[0]*x] (just [b[0]*x] for a filter without
    delays). *)
Definition lfilter_step (b a z : list T) (x : T) : T * list T :=
  let y := match z with
           | z0 :: _ => (z0 + hd zero b * x)%n
           | [] => (hd zero b * x)%n
           end in
  (y, match z with
      | _ :: z' => next_state x y z' (tl b) (tl a)
      | [] => []
      end).

Fixpoint lfilter_run (b a z : list T) (x : list T) : list T * list T :=
  match x with
  | [] => ([], z)
  | x0 :: x' =>
      let '(y, z') := lfilter_step b a z x0 in
      let '(ys, zf) := lfilter_run b a z' x' in
      (y :: ys, zf)
  end.

(** [lfilter(b, a, x, zi=zi)]: the coefficients are divided by [a[0]] and
    padded to a common length; returns [(y, zf)]. *)
Definition lfilter_normalized (a0 : T) (b a x zi : list T)
    : outcome (list T * list T) :=
  if (a0 =? zero)%n then Raises (ValueError LeadingDenominatorZero)
  else
    let n := Nat.max (length a) (length b) in
    if negb (length zi =? n - 1)%nat then Raises (ValueError UnexpectedShapeZi)
    else
      let b' := pad_to n (map (fun c => c / a0)%n b) in
      let a' := pad_to n (map (fun c => c / a0)%n a) in
      Returns (lfilter_run b' a' zi x).

Definition lfilter (b a x zi : list T) : outcome (list T * list T) :=
  match a with
  | [] => Raises (ValueError NoNonzeroDenominator)
  | a0 :: _ => lfilter_normalized a0 b a x zi
  end.

(** The leading zeros [lfilter_zi] strips from [a]
    ([while len(a) > 1 and a[0] == 0.0: a = a[1:]]). *)
Fixpoint strip_leading_zeros (a : list T) : list T :=
  match a with
  | a0 :: ((_ :: _) as a') => if (a0 =? zero)%n then strip_leading_zeros a' else a
  | _ => a
  end.

(** Suffix sums [s[n] = c[n] + c[n+1] + ...]. *)
Fixpoint suffix_sums (c : list T) : list T :=
  match c with
  | [] => []
  | c0 :: c' =>
      match suffix_sums c' with
      | [] => [c0]
      | (s :: _) as ss => (c0 + s)%n :: ss
      end
  end.

(** [lfilter_zi(b, a)]: the delay values of the steady state of the step
    response, that is the solution [zi] of [(I - A^T) zi = B] with [A] the
    companion matrix of [a] and [B = b[1:] - a[1:]*b[0]].  The determinant
    of [I - A^T] is [sum(a)], and for [sum(a) <> 0] the solution is
    [zi[n] = sum over j > n of (b[j] - g*a[j])] with [g = sum(b)/sum(a)].
    An all-zero [a] makes NumPy divide by zero; the model has no value for
    that and reports the singular system. *)
Definition lfilter_zi_normalized (a0 : T) (b a : list T) : outcome (list T) :=
  if (a0 =? zero)%n then Raises LinAlgError
  else
    let n := Nat.max (length a) (length b) in
    if (n <? 2)%nat then Raises (ValueError CompanionTooShort)
    else
      let b' := pad_to n (map (fun c => c / a0)%n b) in
      let a' := pad_to n (map (fun c => c / a0)%n a) in
      if (nsum a' =? zero)%n then Raises LinAlgError
      else
        let g := (nsum b' / nsum a')%n in
        Returns (suffix_sums
                   (map (fun ba => (fst ba - g * snd ba)%n)
                        (combine (tl b') (tl a')))).

Definition lfilter_zi (b a : list T) : outcome (list T) :=
  match strip_leading_zeros a with
  | [] => Raises (ValueError NoNonzeroDenominator)
  | (a0 :: _) as a1 => lfilter_zi_normalized a0 b a1
  end.

(** [odd_ext(x, n)]: the signal extended by [n] samples at each end by
    point reflection about its end values. *)
Definition odd_ext (x : list T) (n : nat) : list T :=
  let left_end := hd zero x in
  let right_end := last x zero in
  let left_ext := rev (firstn n (skipn 1 x)) in
  let right_ext := rev (firstn n (skipn (length x - (n + 1)) x)) in
  map (fun v => two * left_end - v)%n left_ext ++ x ++
  map (fun v => two * right_end - v)%n right_ext.

(** [filtfilt(b, a, x)] with the defaults [padtype='odd'],
    [padlen = 3 * max(len(a), len(b))]. *)
Definition filtfilt (b a x : list T) : outcome (list T) :=
  let edge := (3 * Nat.max (length a) (length b))%nat in
  if (length x <=? edge)%nat then Raises (ValueError InputShorterThanPad)
  else
    let ext := odd_ext x edge in
    let* zi := lfilter_zi b a in
    let x0 := hd zero ext in
    let* fwd := lfilter b a ext (map (fun z => z * x0)%n zi) in
    let y := fst fwd in
    let y0 := last y zero in
    let* bwd := lfilter b a (rev y) (map (fun z => z * y0)%n zi) in
    let y := rev (fst bwd) in
    Returns (firstn (length y - 2 * edge) (skipn edge y)).

(** *** [np.convolve(a, v, mode='same')] and [np.max] *)

(** Entry [k] of the full convolution: the sum of [a[k-j] * v[j]] over the
    overlapping indices. *)
Definition convolve_full_at (a v : list T) (k : nat) : T :=
  nsum (map (fun j => nth (k - j) a zero * nth j v zero)%n
            (filter (fun j => (j <=? k)%nat && (k - j <? length a)%nat)
                    (seq 0 (length v)))).

(** The longer operand comes first (NumPy swaps them); the output has its
    length and is the centred part of the full convolution, which starts at
    index [(len(v) - 1) // 2] for the shorter operand [v]. *)
Definition np_convolve_same (a v : list T) : outcome (list T) :=
  match a, v with
  | [], _ | _, [] => Raises (ValueError EmptyOperand)
  | _, _ =>
      let '(a, v) := if (length a <? length v)%nat then (v, a) else (a, v) in
      let offset := ((length v - 1) / 2)%nat in
      Returns (map (fun i => convolve_full_at a v (i + offset)) (seq 0 (length a)))
  end.

Definition np_max (x : list T) : outcome T :=
  match x with
  | [] => Raises (ValueError ZeroSizeReduction)
  | x0 :: x' => Returns (fold_left (fun m v => if (m <? v)%n then v else m) x' x0)
  end.

(** *** [scipy.signal.find_peaks(x, height=h, distance=d)] *)

(** The end of the plateau that starts at [i]:
    [while i_ahead < i_max and x[i_ahead] == x[i]: i_ahead += 1]. *)
Fixpoint plateau_end (fuel : nat) (x : list T) (v : T) (i_ahead i_max : nat) : nat :=
  match fuel with
  | O => i_ahead
  | S fuel' =>
      if (i_ahead <? i_max)%nat && (nth i_ahead x zero =? v)%n
      then plateau_end fuel' x v (S i_ahead) i_max
      else i_ahead
  end.

(** [_local_maxima_1d]: the midpoints of the plateaus that are strictly
    higher than both neighbours; the first and the last sample are never
    peaks.  The loop index grows at each round, so [len(x)] rounds are
    enough. *)
Fixpoint local_maxima_loop (fuel : nat) (x : list T) (i i_max : nat) : list nat :=
  match fuel with
  | O => []
  | S fuel' =>
      if (i <? i_max)%nat then
        if (nth (i - 1) x zero <? nth i x zero)%n then
          let i_ahead := plateau_end (length x) x (nth i x zero) (i + 1) i_max in
          if (nth i_ahead x zero <? nth i x zero)%n then
            ((i + (i_ahead - 1)) / 2)%nat ::
              local_maxima_loop fuel' x (i_ahead + 1) i_max
          else local_maxima_loop fuel' x (i + 1) i_max
        else local_maxima_loop fuel' x (i + 1) i_max
      else []
  end.

Definition local_maxima_1d (x : list T) : list nat :=
  local_maxima_loop (length x) x 1 (length x - 1).

(** [_select_by_property] with a lower bound only: [hmin <= x[peaks]]. *)
Definition select_by_height (x : list T) (hmin : T) (peaks : list nat) : list nat :=
  filter (fun p => (hmin <=? nth p x zero)%n) peaks.

(** [np.argsort(priority)]: the positions by ascending value, positions of
    equal values in their original order. *)
Fixpoint insert_position (priority : list T) (j : nat) (sorted : list nat) : list nat :=
  match sorted with
  | [] => [j]
  | k :: rest =>
      if (nth j priority zero <? nth k priority zero)%n then j :: sorted
      else k :: insert_position priority j rest
  end.

Definition argsort (priority : list T) : list nat :=
  fold_left (fun acc j => insert_position priority j acc)
            (seq 0 (length priority)) [].

End Detection.

(** [_select_by_peak_distance]: the peaks are visited from the highest
    priority down; a visited peak that is still kept removes every
    neighbour closer than [distance]. *)

(** [k = j - 1; while 0 <= k and peaks[j] - peaks[k] < distance:
    keep[k] = 0; k -= 1], with [k + 1] as the recursion argument. *)
Fixpoint suppress_left (peaks : list nat) (pj : nat) (distance : Z)
    (k1 : nat) (keep : list bool) : list bool :=
  match k1 with
  | O => keep
  | S k =>
      if (Z.of_nat pj - Z.of_nat (nth k peaks 0%nat) <? distance)%Z
      then suppress_left peaks pj distance k (<[k := false]> keep)
      else keep
  end.

(** [k = j + 1; while k < peaks_size and peaks[k] - peaks[j] < distance:
    keep[k] = 0; k += 1]. *)
Fixpoint suppress_right (fuel : nat) (peaks : list nat) (pj : nat) (distance : Z)
    (k : nat) (keep : list bool) : list bool :=
  match fuel with
  | O => keep
  | S fuel' =>
      if (k <? length peaks)%nat &&
         (Z.of_nat (nth k peaks 0%nat) - Z.of_nat pj <? distance)%Z
      then suppress_right fuel' peaks pj distance (S k) (<[k := false]> keep)
      else keep
  end.

Definition visit_peak (peaks : list nat) (distance : Z)
    (keep : list bool) (j : nat) : list bool :=
  if nth j keep false then
    let pj := nth j peaks 0%nat in
    let keep := suppress_left peaks pj distance j keep in
    suppress_right (length peaks) peaks pj distance (j + 1) keep
  else keep.

(** [order] is [priority_to_position]; the loop runs over it backwards. *)
Definition select_by_peak_distance_in (order : list nat) (peaks : list nat)
    (distance : Z) : list bool :=
  fold_left (visit_peak peaks distance) (rev order) (repeat true (length peaks)).

(** [peaks[keep]]. *)
Definition take_kept (peaks : list nat) (keep : list bool) : list nat :=
  map fst (filter snd (combine peaks keep)).

Section Pipeline.

Context {T : Type} `{Numeric T}.

Definition select_by_peak_distance (peaks : list nat) (priority : list T)
    (distance : Z) : list bool :=
  select_by_peak_distance_in (argsort priority) peaks distance.

Definition find_peaks (x : list T) (height : T) (distance : Z) : outcome (list nat) :=
  if (distance <? 1)%Z then Raises (ValueError DistanceBelowOne)
  else
    let peaks := local_maxima_1d x in
    let peaks := select_by_height x height peaks in
    let keep :=
      select_by_peak_distance peaks (map (fun p => nth p x (nofZ 0)) peaks) distance in
    Returns (take_kept peaks keep).

(** *** The stages of [detect_r_peaks] *)

(** Lines 39-42: [diff = np.diff(filtered)] and [squared = diff ** 2]. *)
Definition squared_derivative (filtered : list T) : list T :=
  let diff := np_diff nsub filtered in
  map (fun d => d * d)%n diff.

(** Lines 39-46: derivative, squaring and moving-window integration with
    the kernel [np.ones(window_size) / window_size]. *)
Definition nonlinear_enhancer (filtered : list T) (window_size : Z)
    : outcome (list T) :=
  let squared := squared_derivative filtered in
  if (window_size <? 0)%Z then Raises (ValueError NegativeDimensions)
  else
    np_convolve_same squared
      (repeat (nofZ 1 / nofZ window_size)%n (Z.to_nat window_size)).

(** Lines 49-52: global threshold and peak search. *)
Definition peak_detector (integrated : list T) (threshold_factor : T)
    (distance : Z) : outcome (list nat) :=
  let* m := np_max integrated in
  let threshold := (threshold_factor * m)%n in
  find_peaks integrated threshold distance.

(** [detect_r_peaks] for given filter coefficients, window length and
    minimum peak distance. *)
Definition detect_r_peaks_with (b a : list T) (ecg : list T)
    (window_size distance : Z) (threshold_factor : T) : outcome (list nat) :=
  let* filtered := filtfilt b a ecg in
  let* integrated := nonlinear_enhancer filtered window_size in
  peak_detector integrated threshold_factor distance.

End Pipeline.

(** ** [scipy.signal.butter(2, [low, high], btype='band', fs=fs)]

    The critical frequencies are normalised by [fs/2] and checked
    ([0 < Wn[0] < Wn[1] < 1], else [ValueError]), pre-warped to
    [4 * tan(pi * Wn / 2)], the order-2 Butterworth prototype
    [1 / (s^2 + sqrt(2) s + 1)] is transformed to a band-pass of width
    [bw] around [wo] and mapped to the z-plane by the bilinear transform
    [s = 4 (z - 1) / (z + 1)].  SciPy carries this out on zeros and poles;
    the coefficients below are the same transfer function, expanded:
    numerator [16 bw^2 (z - 1)^2 (z + 1)^2], denominator
    [c4 (z-1)^4 + c3 (z-1)^3 (z+1) + c2 (z-1)^2 (z+1)^2 + c1 (z-1) (z+1)^3
     + c0 (z+1)^4], both divided by the leading denominator coefficient. *)
Definition butter2_bandpass (low high fs : R) : outcome (list R * list R) :=
  let nyq := xdiv (Fin fs) (Fin 2) in
  match xdiv (Fin low) nyq, xdiv (Fin high) nyq with
  | Fin wn1, Fin wn2 =>
      if Rltb 0 wn1 && Rltb wn1 wn2 && Rltb wn2 1 then
        let w1 := 4 * tan (PI * wn1 / 2) in
        let w2 := 4 * tan (PI * wn2 / 2) in
        let bw := w2 - w1 in
        let wo2 := w1 * w2 in
        let c4 := 256 in
        let c3 := 64 * (sqrt 2 * bw) in
        let c2 := 16 * (2 * wo2 + bw * bw) in
        let c1 := 4 * (sqrt 2 * bw) * wo2 in
        let c0 := wo2 * wo2 in
        let A0 := c4 + c3 + c2 + c1 + c0 in
        let A1 := - 4 * c4 - 2 * c3 + 2 * c1 + 4 * c0 in
        let A2 := 6 * c4 - 2 * c2 + 6 * c0 in
        let A3 := - 4 * c4 + 2 * c3 - 2 * c1 + 4 * c0 in
        let A4 := c4 - c3 + c2 - c1 + c0 in
        let k := 16 * (bw * bw) / A0 in
        Returns ([k; 0; - 2 * k; 0; k], [1; A1 / A0; A2 / A0; A3 / A0; A4 / A0])
      else Raises (ValueError CriticalFrequencies)
  | _, _ => Raises (ValueError CriticalFrequencies)
  end.

(** ** [detect_r_peaks] *)

(** Python's [int(x)] on a float: truncation towards zero. *)
Definition py_int (x : R) : Z := if Rleb 0 x then Zfloor x else Zceil x.

(** [window_size = int(0.15 * fs)] and [distance = int(0.6 * fs)]. *)
Definition window_size (fs : R) : Z := py_int (15 / 100 * fs).
Definition min_distance (fs : R) : Z := py_int (6 / 10 * fs).

(** Lines 35-36. *)
Definition bandpass_stage (ecg : list R) (fs : R) : outcome (list R) :=
  let* ba := butter2_bandpass 5 15 fs in
  filtfilt (fst ba) (snd ba) ecg.

(** Lines 39-46. *)
Definition enhancer_stage (filtered : list R) (fs : R) : outcome (list R) :=
  nonlinear_enhancer filtered (window_size fs).

(** Lines 49-52. *)
Definition peak_stage (integrated : list R) (fs threshold_factor : R)
    : outcome (list nat) :=
  peak_detector integrated threshold_factor (min_distance fs).

Definition detect_r_peaks (ecg : list R) (fs threshold_factor : R)
    : outcome (list Z) :=
  let* filtered := bandpass_stage ecg fs in
  let* integrated := enhancer_stage filtered fs in
  let* peaks := peak_stage integrated fs threshold_factor in
  Returns (map Z.of_nat peaks).

(** ** Maps between two number types *)

(** A map that keeps zero and the comparisons: the peak search gives the
    same answer on both sides of it. *)
Class OrderMorphism {T U : Type} `{Numeric T} `{Numeric U} (phi : T -> U)
    : Prop := {
  morph_zero : phi (nofZ 0) = nofZ 0;
  morph_ltb : forall a b, nltb (phi a) (phi b) = nltb a b;
  morph_leb : forall a b, nleb (phi a) (phi b) = nleb a b;
  morph_eqb : forall a b, neqb (phi a) (phi b) = neqb a b
}.

(** A map that also commutes with the arithmetic: the whole pipeline gives
    the same answer on both sides of it. *)
Class NumericMorphism {T U : Type} `{Numeric T} `{Numeric U} (phi : T -> U)
    : Prop := {
  morph_order :: OrderMorphism phi;
  morph_ofZ : forall z, phi (nofZ z) = nofZ z;
  morph_add : forall a b, phi (nadd a b) = nadd (phi a) (phi b);
  morph_sub : forall a b, phi (nsub a b) = nsub (phi a) (phi b);
  morph_mul : forall a b, phi (nmul a b) = nmul (phi a) (phi b);
  morph_div : forall a b, phi (ndiv a b) = ndiv (phi a) (phi b)
}.

Definition outcome_map {A B : Type} (f : A -> B) (m : outcome A) : outcome B :=
  match m with
  | Returns a => Returns (f a)
  | Raises e => Raises e
  end.

(** ** Sampling rates with rational filter coefficients

    For [fs = 5 pi / atan (sqrt 2 * r)] the pre-warped band edges are
    [4 sqrt 2 r] and [4 sqrt 2 r'] with [r' = r (3 - 2 r^2) / (1 - 6 r^2)]
    (the tangent of the triple angle), and every coefficient of the
    band-pass filter is a rational function of [r]. *)
Definition rational_rate (r : R) : R := 5 * PI / atan (sqrt 2 * r).

Section RationalCoefficients.

Context {T : Type} `{Numeric T}.

Definition butter_rational (r : T) : list T * list T :=
  let rp := (r * (nofZ 3 - nofZ 2 * (r * r)) / (nofZ 1 - nofZ 6 * (r * r)))%n in
  let dr := (rp - r)%n in
  let c4 := nofZ 256 in
  let c3 := (nofZ 512 * dr)%n in
  let c2 := (nofZ 16 * (nofZ 64 * (r * rp) + nofZ 32 * (dr * dr)))%n in
  let c1 := (nofZ 1024 * (dr * (r * rp)))%n in
  let c0 := (nofZ 1024 * ((r * rp) * (r * rp)))%n in
  let A0 := (c4 + c3 + c2 + c1 + c0)%n in
  let A1 := (nofZ 2 * c1 + nofZ 4 * c0 - nofZ 4 * c4 - nofZ 2 * c3)%n in
  let A2 := (nofZ 6 * c4 - nofZ 2 * c2 + nofZ 6 * c0)%n in
  let A3 := (nofZ 2 * c3 + nofZ 4 * c0 - nofZ 4 * c4 - nofZ 2 * c1)%n in
  let A4 := (c4 - c3 + c2 - c1 + c0)%n in
  let k := (nofZ 512 * (dr * dr) / A0)%n in
  ([k; nofZ 0; (nofZ 0 - nofZ 2 * k)%n; nofZ 0; k],
   [nofZ 1; (A1 / A0)%n; (A2 / A0)%n; (A3 / A0)%n; (A4 / A0)%n]).

End RationalCoefficients.

(** Polynomial enclosures of sine and cosine on [0, 1], used to locate
    [rational_rate r]. *)
Definition sin_lo (x : R) : R := x - x * x * x / 6.
Definition sin_hi (x : R) : R := x - x * x * x / 6 + x * x * x * x * x / 120.
Definition cos_lo (x : R) : R := 1 - 2 * (sin_hi (x / 2) * sin_hi (x / 2)).
Definition cos_hi (x : R) : R := 1 - 2 * (sin_lo (x / 2) * sin_lo (x / 2)).

(** ** Vocabulary of the specification *)

(** Python's [round(x)]: to the nearest integer, ties to the even one. *)
Definition py_round (x : R) : Z :=
  let f := Zfloor x in
  if Rltb (x - IZR f) (1 / 2) then f
  else if Rltb (1 / 2) (x - IZR f) then (f + 1)%Z
  else if Z.even f then f else (f + 1)%Z.

(** Strictly increasing indices, any two of them at least [d] apart. *)
Definition gaps_at_least (d : Z) (peaks : list Z) : Prop :=
  StronglySorted (fun p q => (p < q /\ p + d <= q)%Z) peaks.

Section MovingAverage.

Context {T : Type} `{Numeric T}.

(** The sequence continued by zeros before its first and after its last
    sample. *)
Definition zero_padded (x : list T) (i : Z) : T :=
  if (i <? 0)%Z then nofZ 0 else nth (Z.to_nat i) x (nofZ 0).

(** The centred moving average of window length [w] with same-length
    output: one value per sample, the mean of the [w] samples of the
    zero-padded sequence around it, from [w / 2] samples before it to
    [(w - 1) / 2] samples after it. *)
Definition moving_average_same (w : Z) (x : list T) : list T :=
  map (fun i =>
         (nsum (map (fun j => zero_padded x (Z.of_nat i + (w - 1) / 2 - Z.of_nat j))
                    (seq 0 (Z.to_nat w)))
          / nofZ w)%n)
      (seq 0 (length x)).

End MovingAverage.

(** ** Two recordings *)

(** Forty samples with a unit impulse at samples 3 and 25. *)
Definition two_impulses {T : Type} `{Numeric T} : list T :=
  repeat (nofZ 0) 3 ++ [nofZ 1] ++ repeat (nofZ 0) 21 ++ [nofZ 1] ++
  repeat (nofZ 0) 14.

(** Sixteen samples with a unit impulse at sample 7. *)
Definition one_impulse {T : Type} `{Numeric T} : list T :=
  repeat (nofZ 0) 7 ++ [nofZ 1] ++ repeat (nofZ 0) 8.

(** ** Vocabulary of the proofs *)

(** Positions in a strictly increasing list. *)
Definition increasing (peaks : list nat) : Prop :=
  forall i k, (i < k < length peaks)%nat -> (nth i peaks 0 < nth k peaks 0)%nat.

Section DistanceVocabulary.

Variable peaks : list nat.
Variable distance : Z.

(** Two peaks closer than [distance]. *)
Definition close (j k : nat) : Prop :=
  (Z.abs (Z.of_nat (nth j peaks 0%nat) - Z.of_nat (nth k peaks 0%nat)) < distance)%Z.

(** If peak [j] is kept, every other peak close to it is removed. *)
Definition settled (keep : list bool) (j : nat) : Prop :=
  nth j keep false = true ->
  forall k, (k < length peaks)%nat -> k <> j -> close j k -> nth k keep false = false.

End DistanceVocabulary.

(** Every position kept in [keep'] is kept in [keep]. *)
Definition below (keep' keep : list bool) : Prop :=
  forall i, nth i keep' false = true -> nth i keep false = true.

(** A map applied to both lists of a pair, as to the output and the final
    delay values of [lfilter]. *)
Definition map_both {T U : Type} (phi : T -> U) (r : list T * list T)
    : list U * list U :=
  (map phi (fst r), map phi (snd r)).

(** The midpoint of a flat stretch of [x] that is strictly higher than the
    sample before it and the sample after it. *)
Definition plateau_peak (x : list R) (p : nat) : Prop :=
  exists l r,
    (1 <= l <= p)%nat /\ (p <= r)%nat /\ p = ((l + r) / 2)%nat /\
    (forall j, (l <= j <= r)%nat -> nth j x 0 = nth p x 0) /\
    nth (l - 1) x 0 < nth p x 0 /\ nth (r + 1) x 0 < nth p x 0.

(** ** The report of [main]

    [main] synthesises a recording of [int(360 * 30)] samples from random
    numbers, analyses it and prints the results.  The model takes the
    recording as its argument and returns the values [main] prints
    (lines 163-184). *)

(** What stops [main]: an exception of a library call, or the [KeyError]
    of a dictionary lookup. *)
Inductive main_exn : Type :=
  | LibraryError (e : exn)
  | KeyError (key : string).

Inductive run (A : Type) : Type :=
  | Done (a : A)
  | Failed (e : main_exn).
Arguments Done {A} a.
Arguments Failed {A} e.

Definition run_bind {A B : Type} (m : run A) (k : A -> run B) : run B :=
  match m with
  | Done a => k a
  | Failed e => Failed e
  end.

Notation "'run*' x ':=' m 'in' k" := (run_bind m (fun x => k))
  (at level 10, x name, m at level 100, k at level 200).

Definition call {A : Type} (m : outcome A) : run A :=
  match m with
  | Returns a => Done a
  | Raises e => Failed (LibraryError e)
  end.

(** [d[key]]. *)
Definition getitem (d : gmap string xreal) (key : string) : run xreal :=
  match d !! key with
  | Some v => Done v
  | None => Failed (KeyError key)
  end.

(** [np.minimum] and [np.maximum] of two floats: a NaN wins. *)
Definition xmin (a b : xreal) : xreal :=
  match a, b with
  | NaN, _ | _, NaN => NaN
  | _, _ => if xltb b a then b else a
  end.

Definition xmax (a b : xreal) : xreal :=
  match a, b with
  | NaN, _ | _, NaN => NaN
  | _, _ => if xltb a b then b else a
  end.

(** [np.min] and [np.max] of a float array; an empty array raises
    [ValueError] (zero-size array to reduction operation). *)
Definition np_min_float (a : list xreal) : outcome xreal :=
  match a with
  | [] => Raises (ValueError ZeroSizeReduction)
  | x :: a' => Returns (fold_left xmin a' x)
  end.

Definition np_max_float (a : list xreal) : outcome xreal :=
  match a with
  | [] => Raises (ValueError ZeroSizeReduction)
  | x :: a' => Returns (fold_left xmax a' x)
  end.

(** The values [main] prints. *)
Record report : Type := Report {
  heartbeats : nat;
  average_heart_rate : xreal;
  lowest_heart_rate : xreal;
  highest_heart_rate : xreal;
  mean_rr : xreal;
  sdnn : xreal;
  rmssd : xreal;
  pnn50 : xreal;
  lf_hf : option xreal
}.

Definition main_report (ecg : list R) : run report :=
  let fs := 360 in
  run* detected_peaks := call (detect_r_peaks ecg fs (6 / 10)) in
  run* hr := call (compute_heart_rate detected_peaks fs) in
  run* hrv := call (compute_hrv_metrics detected_peaks fs) in
  let count := length detected_peaks in
  let average := np_mean hr in
  run* lowest := call (np_min_float hr) in
  run* highest := call (np_max_float hr) in
  run* mean_rr := getitem hrv "mean_rr" in
  run* sdnn := getitem hrv "std_rr" in
  run* rmssd := getitem hrv "rmssd" in
  run* pnn50 := getitem hrv "pnn50" in
  match hrv !! "lf_hf_ratio" with
  | Some ratio =>
      Done (Report count average lowest highest mean_rr sdnn rmssd pnn50 (Some ratio))
  | None =>
      Done (Report count average lowest highest mean_rr sdnn rmssd pnn50 None)
  end.

(** ** The initial filter state, solved numerically

    SciPy's [lfilter_zi] builds the system [(I - A^T) zi = B], with [A] the
    companion matrix of [a] and [B = b[1:] - a[1:]*b[0]], and hands it to
    [np.linalg.solve], that is to LAPACK's [dgesv]: an LU factorisation with
    partial pivoting, then the two triangular solves.  In exact arithmetic
    the result is the closed form of [lfilter_zi]; in float64 it carries the
    rounding of the elimination.  The operations are written in the order
    of the reference LAPACK. *)

Section InitialState.

Context {T : Type} `{Numeric T}.

Local Abbreviation zero := (nofZ 0).
Local Abbreviation one := (nofZ 1).

Definition nabs (x : T) : T := if (x <? zero)%n then (zero - x)%n else x.

(** The row whose leading entry has the largest absolute value, the first
    one among equals ([idamax]). *)
Fixpoint pivot_index_from (rows : list (list T)) (i best : nat) (m : T) : nat :=
  match rows with
  | [] => best
  | r :: rows' =>
      let v := nabs (hd zero r) in
      if (m <? v)%n then pivot_index_from rows' (S i) i v
      else pivot_index_from rows' (S i) best m
  end.

Definition pivot_index (rows : list (list T)) : nat :=
  match rows with
  | [] => O
  | r :: rows' => pivot_index_from rows' 1 0 (nabs (hd zero r))
  end.

(** The rows with the first one and row [p] exchanged. *)
Definition swap_with_first {A : Type} (p : nat) (rows : list A) : list A :=
  match p, rows with
  | S p', r0 :: rest =>
      match rest !! p' with
      | Some rp => rp :: <[p' := r0]> rest
      | None => rows
      end
  | _, _ => rows
  end.

(** Elimination on the rows of [[A | B]]: the pivot row is exchanged with
    the first one, the leading entries of the other rows are scaled by the
    reciprocal of the pivot, and [l * pivot row] is subtracted from each of
    them.  Returns the rows of [[U | y]], row [i] from its diagonal entry
    on.  A pivot equal to zero is LAPACK's singular matrix. *)
Fixpoint eliminate (fuel : nat) (rows : list (list T)) : outcome (list (list T)) :=
  match fuel with
  | O => Returns []
  | S fuel' =>
      match swap_with_first (pivot_index rows) rows with
      | [] => Returns []
      | pivot_row :: others =>
          let d := hd zero pivot_row in
          if (d =? zero)%n then Raises LinAlgError
          else
            let reciprocal := (one / d)%n in
            let reduced :=
              map (fun r =>
                     let l := (hd zero r * reciprocal)%n in
                     zip_with (fun x u => (x - l * u)%n) (tl r) (tl pivot_row))
                  others in
            let* u := eliminate fuel' reduced in
            Returns (pivot_row :: u)
      end
  end.

(** Back substitution, from the last unknown: [x[j]] is divided by the
    diagonal entry and [x[j] * U[i][j]] is subtracted from the right-hand
    sides above. *)
Fixpoint back_substitute (u : list (list T)) : list T :=
  match u with
  | [] => []
  | row :: u' =>
      let xs := back_substitute u' in
      let coefficients := removelast (tl row) in
      let rhs := last row zero in
      let s := fold_left (fun acc ux => (acc - snd ux * fst ux)%n)
                         (rev (combine coefficients xs)) rhs in
      (s / hd zero row)%n :: xs
  end.

Definition np_linalg_solve (rows : list (list T)) : outcome (list T) :=
  let* u := eliminate (length rows) rows in
  Returns (back_substitute u).

(** Row [i] of [[np.eye(n - 1) - companion(a).T | b[1:] - a[1:]*b[0]]];
    the first column of [companion(a).T] is [-a[1:] / a[0]] and the entries
    right of its diagonal are 1. *)
Definition lfilter_zi_row (b a : list T) (n i : nat) : list T :=
  map (fun j =>
         let eye := if (i =? j)%nat then one else zero in
         let companion_T :=
           if (j =? 0)%nat then ((zero - nth (S i) a zero) / hd zero a)%n
           else if (j =? S i)%nat then one else zero in
         (eye - companion_T)%n)
      (seq 0 (n - 1)) ++
  [(nth (S i) b zero - nth (S i) a zero * hd zero b)%n].

Definition lfilter_zi_solved_normalized (a0 : T) (b a : list T) : outcome (list T) :=
  if (a0 =? zero)%n then Raises LinAlgError
  else
    let n := Nat.max (length a) (length b) in
    if (n <? 2)%nat then Raises (ValueError CompanionTooShort)
    else
      let b' := pad_to n (map (fun c => c / a0)%n b) in
      let a' := pad_to n (map (fun c => c / a0)%n a) in
      np_linalg_solve (map (lfilter_zi_row b' a' n) (seq 0 (n - 1))).

Definition lfilter_zi_solved (b a : list T) : outcome (list T) :=
  match strip_leading_zeros a with
  | [] => Raises (ValueError NoNonzeroDenominator)
  | (a0 :: _) as a1 => lfilter_zi_solved_normalized a0 b a1
  end.

(** [filtfilt] and [detect_r_peaks] for a given way [initial] of computing
    the initial state; with [lfilter_zi] they are [filtfilt] and
    [detect_r_peaks_with]. *)
Definition filtfilt_by (initial : list T -> list T -> outcome (list T))
    (b a x : list T) : outcome (list T) :=
  let edge := (3 * Nat.max (length a) (length b))%nat in
  if (length x <=? edge)%nat then Raises (ValueError InputShorterThanPad)
  else
    let ext := odd_ext x edge in
    let* zi := initial b a in
    let x0 := hd zero ext in
    let* fwd := lfilter b a ext (map (fun z => z * x0)%n zi) in
    let y := fst fwd in
    let y0 := last y zero in
    let* bwd := lfilter b a (rev y) (map (fun z => z * y0)%n zi) in
    let y := rev (fst bwd) in
    Returns (firstn (length y - 2 * edge) (skipn edge y)).

Definition detect_r_peaks_by (initial : list T -> list T -> outcome (list T))
    (b a : list T) (ecg : list T) (window_size distance : Z)
    (threshold_factor : T) : outcome (list nat) :=
  let* filtered := filtfilt_by initial b a ecg in
  let* integrated := nonlinear_enhancer filtered window_size in
  peak_detector integrated threshold_factor distance.

End InitialState.

(** ** The computation in float64

    IEEE-754 binary64 with round to nearest even, as [PrimFloat.float]. *)

(** The float64 nearest to [m * 2^e]; for [e = 0] NumPy's conversion of an
    [int64] and Python's [float(n)]. *)
Definition float64_of_parts (m e : Z) : PrimFloat.float :=
  FloatOps.SF2Prim (SpecFloat.binary_normalize FloatOps.prec FloatOps.emax m e false).

Definition float64_of_Z (z : Z) : PrimFloat.float := float64_of_parts z 0.

(** A short decimal literal such as [0.15 = 15/100]: the float64 nearest
    to the fraction, which is the rounded quotient of the two integers. *)
Definition float64_ratio (p q : Z) : PrimFloat.float :=
  PrimFloat.div (float64_of_Z p) (float64_of_Z q).

(** The real number a finite float64 stands for (0 for the others). *)
Definition float64_value (x : PrimFloat.float) : R :=
  match FloatOps.Prim2SF x with
  | SpecFloat.S754_finite negative m e =>
      let magnitude :=
        if (0 <=? e)%Z then IZR (Z.pos m * 2 ^ e)
        else IZR (Z.pos m) / IZR (2 ^ (- e)) in
      if negative then - magnitude else magnitude
  | _ => 0
  end.

(** The arithmetic and the comparisons of the pipeline on float64. *)
Definition float64_numeric : Numeric PrimFloat.float := {|
  nofZ := float64_of_Z;
  nadd := PrimFloat.add;
  nsub := PrimFloat.sub;
  nmul := PrimFloat.mul;
  ndiv := PrimFloat.div;
  nltb := PrimFloat.ltb;
  nleb := PrimFloat.leb;
  neqb := PrimFloat.eqb
|}.

(** *** [int(x)] and [round(x)] *)

(** Python's [int(x)] on a float: the integer part.  There is none for an
    infinity ([OverflowError]) and for a NaN ([ValueError]). *)
Definition py_int_float64 (x : PrimFloat.float) : option Z :=
  match FloatOps.Prim2SF x with
  | SpecFloat.S754_zero _ => Some 0%Z
  | SpecFloat.S754_finite negative m e =>
      let magnitude :=
        if (0 <=? e)%Z then (Z.pos m * 2 ^ e)%Z else (Z.pos m / 2 ^ (- e))%Z in
      Some (if negative then (- magnitude)%Z else magnitude)
  | _ => None
  end.


(** [int(0.15 * fs)] and [int(0.6 * fs)], the products in float64
    (lines 45 and 52). *)
Definition window_size_float64 (fs : PrimFloat.float) : option Z :=
  py_int_float64 (PrimFloat.mul (float64_ratio 15 100) fs).

Definition min_distance_float64 (fs : PrimFloat.float) : option Z :=
  py_int_float64 (PrimFloat.mul (float64_ratio 6 10) fs).


(** *** [np.mean] and [np.std] *)

(** [np.add.reduce] on a contiguous float64 array is NumPy's pairwise
    summation: fewer than 8 values are added one after the other onto a
    zero; up to 128 values are added into eight running sums, one block of
    eight at a time, the eight sums are added in pairs and the values left
    over are added last; a longer array is split in two at a multiple of 8.
    The result is added to the initial value 0 of the reduction.  (The
    sign of the zero a short sum starts from differs between NumPy
    versions; it only shows in the sign of a sum that is zero.) *)
Definition sum_onto (acc : PrimFloat.float) (a : list PrimFloat.float)
    : PrimFloat.float :=
  fold_left PrimFloat.add a acc.

Fixpoint add_blocks (blocks : nat) (r a : list PrimFloat.float)
    : list PrimFloat.float * list PrimFloat.float :=
  match blocks with
  | O => (r, a)
  | S blocks' =>
      add_blocks blocks' (zip_with PrimFloat.add r (firstn 8 a)) (skipn 8 a)
  end.

Definition unrolled_sum (a : list PrimFloat.float) : PrimFloat.float :=
  let n := length a in
  let '(r, rest) := add_blocks ((n - n mod 8) / 8 - 1) (firstn 8 a) (skipn 8 a) in
  let r_ i := nth i r (float64_of_Z 0) in
  let res :=
    PrimFloat.add
      (PrimFloat.add (PrimFloat.add (r_ 0%nat) (r_ 1%nat))
                     (PrimFloat.add (r_ 2%nat) (r_ 3%nat)))
      (PrimFloat.add (PrimFloat.add (r_ 4%nat) (r_ 5%nat))
                     (PrimFloat.add (r_ 6%nat) (r_ 7%nat))) in
  sum_onto res rest.

Fixpoint pairwise_sum (fuel : nat) (a : list PrimFloat.float) : PrimFloat.float :=
  let n := length a in
  if (n <? 8)%nat then sum_onto (float64_of_Z 0) a
  else if (n <=? 128)%nat then unrolled_sum a
  else
    match fuel with
    | O => unrolled_sum a
    | S fuel' =>
        let n2 := (n / 2 - (n / 2) mod 8)%nat in
        PrimFloat.add (pairwise_sum fuel' (firstn n2 a))
                      (pairwise_sum fuel' (skipn n2 a))
    end.

Definition np_sum_float64 (a : list PrimFloat.float) : PrimFloat.float :=
  PrimFloat.add (float64_of_Z 0) (pairwise_sum (length a) a).

(** [np.mean(a)]: the sum divided by the count. *)
Definition np_mean_float64 (a : list PrimFloat.float) : PrimFloat.float :=
  PrimFloat.div (np_sum_float64 a) (float64_of_Z (Z.of_nat (length a))).

(** [np.std(a)]: the mean, the squared deviations from it, their mean and
    its square root. *)
Definition np_std_float64 (a : list PrimFloat.float) : PrimFloat.float :=
  let arrmean := np_mean_float64 a in
  let x := map (fun v => PrimFloat.sub v arrmean) a in
  let x := map (fun v => PrimFloat.mul v v) x in
  PrimFloat.sqrt (PrimFloat.div (np_sum_float64 x) (float64_of_Z (Z.of_nat (length a)))).

(** Lines 99 and 105: [rr_intervals = np.diff(r_peaks) / fs * 1000] and
    [np.std(rr_intervals)]. *)
Definition rr_milliseconds_float64 (r_peaks : list Z) (fs : PrimFloat.float)
    : list PrimFloat.float :=
  map (fun d => PrimFloat.mul (PrimFloat.div (float64_of_Z d) fs) (float64_of_Z 1000))
      (np_diff Z.sub r_peaks).

Definition std_rr_float64 (r_peaks : list Z) (fs : PrimFloat.float) : PrimFloat.float :=
  np_std_float64 (rr_milliseconds_float64 r_peaks fs).

(** A float64 that is a number: a zero or a finite value. *)
Definition float64_finite (x : PrimFloat.float) : Prop :=
  match FloatOps.Prim2SF x with
  | SpecFloat.S754_zero _ | SpecFloat.S754_finite _ _ _ => True
  | _ => False
  end.

(** Lines 106-109: [rmssd], [sdsd], [nn50] and [pnn50]. *)
Definition rmssd_float64 (r_peaks : list Z) (fs : PrimFloat.float) : PrimFloat.float :=
  let rr_intervals := rr_milliseconds_float64 r_peaks fs in
  PrimFloat.sqrt
    (np_mean_float64 (map (fun d => PrimFloat.mul d d)
                          (np_diff PrimFloat.sub rr_intervals))).

Definition sdsd_float64 (r_peaks : list Z) (fs : PrimFloat.float) : PrimFloat.float :=
  np_std_float64 (np_diff PrimFloat.sub (rr_milliseconds_float64 r_peaks fs)).

Definition nn50_float64 (r_peaks : list Z) (fs : PrimFloat.float) : nat :=
  length (filter (fun d => PrimFloat.ltb (float64_of_Z 50) (PrimFloat.abs d))
                 (np_diff PrimFloat.sub (rr_milliseconds_float64 r_peaks fs))).

Definition pnn50_float64 (r_peaks : list Z) (fs : PrimFloat.float) : PrimFloat.float :=
  PrimFloat.mul
    (PrimFloat.div (float64_of_Z (Z.of_nat (nn50_float64 r_peaks fs)))
                   (float64_of_Z (Z.of_nat (length (rr_milliseconds_float64 r_peaks fs)))))
    (float64_of_Z 100).

(** Float64 values that are all [+0.0]. *)
Definition all_zero64 (a : list PrimFloat.float) : Prop :=
  Forall (fun x => x = float64_of_Z 0) a.

(** *** The detection *)

(** Lines 36-52 in float64, for the float64 coefficients [b], [a] that
    [signal.butter] returned. *)
Definition detect_r_peaks_float64 (b a ecg : list PrimFloat.float)
    (fs threshold_factor : PrimFloat.float) : option (outcome (list nat)) :=
  match window_size_float64 fs, min_distance_float64 fs with
  | Some window_size, Some distance =>
      Some (@detect_r_peaks_by _ float64_numeric (@lfilter_zi_solved _ float64_numeric)
              b a ecg window_size distance threshold_factor)
  | _, _ => None
  end.

(** The band-pass at 360 Hz: the coefficients of [butter2_bandpass 5 15 360],
    each rounded to the nearest float64.  [signal.butter] computes them in
    float64 from the poles and zeros of the filter, and its values can
    differ from these in the last place. *)
Definition butter_360_gain : PrimFloat.float := float64_of_parts 7799990431677305 (-60).

Definition butter_360_denominator : list PrimFloat.float :=
  [float64_of_Z 1;
   float64_of_parts (-8357119173164799) (-51);
   float64_of_parts 5865212797611594 (-50);
   float64_of_parts (-7383353302971264) (-51);
   float64_of_parts 7037148970099358 (-53)].

(** The numerator [k * [1, 0, -2, 0, 1]] for a gain [k]. *)
Definition bandpass_numerator (k : PrimFloat.float) : list PrimFloat.float :=
  map (fun c => PrimFloat.mul k (float64_of_Z c)) [1; 0; -2; 0; 1]%Z.

(** A float64 and its two neighbours. *)
Definition last_place (x : PrimFloat.float) : list PrimFloat.float :=
  [PrimFloat.next_down x; x; PrimFloat.next_up x].

(** The designs whose gain and denominator are within one unit in the last
    place of [butter_360_gain] and [butter_360_denominator]. *)
Definition designs_near_butter_360
    : list (list PrimFloat.float * list PrimFloat.float) :=
  k ← last_place butter_360_gain;
  a1 ← last_place (nth 1 butter_360_denominator (float64_of_Z 0));
  a2 ← last_place (nth 2 butter_360_denominator (float64_of_Z 0));
  a3 ← last_place (nth 3 butter_360_denominator (float64_of_Z 0));
  a4 ← last_place (nth 4 butter_360_denominator (float64_of_Z 0));
  [(bandpass_numerator k, [float64_of_Z 1; a1; a2; a3; a4])].

(** The indices a float64 run returned, if it returned. *)
Definition returned (r : option (outcome (list nat))) : option (list nat) :=
  match r with
  | Some (Returns peaks) => Some peaks
  | _ => None
  end.

(** A float64 that the arithmetic cannot tell from nothing: a zero of
    either sign, or a NaN. *)
Definition null_float64 (x : PrimFloat.float) : Prop :=
  match FloatOps.Prim2SF x with
  | SpecFloat.S754_zero _ | SpecFloat.S754_nan => True
  | _ => False
  end.
(** * Properties *)

(** ** Comparisons on the reals *)

Lemma Rltb_true (a b : R) : Rltb a b = true <-> a < b.
Proof. unfold Rltb. destruct (Rlt_dec a b); split; intros; auto; discriminate. Qed.

Lemma Rltb_false (a b : R) : Rltb a b = false <-> b <= a.
Proof. unfold Rltb. destruct (Rlt_dec a b); split; intros; auto; try discriminate; lra. Qed.

Lemma Rleb_true (a b : R) : Rleb a b = true <-> a <= b.
Proof. unfold Rleb. destruct (Rle_dec a b); split; intros; auto; discriminate. Qed.

Lemma Rleb_false (a b : R) : Rleb a b = false <-> b < a.
Proof. unfold Rleb. destruct (Rle_dec a b); split; intros; auto; try discriminate; lra. Qed.

Lemma Reqb_true (a b : R) : Reqb a b = true <-> a = b.
Proof. unfold Reqb. destruct (Req_dec_T a b); split; intros; auto; discriminate. Qed.

Lemma Reqb_false (a b : R) : Reqb a b = false <-> a <> b.
Proof. unfold Reqb. destruct (Req_dec_T a b); split; intros; auto; try discriminate; contradiction. Qed.

Lemma Reqb_refl (a : R) : Reqb a a = true.
Proof. now apply Reqb_true. Qed.

Lemma Rltb_irrefl (a : R) : Rltb a a = false.
Proof. apply Rltb_false. lra. Qed.

Lemma xdiv_fin (a b : R) : b <> 0 -> xdiv (Fin a) (Fin b) = Fin (a / b).
Proof. intros H. cbn [xdiv]. apply Reqb_false in H. now rewrite H. Qed.

(** ** Fewer than two beats *)

Lemma np_diff_short {A : Type} (sub : A -> A -> A) (a : list A) :
  (length a < 2)%nat -> np_diff sub a = [].
Proof.
  destruct a as [|x [|y tl]]; simpl; intros H; try reflexivity; lia.
Qed.

Lemma np_mean_empty : np_mean [] = NaN.
Proof.
  unfold np_mean, np_sum. simpl. rewrite Reqb_refl.
  unfold inf_of_sign. now rewrite Rltb_irrefl.
Qed.

Lemma np_std_empty : np_std [] = NaN.
Proof. unfold np_std. simpl. now rewrite np_mean_empty. Qed.

Lemma short_beat_sequence (r_peaks : list Z) (fs : R) :
  (length r_peaks < 2)%nat ->
  compute_heart_rate r_peaks fs = Returns [] /\
  compute_hrv_metrics r_peaks fs = Returns hrv_of_no_interval.
Proof.
  intros H.
  unfold compute_heart_rate, compute_hrv_metrics, rr_milliseconds, rr_seconds, nn50_count.
  rewrite (np_diff_short Z.sub) by exact H. simpl.
  rewrite np_mean_empty, np_std_empty. simpl.
  rewrite Reqb_refl. unfold inf_of_sign. rewrite Rltb_irrefl. simpl.
  split; reflexivity.
Qed.

(** C1 (as the code has it): with fewer than two beats neither function
    raises.  [compute_heart_rate] returns the empty rate sequence, and
    [compute_hrv_metrics] returns the six time-domain keys, with NaN for
    every metric but [nn50], which is 0. *)
Theorem fewer_than_two_beats_return (r_peaks : list Z) (fs : R) :
  (length r_peaks < 2)%nat ->
  compute_heart_rate r_peaks fs = Returns [] /\
  compute_hrv_metrics r_peaks fs = Returns hrv_of_no_interval.
Proof. apply short_beat_sequence. Qed.

Lemma fewer_than_two_beats_return_witness :
  (length [100%Z] < 2)%nat /\
  compute_heart_rate [100%Z] 360 = Returns [] /\
  compute_hrv_metrics [100%Z] 360 = Returns hrv_of_no_interval.
Proof.
  split; [simpl; lia | apply (fewer_than_two_beats_return [100%Z] 360); simpl; lia].
Defined.

(** C1 (as stated) fails: on the empty beat sequence and on a single beat
    neither function raises. *)
Lemma fewer_than_two_beats_no_error :
  ~ raises (compute_heart_rate [] 360) /\
  ~ raises (compute_hrv_metrics [] 360) /\
  ~ raises (compute_heart_rate [100%Z] 360) /\
  ~ raises (compute_hrv_metrics [100%Z] 360).
Proof.
  assert (H0 : (length (@nil Z) < 2)%nat) by (simpl; lia).
  assert (H1 : (length [100%Z] < 2)%nat) by (simpl; lia).
  destruct (short_beat_sequence [] 360 H0) as [A0 B0].
  destruct (short_beat_sequence [100%Z] 360 H1) as [A1 B1].
  repeat split; intros [e He]; congruence.
Qed.

(** ** Presence of the frequency-domain keys *)

Lemma rr_milliseconds_length (r_peaks : list Z) (fs : R) :
  length (rr_milliseconds r_peaks fs) = length (np_diff Z.sub r_peaks).
Proof. unfold rr_milliseconds, rr_seconds. now rewrite !length_map. Qed.

Lemma np_diff_length {A : Type} (sub : A -> A -> A) (a : list A) :
  length (np_diff sub a) = (length a - 1)%nat.
Proof.
  induction a as [|x [|y tl] IH]; simpl in *; try reflexivity.
  rewrite IH. lia.
Qed.

Lemma compute_hrv_metrics_keys (r_peaks : list Z) (fs : R) :
  exists hrv,
    compute_hrv_metrics r_peaks fs = Returns hrv /\
    let rr := rr_milliseconds r_peaks fs in
    (is_Some (hrv !! "lf_power") <-> (11 <= length rr)%nat) /\
    (is_Some (hrv !! "hf_power") <-> (11 <= length rr)%nat) /\
    (is_Some (hrv !! "lf_hf_ratio") <-> (11 <= length rr)%nat) /\
    length rr = (length r_peaks - 1)%nat /\
    hrv !! "mean_rr" = Some (np_mean rr) /\
    hrv !! "std_rr" = Some (np_std rr) /\
    hrv !! "rmssd" =
      Some (xsqrt (np_mean (map (fun d => xmul d d) (np_diff xsub rr)))) /\
    hrv !! "sdsd" = Some (np_std (np_diff xsub rr)) /\
    hrv !! "nn50" = Some (Fin (INR (nn50_count rr))) /\
    hrv !! "pnn50" =
      Some (xmul (xdiv (Fin (INR (nn50_count rr))) (Fin (INR (length rr)))) (Fin 100)).
Proof.
  unfold compute_hrv_metrics.
  set (rr := rr_milliseconds r_peaks fs).
  assert (Hlen : length rr = (length r_peaks - 1)%nat).
  { unfold rr. now rewrite rr_milliseconds_length, np_diff_length. }
  destruct (10 <? length rr)%nat eqn:Hn.
  - apply Nat.ltb_lt in Hn.
    destruct (welch rr (xdiv (Fin 1000) (np_mean rr)) (Nat.min 256 (length rr)))
      as [freqs psd].
    eexists. split; [reflexivity|]. cbv zeta.
    repeat split; intros; try lia; try (eexists; by simplify_map_eq);
      by simplify_map_eq.
  - apply Nat.ltb_ge in Hn.
    eexists. split; [reflexivity|]. cbv zeta.
    repeat split; intros; try lia; try by simplify_map_eq.
    all: match goal with H : is_Some _ |- _ => destruct H as [v Hv]; by simplify_map_eq end.
Qed.
(** C3: [compute_hrv_metrics] never raises; its result has the keys
    [lf_power], [hf_power] and [lf_hf_ratio] exactly when there are at least
    11 inter-beat intervals, and in both cases it has the six time-domain
    metrics, computed from the intervals in milliseconds. *)
Theorem frequency_keys_iff_eleven_intervals (r_peaks : list Z) (fs : R) :
  exists hrv,
    compute_hrv_metrics r_peaks fs = Returns hrv /\
    let rr := rr_milliseconds r_peaks fs in
    (is_Some (hrv !! "lf_power") <-> (11 <= length rr)%nat) /\
    (is_Some (hrv !! "hf_power") <-> (11 <= length rr)%nat) /\
    (is_Some (hrv !! "lf_hf_ratio") <-> (11 <= length rr)%nat) /\
    length rr = (length r_peaks - 1)%nat /\
    hrv !! "mean_rr" = Some (np_mean rr) /\
    hrv !! "std_rr" = Some (np_std rr) /\
    hrv !! "rmssd" =
      Some (xsqrt (np_mean (map (fun d => xmul d d) (np_diff xsub rr)))) /\
    hrv !! "sdsd" = Some (np_std (np_diff xsub rr)) /\
    hrv !! "nn50" = Some (Fin (INR (nn50_count rr))) /\
    hrv !! "pnn50" =
      Some (xmul (xdiv (Fin (INR (nn50_count rr))) (Fin (INR (length rr)))) (Fin 100)).
Proof. apply compute_hrv_metrics_keys. Qed.

(** ** Perfectly regular intervals *)

Lemma fold_xadd_repeat (v a : R) (n : nat) :
  fold_left xadd (repeat (Fin v) n) (Fin a) = Fin (a + INR n * v).
Proof.
  revert a. induction n as [|n IH]; intros a.
  - simpl. f_equal. ring.
  - cbn [repeat fold_left xadd]. rewrite IH, S_INR. f_equal. ring.
Qed.

Lemma np_mean_repeat (v : R) (n : nat) :
  np_mean (repeat (Fin v) (S n)) = Fin v.
Proof.
  unfold np_mean, np_sum. rewrite fold_xadd_repeat, repeat_length.
  assert (H : INR (S n) <> 0) by (apply not_0_INR; lia).
  cbn [xdiv]. apply Reqb_false in H. rewrite H.
  apply Reqb_false in H. f_equal. field. exact H.
Qed.

Lemma np_std_repeat (v : R) (n : nat) :
  np_std (repeat (Fin v) (S n)) = Fin 0.
Proof.
  unfold np_std. rewrite np_mean_repeat, map_repeat.
  cbn [xsub xneg xadd xmul].
  replace ((v + - v) * (v + - v)) with 0 by ring.
  rewrite np_mean_repeat. cbn [xsqrt]. rewrite Rltb_irrefl, sqrt_0. reflexivity.
Qed.

Lemma np_diff_cons {A : Type} (sub : A -> A -> A) (x y : A) (l : list A) :
  np_diff sub (x :: y :: l) = sub y x :: np_diff sub (y :: l).
Proof. reflexivity. Qed.

Lemma np_diff_repeat (v : R) (n : nat) :
  np_diff xsub (repeat (Fin v) (S n)) = repeat (Fin 0) n.
Proof.
  induction n as [|n IH]; [reflexivity|].
  change (repeat (Fin v) (S (S n))) with (Fin v :: Fin v :: repeat (Fin v) n).
  rewrite np_diff_cons.
  change (Fin v :: repeat (Fin v) n) with (repeat (Fin v) (S n)).
  rewrite IH. cbn [repeat xsub xneg xadd]. f_equal. f_equal. ring.
Qed.

Lemma filter_repeat_false {A : Type} (p : A -> bool) (x : A) (n : nat) :
  p x = false -> filter p (repeat x n) = [].
Proof. intros H. induction n as [|n IH]; simpl; [|rewrite H]; auto. Qed.

Lemma rr_milliseconds_regular (r_peaks : list Z) (fs : R) (d : Z) (n : nat) :
  fs <> 0 ->
  np_diff Z.sub r_peaks = repeat d n ->
  rr_milliseconds r_peaks fs = repeat (Fin (IZR d / fs * 1000)) n.
Proof.
  intros Hfs Hd. unfold rr_milliseconds, rr_seconds.
  rewrite Hd, !map_repeat. cbn [xdiv xmul].
  apply Reqb_false in Hfs. now rewrite Hfs.
Qed.

(** In exact arithmetic: when all consecutive beat differences are equal
    (and there are at least two intervals), [compute_hrv_metrics] returns 0
    for [std_rr], [rmssd], [sdsd], [nn50] and [pnn50].  The sampling rate
    is non-zero. *)
Lemma regular_intervals_exact
    (r_peaks : list Z) (fs : R) (d : Z) (k : nat) :
  fs <> 0 ->
  np_diff Z.sub r_peaks = repeat d (S (S k)) ->
  exists hrv,
    compute_hrv_metrics r_peaks fs = Returns hrv /\
    hrv !! "std_rr" = Some (Fin 0) /\
    hrv !! "rmssd" = Some (Fin 0) /\
    hrv !! "sdsd" = Some (Fin 0) /\
    hrv !! "nn50" = Some (Fin 0) /\
    hrv !! "pnn50" = Some (Fin 0).
Proof.
  intros Hfs Hd.
  destruct (compute_hrv_metrics_keys r_peaks fs)
    as (hrv & Hrun & _ & _ & _ & _ & _ & Hstd & Hrmssd & Hsdsd & Hnn & Hpnn).
  cbv zeta in *.
  rewrite (rr_milliseconds_regular _ _ _ _ Hfs Hd) in *.
  set (v := IZR d / fs * 1000) in *.
  assert (Hcount : nn50_count (repeat (Fin v) (S (S k))) = 0%nat).
  { unfold nn50_count. rewrite np_diff_repeat, filter_repeat_false; [reflexivity|].
    cbn [xabs xltb]. rewrite Rabs_R0. apply Rltb_false. lra. }
  exists hrv. split; [exact Hrun|].
  rewrite np_std_repeat in Hstd.
  rewrite np_diff_repeat in Hrmssd, Hsdsd.
  rewrite map_repeat in Hrmssd. cbn [xmul] in Hrmssd.
  replace (0 * 0) with 0 in Hrmssd by ring.
  rewrite np_mean_repeat in Hrmssd. cbn [xsqrt] in Hrmssd.
  rewrite Rltb_irrefl, sqrt_0 in Hrmssd.
  rewrite np_std_repeat in Hsdsd.
  rewrite Hcount in Hnn, Hpnn. rewrite repeat_length in Hpnn.
  rewrite xdiv_fin in Hpnn by (apply not_0_INR; lia).
  change (INR 0) with 0 in *. cbn [xmul] in Hpnn.
  replace (0 / INR (S (S k)) * 100) with 0 in Hpnn
    by (field; apply not_0_INR; lia).
  repeat split; assumption.
Qed.

(** *** The float64 of a count *)

Lemma digits2_pos_bounds (p : positive) :
  (2 ^ (Z.pos (SpecFloat.digits2_pos p) - 1) <= Z.pos p < 2 ^ Z.pos (SpecFloat.digits2_pos p))%Z.
Proof.
  induction p as [p IH|p IH|]; cbn [SpecFloat.digits2_pos].
  - rewrite Pos2Z.inj_succ, (Pos2Z.inj_xI p).
    replace (Z.succ (Z.pos (SpecFloat.digits2_pos p)) - 1)%Z
      with (Z.succ (Z.pos (SpecFloat.digits2_pos p) - 1))%Z by lia.
    rewrite !Z.pow_succ_r by lia.
    set (A := (2 ^ (Z.pos (SpecFloat.digits2_pos p) - 1))%Z) in *.
    set (B := (2 ^ Z.pos (SpecFloat.digits2_pos p))%Z) in *. clearbody A B.
    destruct IH as [IH1 IH2]. split; lia.
  - rewrite Pos2Z.inj_succ, (Pos2Z.inj_xO p).
    replace (Z.succ (Z.pos (SpecFloat.digits2_pos p)) - 1)%Z
      with (Z.succ (Z.pos (SpecFloat.digits2_pos p) - 1))%Z by lia.
    rewrite !Z.pow_succ_r by lia.
    set (A := (2 ^ (Z.pos (SpecFloat.digits2_pos p) - 1))%Z) in *.
    set (B := (2 ^ Z.pos (SpecFloat.digits2_pos p))%Z) in *. clearbody A B.
    destruct IH as [IH1 IH2]. split; lia.
  - cbn. lia.
Qed.

Lemma digits2_pos_shift (p k : positive) :
  SpecFloat.digits2_pos (Pos.iter xO p k) = (SpecFloat.digits2_pos p + k)%positive.
Proof.
  induction k as [|k IH] using Pos.peano_ind.
  - cbn [Pos.iter SpecFloat.digits2_pos]. lia.
  - rewrite Pos.iter_succ. cbn [SpecFloat.digits2_pos]. rewrite IH. lia.
Qed.

(** A mantissa of 53 digits with an exponent in range is kept as it
    is. *)
Lemma binary_round_aux_exact (m : positive) (e : Z) :
  SpecFloat.digits2_pos m = 53%positive -> (-1074 <= e <= 971)%Z ->
  SpecFloat.binary_round_aux FloatOps.prec FloatOps.emax false (Z.pos m) e
                             SpecFloat.loc_Exact =
  SpecFloat.S754_finite false m e.
Proof.
  intros Hm He.
  assert (Hshift : (SpecFloat.fexp FloatOps.prec FloatOps.emax
                      (SpecFloat.Zdigits2 (Z.pos m) + e) - e = 0)%Z).
  { cbn [SpecFloat.Zdigits2]. rewrite Hm. unfold SpecFloat.fexp, SpecFloat.emin.
    change FloatOps.prec with 53%Z. change FloatOps.emax with 1024%Z. lia. }
  unfold SpecFloat.binary_round_aux, SpecFloat.shr_fexp.
  rewrite Hshift. cbn [SpecFloat.shr SpecFloat.shr_record_of_loc SpecFloat.shr_m
                       SpecFloat.loc_of_shr_record SpecFloat.round_nearest_even].
  rewrite Hshift. cbn [SpecFloat.shr SpecFloat.shr_record_of_loc SpecFloat.shr_m].
  change (FloatOps.emax - FloatOps.prec)%Z with 971%Z.
  now replace (e <=? 971)%Z with true by (symmetry; apply Z.leb_le; lia).
Qed.

Lemma binary_normalize_count (p : positive) :
  (Z.pos p < 2 ^ 53)%Z ->
  exists m e,
    SpecFloat.binary_normalize FloatOps.prec FloatOps.emax (Z.pos p) 0 false =
      SpecFloat.S754_finite false m e /\
    SpecFloat.valid_binary FloatOps.prec FloatOps.emax (SpecFloat.S754_finite false m e) = true.
Proof.
  intros Hp. pose proof (digits2_pos_bounds p) as (Hlo & _).
  assert (Hd : (Z.pos (SpecFloat.digits2_pos p) <= 53)%Z).
  { apply Z.nlt_ge. intros Hgt.
    assert (2 ^ 53 <= 2 ^ (Z.pos (SpecFloat.digits2_pos p) - 1))%Z
      by (apply Z.pow_le_mono_r; lia).
    lia. }
  cbn [SpecFloat.binary_normalize]. unfold SpecFloat.binary_round.
  set (d := SpecFloat.digits2_pos p) in *.
  assert (Hf : SpecFloat.fexp FloatOps.prec FloatOps.emax (Z.pos d + 0) = (Z.pos d - 53)%Z).
  { unfold SpecFloat.fexp, SpecFloat.emin.
    change FloatOps.prec with 53%Z. change FloatOps.emax with 1024%Z. lia. }
  rewrite Hf. unfold SpecFloat.shl_align.
  assert (Hvalid : forall m e, SpecFloat.digits2_pos m = 53%positive ->
            (-1074 <= e <= 971)%Z ->
            SpecFloat.valid_binary FloatOps.prec FloatOps.emax
              (SpecFloat.S754_finite false m e) = true).
  { intros m e Hm He. cbn [SpecFloat.valid_binary].
    unfold SpecFloat.bounded, SpecFloat.canonical_mantissa, SpecFloat.fexp, SpecFloat.emin.
    rewrite Hm. change FloatOps.prec with 53%Z. change FloatOps.emax with 1024%Z.
    apply andb_true_iff. split; [apply Z.eqb_eq | apply Z.leb_le]; lia. }
  destruct (Z.pos d - 53 - 0)%Z as [|k|k] eqn:Ek; try lia.
  - exists p, 0%Z. assert (Hm : d = 53%positive) by lia.
    split; [apply binary_round_aux_exact | apply Hvalid]; auto; lia.
  - exists (Pos.iter xO p k), (Z.pos d - 53)%Z.
    assert (Hm : SpecFloat.digits2_pos (Pos.iter xO p k) = 53%positive)
      by (rewrite digits2_pos_shift; fold d; lia).
    split; [apply binary_round_aux_exact | apply Hvalid]; auto; lia.
Qed.

(** The float64 of a count below [2^53] is a positive number. *)
Lemma float64_of_count (n : Z) :
  (0 < n < 2 ^ 53)%Z ->
  exists m e, FloatOps.Prim2SF (float64_of_Z n) = SpecFloat.S754_finite false m e.
Proof.
  intros Hn. destruct n as [|p|p]; try lia.
  destruct (binary_normalize_count p ltac:(lia)) as (m & e & Hm & Hvalid).
  exists m, e. unfold float64_of_Z, float64_of_parts. rewrite Hm.
  now apply FloatAxioms.Prim2SF_SF2Prim.
Qed.

(** *** Equal intervals in float64 *)

Local Abbreviation zero64 := (float64_of_Z 0).

Lemma float64_zero_spec : FloatOps.Prim2SF zero64 = SpecFloat.S754_zero false.
Proof. reflexivity. Qed.

(** A number minus itself is +0. *)
Lemma float64_sub_diag (v : PrimFloat.float) :
  float64_finite v -> PrimFloat.sub v v = zero64.
Proof.
  unfold float64_finite. intros Hv. apply FloatAxioms.Prim2SF_inj.
  rewrite FloatAxioms.sub_spec, float64_zero_spec.
  destruct (FloatOps.Prim2SF v) as [s|s| |s m e]; try contradiction.
  - now destruct s.
  - unfold FloatAxioms.SF64sub, SpecFloat.SFsub. cbv zeta.
    now rewrite Z.sub_diag.
Qed.

(** [+0] divided by a positive count is [+0]. *)
Lemma float64_zero_over_count (n : Z) :
  (0 < n < 2 ^ 53)%Z -> PrimFloat.div zero64 (float64_of_Z n) = zero64.
Proof.
  intros Hn. destruct (float64_of_count n Hn) as (m & e & Hc).
  apply FloatAxioms.Prim2SF_inj.
  now rewrite FloatAxioms.div_spec, Hc, float64_zero_spec.
Qed.

Lemma np_diff_repeat_sub {A : Type} (sub : A -> A -> A) (v : A) (n : nat) :
  np_diff sub (repeat v (S n)) = repeat (sub v v) n.
Proof.
  induction n as [|n IH]; [reflexivity|].
  change (repeat v (S (S n))) with (v :: v :: repeat v n).
  rewrite np_diff_cons.
  change (v :: repeat v n) with (repeat v (S n)).
  now rewrite IH.
Qed.

Lemma sum_onto_zeros (a : list PrimFloat.float) :
  all_zero64 a -> sum_onto zero64 a = zero64.
Proof.
  unfold sum_onto. induction 1 as [|x a -> _ IH]; [reflexivity|].
  cbn [fold_left]. exact IH.
Qed.

Lemma add_blocks_zeros (blocks : nat) (r a : list PrimFloat.float) :
  all_zero64 r -> all_zero64 a ->
  all_zero64 (fst (add_blocks blocks r a)) /\ all_zero64 (snd (add_blocks blocks r a)).
Proof.
  revert r a. induction blocks as [|blocks IH]; intros r a Hr Ha; [now split|].
  cbn [add_blocks]. apply IH.
  - clear IH. unfold all_zero64 in *. revert Hr. generalize (firstn 8 a) (Forall_take _ 8%nat a Ha).
    intros l Hl Hr. revert l Hl.
    induction Hr as [|x r -> _ IHr]; intros l Hl; [constructor|].
    destruct Hl as [|y l -> Hl]; [constructor|].
    cbn [zip_with]. constructor; [reflexivity | now apply IHr].
  - now apply Forall_drop.
Qed.

Lemma nth_zeros (i : nat) (r : list PrimFloat.float) :
  all_zero64 r -> nth i r zero64 = zero64.
Proof.
  intros Hr. revert i. induction Hr as [|x r -> _ IH]; intros [|i]; cbn [nth]; auto.
Qed.

Lemma unrolled_sum_zeros (a : list PrimFloat.float) :
  all_zero64 a -> unrolled_sum a = zero64.
Proof.
  intros Ha. unfold unrolled_sum.
  destruct (add_blocks_zeros ((length a - length a mod 8) / 8 - 1)
              (firstn 8 a) (skipn 8 a)) as (Hr & Hrest);
    [now apply Forall_take | now apply Forall_drop |].
  destruct (add_blocks _ _ _) as [r rest]. cbn [fst snd] in Hr, Hrest.
  rewrite !nth_zeros by exact Hr.
  change (PrimFloat.add (PrimFloat.add (PrimFloat.add zero64 zero64)
                                       (PrimFloat.add zero64 zero64))
                        (PrimFloat.add (PrimFloat.add zero64 zero64)
                                       (PrimFloat.add zero64 zero64)))
    with zero64.
  now apply sum_onto_zeros.
Qed.

Lemma pairwise_sum_zeros (fuel : nat) (a : list PrimFloat.float) :
  all_zero64 a -> pairwise_sum fuel a = zero64.
Proof.
  revert a. induction fuel as [|fuel IH]; intros a Ha; cbn [pairwise_sum];
    destruct (length a <? 8)%nat; try (now apply sum_onto_zeros);
    destruct (length a <=? 128)%nat; try (now apply unrolled_sum_zeros).
  rewrite !IH by (try apply Forall_take; try apply Forall_drop; exact Ha).
  reflexivity.
Qed.

Lemma np_sum_float64_zeros (a : list PrimFloat.float) :
  all_zero64 a -> np_sum_float64 a = zero64.
Proof.
  intros Ha. unfold np_sum_float64. now rewrite pairwise_sum_zeros.
Qed.

Lemma all_zero64_repeat (n : nat) : all_zero64 (repeat zero64 n).
Proof. apply Forall_forall. intros x Hx. now apply repeat_spec in Hx. Qed.

Lemma np_mean_float64_zeros (n : nat) :
  (0 < Z.of_nat n < 2 ^ 53)%Z -> np_mean_float64 (repeat zero64 n) = zero64.
Proof.
  intros Hn. unfold np_mean_float64.
  rewrite np_sum_float64_zeros by apply all_zero64_repeat.
  rewrite repeat_length. now apply float64_zero_over_count.
Qed.

Lemma np_std_float64_zeros (n : nat) :
  (0 < Z.of_nat n < 2 ^ 53)%Z -> np_std_float64 (repeat zero64 n) = zero64.
Proof.
  intros Hn. unfold np_std_float64. rewrite np_mean_float64_zeros by exact Hn.
  rewrite !map_repeat.
  change (PrimFloat.sub zero64 zero64) with zero64.
  change (PrimFloat.mul zero64 zero64) with zero64.
  rewrite np_sum_float64_zeros by apply all_zero64_repeat.
  rewrite repeat_length, float64_zero_over_count by exact Hn. reflexivity.
Qed.

(** The four metrics of successive differences, for equal intervals that
    are numbers. *)
Lemma regular_intervals_float64 (r_peaks : list Z) (fs : PrimFloat.float)
    (d : Z) (k : nat) :
  np_diff Z.sub r_peaks = repeat d (S (S k)) ->
  (Z.of_nat (S (S k)) < 2 ^ 53)%Z ->
  float64_finite (PrimFloat.mul (PrimFloat.div (float64_of_Z d) fs) (float64_of_Z 1000)) ->
  rmssd_float64 r_peaks fs = float64_of_Z 0 /\
  sdsd_float64 r_peaks fs = float64_of_Z 0 /\
  nn50_float64 r_peaks fs = 0%nat /\
  pnn50_float64 r_peaks fs = float64_of_Z 0.
Proof.
  intros Hd Hk Hv.
  set (v := PrimFloat.mul (PrimFloat.div (float64_of_Z d) fs) (float64_of_Z 1000)) in *.
  assert (Hrr : rr_milliseconds_float64 r_peaks fs = repeat v (S (S k))).
  { unfold rr_milliseconds_float64. now rewrite Hd, map_repeat. }
  assert (Hdiff : np_diff PrimFloat.sub (rr_milliseconds_float64 r_peaks fs) =
                  repeat zero64 (S k)).
  { now rewrite Hrr, np_diff_repeat_sub, float64_sub_diag. }
  assert (Hnn : nn50_float64 r_peaks fs = 0%nat).
  { unfold nn50_float64. rewrite Hdiff, filter_repeat_false; reflexivity. }
  unfold rmssd_float64, sdsd_float64, pnn50_float64. rewrite Hnn, Hdiff, Hrr.
  rewrite map_repeat. change (PrimFloat.mul zero64 zero64) with zero64.
  rewrite np_mean_float64_zeros, np_std_float64_zeros by lia.
  rewrite repeat_length. change (Z.of_nat 0) with 0%Z.
  rewrite float64_zero_over_count by lia.
  repeat split; reflexivity.
Qed.

(** C4 (without [std_rr]): when all consecutive beat differences are equal
    (and there are at least two intervals), [compute_hrv_metrics] returns 0
    for [rmssd], [sdsd], [nn50] and [pnn50].  These four metrics are taken
    over the successive differences of the intervals, and the intervals are
    one and the same number, in float64 as well: in float64 their
    differences are [+0.0] and the four metrics are [0], provided the
    interval does not overflow, which it does not at a sampling rate of at
    least 1 Hz.  Nothing is stated for [std_rr]: that it is 0 needs the
    mean of the intervals to be exact ([regular_intervals_exact]). *)
Theorem regular_intervals_zero_variability
    (r_peaks : list Z) (fs : R) (d : Z) (k : nat) :
  1 <= fs ->
  np_diff Z.sub r_peaks = repeat d (S (S k)) ->
  (exists hrv,
     compute_hrv_metrics r_peaks fs = Returns hrv /\
     hrv !! "rmssd" = Some (Fin 0) /\
     hrv !! "sdsd" = Some (Fin 0) /\
     hrv !! "nn50" = Some (Fin 0) /\
     hrv !! "pnn50" = Some (Fin 0)) /\
  (forall fs64 : PrimFloat.float,
     (Z.of_nat (S (S k)) < 2 ^ 53)%Z ->
     float64_finite (PrimFloat.mul (PrimFloat.div (float64_of_Z d) fs64)
                                   (float64_of_Z 1000)) ->
     rmssd_float64 r_peaks fs64 = float64_of_Z 0 /\
     sdsd_float64 r_peaks fs64 = float64_of_Z 0 /\
     nn50_float64 r_peaks fs64 = 0%nat /\
     pnn50_float64 r_peaks fs64 = float64_of_Z 0).
Proof.
  intros Hfs Hd. split.
  - destruct (regular_intervals_exact r_peaks fs d k ltac:(lra) Hd)
      as (hrv & Hrun & _ & Hrmssd & Hsdsd & Hnn & Hpnn).
    exists hrv. repeat split; assumption.
  - intros fs64 Hk Hv. now apply (regular_intervals_float64 r_peaks fs64 d k).
Qed.

Lemma regular_intervals_zero_variability_witness :
  1 <= 360 /\
  np_diff Z.sub [0; 300; 600; 900]%Z = repeat 300%Z 3 /\
  (exists hrv,
     compute_hrv_metrics [0; 300; 600; 900]%Z 360 = Returns hrv /\
     hrv !! "rmssd" = Some (Fin 0) /\
     hrv !! "sdsd" = Some (Fin 0) /\
     hrv !! "nn50" = Some (Fin 0) /\
     hrv !! "pnn50" = Some (Fin 0)) /\
  (rmssd_float64 [0; 300; 600; 900]%Z (float64_of_Z 360) = float64_of_Z 0 /\
   sdsd_float64 [0; 300; 600; 900]%Z (float64_of_Z 360) = float64_of_Z 0 /\
   nn50_float64 [0; 300; 600; 900]%Z (float64_of_Z 360) = 0%nat /\
   pnn50_float64 [0; 300; 600; 900]%Z (float64_of_Z 360) = float64_of_Z 0).
Proof.
  split; [lra|]. split; [reflexivity|].
  destruct (regular_intervals_zero_variability [0; 300; 600; 900]%Z 360 300%Z 1%nat)
    as (Hexact & Hfloat); [lra | reflexivity |].
  split; [exact Hexact|].
  apply (Hfloat (float64_of_Z 360)); [vm_compute; reflexivity | vm_compute; exact I].
Defined.

(** C4 (as stated) fails for [std_rr] in float64.  The beats 0, 256, 512
    and 768 at 360 Hz are 256 samples apart; the three intervals are the
    same float64, 711.11111111111109, their rounded sum divided by 3 is
    711.11111111111097, and [np.std] returns the distance between the two,
    [2^-43] (about 1.137e-13), not 0. *)
Lemma regular_intervals_std_rr_in_float64 :
  np_diff Z.sub [0; 256; 512; 768]%Z = repeat 256%Z 3 /\
  FloatOps.Prim2SF (std_rr_float64 [0; 256; 512; 768]%Z (float64_of_Z 360)) =
    SpecFloat.S754_finite false 4503599627370496 (-95) /\
  PrimFloat.eqb (std_rr_float64 [0; 256; 512; 768]%Z (float64_of_Z 360))
                (float64_of_Z 0) = false.
Proof. repeat split; vm_compute; reflexivity. Qed.


(** ** Ranges of [pnn50] and [lf_hf_ratio] *)

Lemma compute_hrv_metrics_frequency (r_peaks : list Z) (fs : R) :
  let rr := rr_milliseconds r_peaks fs in
  (11 <= length rr)%nat ->
  exists hrv freqs psd,
    compute_hrv_metrics r_peaks fs = Returns hrv /\
    welch rr (xdiv (Fin 1000) (np_mean rr)) (Nat.min 256 (length rr)) = (freqs, psd) /\
    hrv !! "lf_power" = Some (band_power (4 / 100) (15 / 100) freqs psd) /\
    hrv !! "hf_power" = Some (band_power (15 / 100) (4 / 10) freqs psd) /\
    hrv !! "lf_hf_ratio" =
      Some (if xltb (Fin 0) (band_power (15 / 100) (4 / 10) freqs psd)
            then xdiv (band_power (4 / 100) (15 / 100) freqs psd)
                      (band_power (15 / 100) (4 / 10) freqs psd)
            else Fin 0).
Proof.
  intros rr Hn. unfold compute_hrv_metrics. fold rr.
  assert (H : (10 <? length rr)%nat = true) by (apply Nat.ltb_lt; lia).
  rewrite H.
  destruct (welch rr (xdiv (Fin 1000) (np_mean rr)) (Nat.min 256 (length rr)))
    as [freqs psd].
  eexists. exists freqs, psd. split; [reflexivity|]. split; [reflexivity|].
  repeat split; by simplify_map_eq.
Qed.

Lemma nonneg_finite (x : xreal) : nonneg x -> finite x.
Proof. intros (r & -> & _). now exists r. Qed.

Lemma Forall_finite_map (l : list xreal) :
  Forall finite l -> exists rs, l = map Fin rs.
Proof.
  induction 1 as [|x l [r ->] _ [rs ->]].
  - now exists [].
  - now exists (r :: rs).
Qed.

Lemma Forall_nonneg_map (l : list xreal) :
  Forall nonneg l -> exists rs, l = map Fin rs /\ Forall (Rle 0) rs.
Proof.
  induction 1 as [|x l (r & -> & Hr) _ (rs & -> & Hrs)].
  - exists []. split; [reflexivity | constructor].
  - exists (r :: rs). split; [reflexivity | now constructor].
Qed.

Lemma fold_xadd_map_Fin (rs : list R) (a : R) :
  fold_left xadd (map Fin rs) (Fin a) = Fin (fold_left Rplus rs a).
Proof. revert a. induction rs as [|r rs IH]; intros a; simpl; auto. Qed.

Lemma np_sum_map_Fin (rs : list R) :
  np_sum (map Fin rs) = Fin (fold_left Rplus rs 0).
Proof. apply fold_xadd_map_Fin. Qed.

Lemma fold_Rplus_nonneg (rs : list R) (a : R) :
  0 <= a -> Forall (Rle 0) rs -> 0 <= fold_left Rplus rs a.
Proof.
  intros Ha H. revert a Ha. induction H as [|r rs Hr _ IH]; intros a Ha; simpl.
  - exact Ha.
  - apply IH. lra.
Qed.

Lemma np_sum_finite (l : list xreal) : Forall finite l -> finite (np_sum l).
Proof.
  intros H. destruct (Forall_finite_map l H) as [rs ->].
  rewrite np_sum_map_Fin. now eexists.
Qed.

Lemma np_sum_nonneg (l : list xreal) : Forall nonneg l -> nonneg (np_sum l).
Proof.
  intros H. destruct (Forall_nonneg_map l H) as (rs & -> & Hrs).
  rewrite np_sum_map_Fin. eexists. split; [reflexivity|].
  apply fold_Rplus_nonneg; [lra | exact Hrs].
Qed.

(** A finite sum has finite summands: an infinity or a NaN is absorbing. *)
Lemma fold_xadd_Fin_inv (l : list xreal) (a : xreal) (s : R) :
  fold_left xadd l a = Fin s -> finite a /\ Forall finite l.
Proof.
  revert a. induction l as [|x l IH]; intros a H; simpl in H.
  - split; [now exists s | constructor].
  - destruct (IH _ H) as [[r Hr] Hl].
    destruct a as [u| | |], x as [v| | |]; simpl in Hr; try discriminate.
    split; [now exists u|]. constructor; [now exists v | exact Hl].
Qed.

Lemma np_sum_Fin_inv (l : list xreal) (s : R) :
  np_sum l = Fin s -> Forall finite l.
Proof. intros H. now apply fold_xadd_Fin_inv in H. Qed.

Lemma np_mean_Fin_inv (l : list xreal) (m : R) :
  np_mean l = Fin m -> Forall finite l.
Proof.
  unfold np_mean. intros H.
  destruct (np_sum l) as [s| | |] eqn:Hs; simpl in H; try discriminate.
  - now apply np_sum_Fin_inv in Hs.
  - destruct (Rltb (INR (length l)) 0); discriminate.
  - destruct (Rltb (INR (length l)) 0); discriminate.
Qed.

Lemma fold_Rplus_ge (rs : list R) (a x : R) :
  Forall (Rle 0) rs -> In x rs -> a + x <= fold_left Rplus rs a.
Proof.
  intros H. revert a. induction H as [|r rs Hr Hrs IH]; intros a Hin; simpl.
  - destruct Hin.
  - destruct Hin as [-> | Hin].
    + apply fold_Rplus_nonneg with (a := 0) in Hrs; [|lra].
      assert (E : forall l b c, fold_left Rplus l (b + c) = fold_left Rplus l b + c).
      { clear. induction l as [|y l IHl]; intros b c; simpl; [reflexivity|].
        replace (b + c + y) with (b + y + c) by ring. apply IHl. }
      replace (a + x) with (0 + (a + x)) at 2 by ring. rewrite E. lra.
    + specialize (IH (a + r) Hin). lra.
Qed.

Lemma hann_sum_squares_pos (N : nat) :
  (2 <= N)%nat -> 0 < fold_left Rplus (map (fun w => w * w) (hann N)) 0.
Proof.
  intros HN. unfold hann.
  destruct (N <=? 1)%nat eqn:E; [apply Nat.leb_le in E; lia|].
  set (f := fun n => 1 / 2 - 1 / 2 * cos (2 * PI * INR n / INR N)).
  assert (HN0 : 0 < INR N) by (apply lt_0_INR; lia).
  assert (HN2 : 2 <= INR N) by (change 2 with (INR 2); apply le_INR; lia).
  assert (Hc : cos (2 * PI * INR 1 / INR N) < 1).
  { rewrite <- cos_0. pose proof PI_RGT_0 as Hpi.
    assert (0 < 2 * PI * INR 1 / INR N).
    { simpl. apply Rdiv_lt_0_compat; lra. }
    assert (2 * PI * INR 1 / INR N <= PI).
    { simpl. apply Rmult_le_reg_r with (INR N); [exact HN0|].
      unfold Rdiv. rewrite Rmult_assoc, Rinv_l by lra. nra. }
    apply cos_decreasing_1; lra. }
  assert (Hin : In (f 1%nat * f 1%nat) (map (fun w => w * w) (map f (seq 0 N)))).
  { apply in_map_iff. exists (f 1%nat). split; [reflexivity|].
    apply in_map_iff. exists 1%nat. split; [reflexivity|]. apply in_seq. lia. }
  apply fold_Rplus_ge with (a := 0) in Hin.
  - assert (0 < f 1%nat) by (unfold f; lra). nra.
  - apply Forall_forall. intros y Hy. apply in_map_iff in Hy as (w & <- & _). nra.
Qed.

(** *** Finiteness and sign of the spectral estimate *)

Lemma np_mean_finite (l : list xreal) :
  l <> [] -> Forall finite l -> finite (np_mean l).
Proof.
  intros Hne H. destruct (Forall_finite_map l H) as [rs ->].
  unfold np_mean. rewrite np_sum_map_Fin, xdiv_fin; [now eexists|].
  apply not_0_INR. destruct rs; [contradiction | simpl; lia].
Qed.

Lemma np_mean_nonneg (l : list xreal) :
  l <> [] -> Forall nonneg l -> nonneg (np_mean l).
Proof.
  intros Hne H. destruct (np_sum_nonneg l H) as (s & Hs & Hs0).
  unfold np_mean. rewrite Hs.
  assert (0 < INR (length l)).
  { apply lt_0_INR. destruct l; [contradiction | simpl; lia]. }
  rewrite xdiv_fin by lra. eexists. split; [reflexivity|].
  unfold Rdiv. apply Rmult_le_pos; [lra|].
  apply Rlt_le, Rinv_0_lt_compat. lra.
Qed.

Lemma detrend_constant_finite (seg : list xreal) :
  Forall finite seg -> Forall finite (detrend_constant seg).
Proof.
  intros H. unfold detrend_constant. destruct seg as [|x seg]; [constructor|].
  destruct (np_mean_finite (x :: seg)) as [m Hm]; [discriminate | exact H |].
  rewrite Hm. apply Forall_map. eapply List.Forall_impl; [|exact H].
  intros y [r ->]. now eexists.
Qed.

Lemma rfft_power_nonneg (v : list xreal) (k : nat) :
  Forall finite v -> nonneg (rfft_power v k).
Proof.
  intros H. unfold rfft_power.
  set (N := length v).
  assert (Hsum : forall c : nat -> R,
            finite (np_sum (map (fun nv => xmul (snd nv) (Fin (c (fst nv))))
                                (combine (seq 0 N) v)))).
  { intros c. apply np_sum_finite. apply Forall_map.
    apply Forall_forall. intros [n x] Hin. apply in_combine_r in Hin.
    rewrite Forall_forall in H. destruct (H x Hin) as [r ->]. now eexists. }
  destruct (Hsum (fun n => cos (2 * PI * INR k * INR n / INR N))) as [re ->].
  destruct (Hsum (fun n => - sin (2 * PI * INR k * INR n / INR N))) as [im ->].
  simpl. eexists. split; [reflexivity|]. nra.
Qed.

Lemma onesided_factor_pos (nfft k : nat) : 0 < onesided_factor nfft k.
Proof.
  unfold onesided_factor.
  destruct (k =? 0)%nat; [lra|].
  destruct (Nat.even nfft && (k =? nfft / 2)%nat); lra.
Qed.

Lemma segment_psd_nonneg (seg : list xreal) (win : list R) (s : R) (nfft : nat) :
  Forall finite seg -> 0 <= s ->
  Forall nonneg (segment_psd seg win (Fin s) nfft) /\
  length (segment_psd seg win (Fin s) nfft) = (nfft / 2 + 1)%nat.
Proof.
  intros H Hs. unfold segment_psd. split.
  - apply Forall_map. apply Forall_forall. intros k _.
    match goal with |- nonneg (xmul (xmul (rfft_power ?v k) _) _) =>
      destruct (rfft_power_nonneg v k) as (p & -> & Hp) end.
    + apply Forall_map. apply Forall_forall. intros [x w] Hin.
      apply in_combine_l in Hin.
      pose proof (detrend_constant_finite seg H) as Hd.
      rewrite Forall_forall in Hd. destruct (Hd x Hin) as [r ->].
      simpl. now eexists.
    + simpl. eexists. split; [reflexivity|].
      pose proof (onesided_factor_pos nfft k).
      apply Rmult_le_pos; [apply Rmult_le_pos|]; lra.
  - now rewrite length_map, length_seq.
Qed.

Lemma mean_over_segments_nonneg (ps : list (list xreal)) (nbins : nat) :
  ps <> [] ->
  Forall (fun p => Forall nonneg p /\ length p = nbins) ps ->
  Forall nonneg (mean_over_segments ps nbins) /\
  length (mean_over_segments ps nbins) = nbins.
Proof.
  intros Hne H.
  assert (G : Forall nonneg
                (map (fun k => np_mean (map (fun p => nth k p NaN) ps)) (seq 0 nbins)) /\
              length (map (fun k => np_mean (map (fun p => nth k p NaN) ps))
                          (seq 0 nbins)) = nbins).
  { split; [|now rewrite length_map, length_seq].
    apply Forall_map. apply Forall_forall. intros k Hk. apply in_seq in Hk.
    apply np_mean_nonneg.
    - destruct ps; [contradiction | discriminate].
    - apply Forall_map. eapply List.Forall_impl; [|exact H].
      intros p [Hp Hlen]. simpl. rewrite Forall_forall in Hp.
      apply Hp. apply nth_In. lia. }
  unfold mean_over_segments.
  destruct ps as [|p [|q ps]]; [contradiction | | exact G].
  inversion H as [|? ? [Hp Hl] _]; subst. now split.
Qed.

Lemma segments_finite (x : list xreal) (nperseg step : nat) :
  Forall finite x ->
  segments x nperseg step <> [] /\
  Forall (Forall finite) (segments x nperseg step).
Proof.
  intros H. unfold segments. split.
  - rewrite Nat.add_1_r. simpl. discriminate.
  - apply Forall_map. apply Forall_forall. intros i _.
    apply Forall_take, Forall_drop, H.
Qed.

Lemma welch_positive (x : list xreal) (f : R) (N : nat) :
  Forall finite x -> 0 < f -> (2 <= N)%nat ->
  exists v psd,
    welch x (Fin f) N = (map (fun k => Fin (INR k * v)) (seq 0 (N / 2 + 1)), psd) /\
    0 < v /\ Forall nonneg psd /\ length psd = (N / 2 + 1)%nat.
Proof.
  intros Hx Hf HN. unfold welch.
  pose proof (hann_sum_squares_pos N HN) as Hss.
  set (ss := fold_left Rplus (map (fun w => w * w) (hann N)) 0) in *.
  assert (HN0 : 0 < INR N) by (apply lt_0_INR; lia).
  assert (Hinv : 0 < 1 / f) by (apply Rdiv_lt_0_compat; lra).
  assert (Hd : 0 < INR N * (1 / f)) by (apply Rmult_lt_0_compat; lra).
  exists (1 / (INR N * (1 / f))). eexists. split; [|split; [|]].
  - f_equal. unfold rfftfreq.
    rewrite (xdiv_fin 1 f) by lra. cbn [xmul].
    rewrite xdiv_fin by lra. reflexivity.
  - apply Rdiv_lt_0_compat; lra.
  - cbn [xmul]. rewrite xdiv_fin by (apply Rgt_not_eq, Rmult_lt_0_compat; lra).
    destruct (segments_finite x N (N - N / 2) Hx) as [Hne Hsegs].
    apply mean_over_segments_nonneg.
    + destruct (segments x N (N - N / 2)); [contradiction | discriminate].
    + apply Forall_map. eapply List.Forall_impl; [|exact Hsegs].
      intros seg Hseg. apply segment_psd_nonneg; [exact Hseg|].
      apply Rlt_le, Rdiv_lt_0_compat; [lra | apply Rmult_lt_0_compat; lra].
Qed.

Lemma sorted_multiples (v : R) (a n : nat) :
  0 < v -> StronglySorted Rle (map (fun k => INR k * v) (seq a n)).
Proof.
  intros Hv. revert a. induction n as [|n IH]; intros a; simpl; constructor.
  - apply IH.
  - apply Forall_map. apply Forall_forall. intros k Hk. apply in_seq in Hk.
    apply Rmult_le_compat_r; [lra|]. apply le_INR. lia.
Qed.

Lemma select_band_nonneg (lo hi : R) (freqs a : list xreal) :
  Forall nonneg a -> Forall nonneg (select_band lo hi freqs a).
Proof.
  intros H. revert freqs. induction H as [|v a Hv _ IH]; intros [|f freqs]; simpl;
    try constructor.
  destruct (in_band lo hi f); [constructor; [exact Hv | apply IH] | apply IH].
Qed.

Lemma select_band_sorted (lo hi : R) (xs : list R) :
  StronglySorted Rle xs ->
  exists xs', select_band lo hi (map Fin xs) (map Fin xs) = map Fin xs' /\
              StronglySorted Rle xs' /\ (forall y, In y xs' -> In y xs).
Proof.
  induction 1 as [|x xs Hs (xs' & E & Hs' & Hin) Hall]; simpl.
  - exists []. repeat split; [constructor | auto].
  - destruct (in_band lo hi (Fin x)).
    + exists (x :: xs'). rewrite E. repeat split.
      * constructor; [exact Hs'|]. apply Forall_forall. intros y Hy.
        rewrite Forall_forall in Hall. apply Hall, Hin, Hy.
      * intros y [-> | Hy]; [now left | right; now apply Hin].
    + exists xs'. repeat split; [exact E | exact Hs' |].
      intros y Hy. right. now apply Hin.
Qed.

Lemma trapz_terms_nonneg (ys xs : list R) :
  Forall (Rle 0) ys -> StronglySorted Rle xs ->
  Forall nonneg (trapz_terms (map Fin ys) (map Fin xs)).
Proof.
  intros Hy. revert xs. induction Hy as [|y0 ys Hy0 Hys IH]; intros xs Hxs.
  - constructor.
  - destruct ys as [|y1 ys]; [constructor|].
    destruct xs as [|x0 [|x1 xs]]; try constructor.
    + cbn [xsub xneg xadd xmul]. rewrite xdiv_fin by lra.
      eexists. split; [reflexivity|].
      inversion Hxs as [|? ? _ Hall]; subst. inversion Hall; subst.
      inversion Hys; subst.
      apply Rmult_le_pos; [apply Rmult_le_pos|]; lra.
    + apply (IH (x1 :: xs)). now inversion Hxs.
Qed.

Lemma band_power_nonneg (lo hi v : R) (n : nat) (psd : list xreal) :
  0 < v -> Forall nonneg psd ->
  nonneg (band_power lo hi (map (fun k => Fin (INR k * v)) (seq 0 n)) psd).
Proof.
  intros Hv Hpsd. unfold band_power, np_trapz.
  rewrite <- (map_map (fun k => INR k * v) Fin).
  destruct (select_band_sorted lo hi _ (sorted_multiples v 0 n Hv))
    as (xs' & -> & Hs' & _).
  destruct (Forall_nonneg_map _ (select_band_nonneg lo hi
              (map Fin (map (fun k => INR k * v) (seq 0 n))) psd Hpsd))
    as (ys & -> & Hys).
  apply np_sum_nonneg, trapz_terms_nonneg; assumption.
Qed.

(** Unless the spectral sampling rate is a positive real, no frequency
    bin lies in a band that starts above 0. *)
Lemma rfftfreq_out_of_band (N : nat) (fsw : xreal) (lo hi : R) :
  0 < lo -> (forall f, fsw = Fin f -> f <= 0) ->
  Forall (fun x => in_band lo hi x = false) (rfftfreq N (xdiv (Fin 1) fsw)).
Proof.
  intros Hlo Hf. unfold rfftfreq.
  set (val := xdiv (Fin 1) (xmul (Fin (INR N)) (xdiv (Fin 1) fsw))).
  assert (Hval : (exists v, val = Fin v /\ v <= 0) \/ val = PInf \/ val = NaN).
  { unfold val. pose proof (pos_INR N) as HN.
    destruct fsw as [f| | |]; cbn [xdiv].
    - specialize (Hf f eq_refl).
      destruct (Reqb f 0) eqn:E.
      + unfold inf_of_sign. replace (Rltb 0 1) with true
          by (symmetry; apply Rltb_true; lra).
        cbn [xmul]. unfold inf_of_sign.
        destruct (Rltb 0 (INR N)); [left; exists 0; split; [reflexivity | lra]|].
        destruct (Rltb (INR N) 0); [|now right; right].
        left. exists 0. split; [reflexivity | lra].
      + apply Reqb_false in E. cbn [xmul xdiv].
        destruct (Reqb (INR N * (1 / f)) 0) eqn:E2.
        * unfold inf_of_sign. replace (Rltb 0 1) with true
            by (symmetry; apply Rltb_true; lra). now right; left.
        * left. eexists. split; [reflexivity|].
          apply Reqb_false in E2.
          assert (f < 0) by lra.
          assert (1 / f < 0) by (unfold Rdiv; rewrite Rmult_1_l; now apply Rinv_lt_0_compat).
          assert (INR N * (1 / f) < 0) by nra.
          unfold Rdiv. rewrite Rmult_1_l. apply Rlt_le. now apply Rinv_lt_0_compat.
    - cbn [xmul]. rewrite Rmult_0_r. cbn [xdiv]. rewrite Reqb_refl.
      unfold inf_of_sign. replace (Rltb 0 1) with true
        by (symmetry; apply Rltb_true; lra). now right; left.
    - cbn [xmul]. rewrite Rmult_0_r. cbn [xdiv]. rewrite Reqb_refl.
      unfold inf_of_sign. replace (Rltb 0 1) with true
        by (symmetry; apply Rltb_true; lra). now right; left.
    - now right; right. }
  clearbody val. apply Forall_map. apply Forall_forall. intros k _.
  pose proof (pos_INR k) as Hk. unfold in_band.
  destruct Hval as [(v & -> & Hv) | [-> | ->]]; cbn [xmul xleb].
  - replace (Rleb lo (INR k * v)) with false; [reflexivity|].
    symmetry. apply Rleb_false. nra.
  - unfold inf_of_sign. destruct (Rltb 0 (INR k)); [apply andb_false_r|].
    destruct (Rltb (INR k) 0); reflexivity.
  - reflexivity.
Qed.

Lemma select_band_none (lo hi : R) (freqs a : list xreal) :
  Forall (fun x => in_band lo hi x = false) freqs -> select_band lo hi freqs a = [].
Proof.
  intros H. revert a. induction H as [|f freqs Hf _ IH]; intros [|v a]; simpl;
    try reflexivity.
  rewrite Hf. apply IH.
Qed.

Lemma welch_band_powers (x : list xreal) (fsw : xreal) (N : nat)
    (freqs psd : list xreal) (lo hi : R) :
  welch x fsw N = (freqs, psd) -> 0 < lo -> (2 <= N)%nat ->
  (forall f, fsw = Fin f -> 0 < f -> Forall finite x) ->
  nonneg (band_power lo hi freqs psd).
Proof.
  intros Hw Hlo HN Hx.
  assert (Hcase : (exists f, fsw = Fin f /\ 0 < f) \/ (forall f, fsw = Fin f -> f <= 0)).
  { destruct fsw as [f| | |]; try (right; intros; discriminate).
    destruct (Rlt_dec 0 f); [left; now exists f|].
    right. intros g [= <-]. lra. }
  destruct Hcase as [(f & -> & Hf) | Hneg].
  - destruct (welch_positive x f N (Hx f eq_refl Hf) Hf HN)
      as (v & psd' & Hw' & Hv & Hpsd & _).
    rewrite Hw in Hw'. injection Hw' as -> ->.
    now apply band_power_nonneg.
  - assert (Hfreqs : freqs = rfftfreq N (xdiv (Fin 1) fsw)).
    { unfold welch in Hw. now injection Hw as <- _. }
    unfold band_power.
    rewrite !select_band_none
      by (rewrite Hfreqs; now apply rfftfreq_out_of_band).
    exists 0. split; [reflexivity | lra].
Qed.

Lemma nn50_count_le (rr : list xreal) :
  (nn50_count rr <= length rr - 1)%nat.
Proof.
  unfold nn50_count. rewrite <- (np_diff_length xsub rr).
  generalize (np_diff xsub rr). intros l.
  induction l as [|d l IH]; cbn [filter length]; [lia|].
  destruct (xltb (Fin 50) (xabs d)); cbn [length]; lia.
Qed.

Lemma pnn50_and_ratio (r_peaks : list Z) (fs : R) :
  (2 <= length r_peaks)%nat ->
  exists hrv,
    compute_hrv_metrics r_peaks fs = Returns hrv /\
    (exists p, hrv !! "pnn50" = Some (Fin p) /\ 0 <= p <= 100) /\
    (forall ratio, hrv !! "lf_hf_ratio" = Some ratio ->
       (exists q, ratio = Fin q /\ 0 <= q) /\
       (hrv !! "hf_power" = Some (Fin 0) -> ratio = Fin 0)).
Proof.
  intros Hlen.
  destruct (compute_hrv_metrics_keys r_peaks fs)
    as (hrv & Hrun & _ & _ & Hratio & Hn & Hmean & _ & _ & _ & _ & Hpnn).
  cbv zeta in *. set (rr := rr_milliseconds r_peaks fs) in *.
  exists hrv. split; [exact Hrun|]. split.
  - pose proof (nn50_count_le rr) as Hc.
    assert (H0 : 0 < INR (length rr)) by (apply lt_0_INR; lia).
    rewrite xdiv_fin in Hpnn by lra. cbn [xmul] in Hpnn.
    eexists. split; [exact Hpnn|].
    pose proof (pos_INR (nn50_count rr)) as Hc0.
    assert (Hc1 : INR (nn50_count rr) <= INR (length rr)) by (apply le_INR; lia).
    assert (Hq : 0 <= INR (nn50_count rr) / INR (length rr) <= 1).
    { split.
      - unfold Rdiv. apply Rmult_le_pos; [lra|]. apply Rlt_le, Rinv_0_lt_compat, H0.
      - apply Rmult_le_reg_r with (INR (length rr)); [exact H0|].
        unfold Rdiv. rewrite Rmult_assoc, Rinv_l by lra. lra. }
    lra.
  - intros ratio Hr.
    assert (H11 : (11 <= length rr)%nat) by (apply Hratio; now exists ratio).
    destruct (compute_hrv_metrics_frequency r_peaks fs H11)
      as (hrv' & freqs & psd & Hrun' & Hw & _ & Hhf & Hr').
    fold rr in Hw. rewrite Hrun in Hrun'. injection Hrun' as <-.
    rewrite Hr in Hr'. injection Hr' as ->.
    assert (Hfin : forall f, xdiv (Fin 1000) (np_mean rr) = Fin f -> 0 < f ->
                             Forall finite rr).
    { intros f Hf Hpos. destruct (np_mean rr) as [m| | |] eqn:Hm.
      - now apply np_mean_Fin_inv in Hm.
      - cbn in Hf. injection Hf as <-. lra.
      - cbn in Hf. injection Hf as <-. lra.
      - discriminate. }
    assert (HN : (2 <= Nat.min 256 (length rr))%nat) by lia.
    destruct (welch_band_powers _ _ _ _ _ (4 / 100) (15 / 100) Hw ltac:(lra) HN Hfin)
      as (l & Hl & Hl0).
    destruct (welch_band_powers _ _ _ _ _ (15 / 100) (4 / 10) Hw ltac:(lra) HN Hfin)
      as (h & Hh & Hh0).
    rewrite Hl, Hh in *. cbn [xltb]. split.
    + destruct (Rltb 0 h) eqn:E.
      * apply Rltb_true in E. rewrite xdiv_fin by lra.
        eexists. split; [reflexivity|].
        unfold Rdiv. apply Rmult_le_pos; [lra|]. apply Rlt_le, Rinv_0_lt_compat, E.
      * exists 0. split; [reflexivity | lra].
    + intros Hz. rewrite Hhf in Hz. injection Hz as ->.
      now rewrite Rltb_irrefl.
Qed.

(** C5: with at least two beats, [pnn50] is a real number in [0, 100];
    and when [lf_hf_ratio] is present it is a real number >= 0, equal to 0
    when [hf_power] is 0. *)
Theorem pnn50_and_lf_hf_ratio_ranges (r_peaks : list Z) (fs : R) :
  (2 <= length r_peaks)%nat ->
  exists hrv,
    compute_hrv_metrics r_peaks fs = Returns hrv /\
    (exists p, hrv !! "pnn50" = Some (Fin p) /\ 0 <= p <= 100) /\
    (forall ratio, hrv !! "lf_hf_ratio" = Some ratio ->
       (exists q, ratio = Fin q /\ 0 <= q) /\
       (hrv !! "hf_power" = Some (Fin 0) -> ratio = Fin 0)).
Proof. apply pnn50_and_ratio. Qed.

Lemma pnn50_and_lf_hf_ratio_ranges_witness :
  (2 <= length [0; 300; 610]%Z)%nat /\
  exists hrv,
    compute_hrv_metrics [0; 300; 610]%Z 360 = Returns hrv /\
    (exists p, hrv !! "pnn50" = Some (Fin p) /\ 0 <= p <= 100) /\
    (forall ratio, hrv !! "lf_hf_ratio" = Some ratio ->
       (exists q, ratio = Fin q /\ 0 <= q) /\
       (hrv !! "hf_power" = Some (Fin 0) -> ratio = Fin 0)).
Proof.
  split; [simpl; lia|].
  apply (pnn50_and_lf_hf_ratio_ranges [0; 300; 610]%Z 360). simpl. lia.
Defined.

(** ** The band check of the filter design *)

Lemma butter2_bandpass_below_nyquist (fs : R) :
  fs <= 30 -> butter2_bandpass 5 15 fs = Raises (ValueError CriticalFrequencies).
Proof.
  intros Hfs. unfold butter2_bandpass.
  rewrite (xdiv_fin fs 2) by lra.
  destruct (Req_dec_T (fs / 2) 0) as [E|E].
  - rewrite E. cbn [xdiv]. rewrite Reqb_refl. unfold inf_of_sign.
    replace (Rltb 0 5) with true by (symmetry; apply Rltb_true; lra).
    reflexivity.
  - rewrite !xdiv_fin by exact E.
    destruct (Rlt_dec fs 0) as [Hneg|Hpos].
    + replace (Rltb 0 (5 / (fs / 2))) with false; [reflexivity|].
      symmetry. apply Rltb_false.
      assert (/ (fs / 2) < 0) by (apply Rinv_lt_0_compat; lra).
      unfold Rdiv at 1. nra.
    + replace (Rltb (15 / (fs / 2)) 1) with false;
        [now rewrite andb_false_r|].
      symmetry. apply Rltb_false.
      assert (0 < fs / 2) by lra.
      apply Rmult_le_reg_r with (fs / 2); [assumption|].
      unfold Rdiv at 2. rewrite Rmult_assoc, Rinv_l by lra. lra.
Qed.

(** C6: when the fixed QRS band does not satisfy
    [0 < 5 < 15 < fs / 2], that is for every [fs <= 30], the band-pass
    stage of [detect_r_peaks] fails with the filter design's error on the
    critical frequencies, and so does [detect_r_peaks]. *)
Theorem band_check_fails_below_nyquist (ecg : list R) (fs threshold_factor : R) :
  ~ (0 < 5 /\ 5 < 15 /\ 15 < fs / 2) ->
  bandpass_stage ecg fs = Raises (ValueError CriticalFrequencies) /\
  detect_r_peaks ecg fs threshold_factor = Raises (ValueError CriticalFrequencies).
Proof.
  intros Hband.
  assert (Hfs : fs <= 30).
  { destruct (Rle_dec fs 30) as [|Hgt]; [assumption|]. exfalso. apply Hband. lra. }
  unfold detect_r_peaks, bandpass_stage.
  rewrite (butter2_bandpass_below_nyquist fs Hfs). split; reflexivity.
Qed.

Lemma band_check_fails_below_nyquist_witness :
  ~ (0 < 5 /\ 5 < 15 /\ 15 < 30 / 2) /\
  bandpass_stage (repeat 0 100) 30 = Raises (ValueError CriticalFrequencies) /\
  detect_r_peaks (repeat 0 100) 30 (6 / 10) = Raises (ValueError CriticalFrequencies).
Proof.
  split; [lra|].
  apply (band_check_fails_below_nyquist (repeat 0 100) 30 (6 / 10)). lra.
Defined.

(** ** Structure of the peak search *)

Section PeakSearch.

Context {T : Type} `{Numeric T}.

Lemma plateau_end_bounds (fuel : nat) (x : list T) (v : T) (i_ahead i_max : nat) :
  (i_ahead <= i_max)%nat ->
  (i_ahead <= plateau_end fuel x v i_ahead i_max <= i_max)%nat.
Proof.
  revert i_ahead. induction fuel as [|fuel IH]; intros i_ahead Hle; simpl; [lia|].
  destruct (i_ahead <? i_max)%nat eqn:E; simpl; [|lia].
  apply Nat.ltb_lt in E.
  destruct (neqb (nth i_ahead x (nofZ 0)) v); [|lia].
  specialize (IH (S i_ahead)). lia.
Qed.

(** The local maxima are strictly increasing positions between the loop
    index and [i_max]. *)
Lemma local_maxima_loop_sorted (fuel : nat) (x : list T) (i i_max : nat) :
  Forall (fun p => (i <= p < i_max)%nat) (local_maxima_loop fuel x i i_max) /\
  StronglySorted lt (local_maxima_loop fuel x i i_max).
Proof.
  revert i. induction fuel as [|fuel IH]; intros i; cbn [local_maxima_loop].
  - split; constructor.
  - destruct (i <? i_max)%nat eqn:E; [|split; constructor].
    apply Nat.ltb_lt in E.
    assert (Hnext : Forall (fun p => (i <= p < i_max)%nat)
                      (local_maxima_loop fuel x (i + 1) i_max) /\
                    StronglySorted lt (local_maxima_loop fuel x (i + 1) i_max)).
    { destruct (IH (i + 1)%nat) as [Hb Hs]. split; [|exact Hs].
      eapply List.Forall_impl; [|exact Hb]. simpl. intros p Hp. lia. }
    destruct (nltb (nth (i - 1) x (nofZ 0)) (nth i x (nofZ 0))); [|exact Hnext].
    pose proof (plateau_end_bounds (length x) x (nth i x (nofZ 0)) (i + 1) i_max
                  ltac:(lia)) as Hia.
    set (ia := plateau_end (length x) x (nth i x (nofZ 0)) (i + 1) i_max) in *.
    destruct (nltb (nth ia x (nofZ 0)) (nth i x (nofZ 0))); [|exact Hnext].
    assert (Hm : (i <= (i + (ia - 1)) / 2 <= ia - 1)%nat).
    { split.
      - apply Nat.div_le_lower_bound; lia.
      - apply Nat.Div0.div_le_upper_bound. lia. }
    destruct (IH (ia + 1)%nat) as [Hb Hs]. split.
    + constructor; [lia|].
      eapply List.Forall_impl; [|exact Hb]. cbv beta. intros p Hp. lia.
    + constructor; [exact Hs|].
      eapply List.Forall_impl; [|exact Hb]. cbv beta. intros p Hp. lia.
Qed.

Lemma local_maxima_1d_sorted (x : list T) :
  Forall (fun p => (1 <= p < length x - 1)%nat) (local_maxima_1d x) /\
  StronglySorted lt (local_maxima_1d x).
Proof. apply local_maxima_loop_sorted. Qed.

End PeakSearch.

Lemma StronglySorted_filter {A : Type} (R : A -> A -> Prop) (p : A -> bool) (l : list A) :
  StronglySorted R l -> StronglySorted R (filter p l).
Proof.
  induction 1 as [|a l Hs IH Hall]; simpl; [constructor|].
  destruct (p a); [|exact IH].
  constructor; [exact IH|].
  rewrite Forall_forall in *. intros y Hy. apply Hall.
  apply filter_In in Hy. tauto.
Qed.

Lemma Forall_filter_keep {A : Type} (P : A -> Prop) (p : A -> bool) (l : list A) :
  Forall P l -> Forall P (filter p l).
Proof.
  rewrite !Forall_forall. intros H y Hy. apply H. apply filter_In in Hy. tauto.
Qed.

(** *** Reads and writes of the [keep] flags *)

Lemma nth_insert_eq (keep : list bool) (k : nat) (v d : bool) :
  (k < length keep)%nat -> nth k (<[k := v]> keep) d = v.
Proof.
  revert k. induction keep as [|b keep IH]; intros [|k] Hk; simpl in *; try lia.
  - reflexivity.
  - apply IH. lia.
Qed.

Lemma nth_insert_ne (keep : list bool) (k i : nat) (v d : bool) :
  i <> k -> nth i (<[k := v]> keep) d = nth i keep d.
Proof.
  revert k i. induction keep as [|b keep IH]; intros [|k] [|i] Hne; simpl;
    try reflexivity; try congruence.
  apply IH. congruence.
Qed.

Lemma insert_false_monotone (keep : list bool) (k i : nat) :
  nth i (<[k := false]> keep) false = true -> nth i keep false = true.
Proof.
  destruct (Nat.eq_dec i k) as [->|Hne].
  - destruct (Nat.lt_ge_cases k (length keep)) as [Hlt|Hge].
    + now rewrite nth_insert_eq.
    + now rewrite list_insert_ge by lia.
  - now rewrite nth_insert_ne.
Qed.

Lemma StronglySorted_increasing (peaks : list nat) :
  StronglySorted lt peaks -> increasing peaks.
Proof.
  induction 1 as [|p peaks Hs IH Hall]; intros i k Hik; simpl in *; [lia|].
  destruct k as [|k]; [lia|]. destruct i as [|i].
  - rewrite Forall_forall in Hall. apply Hall. apply nth_In. lia.
  - apply IH. lia.
Qed.

Section Suppress.

Variable peaks : list nat.
Variable distance : Z.
Hypothesis peaks_increasing : increasing peaks.

Lemma suppress_left_length (pj k1 : nat) (keep : list bool) :
  length (suppress_left peaks pj distance k1 keep) = length keep.
Proof.
  revert keep. induction k1 as [|k IH]; intros keep; simpl; [reflexivity|].
  destruct (_ <? _)%Z; [|reflexivity]. now rewrite IH, length_insert.
Qed.

Lemma suppress_left_monotone (pj k1 : nat) (keep : list bool) (i : nat) :
  nth i (suppress_left peaks pj distance k1 keep) false = true ->
  nth i keep false = true.
Proof.
  revert keep. induction k1 as [|k IH]; intros keep; simpl; [auto|].
  destruct (_ <? _)%Z; [|auto].
  intros Hi. apply IH in Hi. now apply insert_false_monotone in Hi.
Qed.

Lemma suppress_left_untouched (pj k1 : nat) (keep : list bool) (i : nat) :
  (k1 <= i)%nat ->
  nth i (suppress_left peaks pj distance k1 keep) false = nth i keep false.
Proof.
  revert keep. induction k1 as [|k IH]; intros keep Hi; simpl; [reflexivity|].
  destruct (_ <? _)%Z; [|reflexivity].
  rewrite IH by lia. apply nth_insert_ne. lia.
Qed.

Lemma suppress_left_clears (j k1 : nat) (keep : list bool) (i : nat) :
  (k1 <= j < length peaks)%nat -> length keep = length peaks ->
  (i < k1)%nat ->
  (Z.of_nat (nth j peaks 0%nat) - Z.of_nat (nth i peaks 0%nat) < distance)%Z ->
  nth i (suppress_left peaks (nth j peaks 0%nat) distance k1 keep) false = false.
Proof.
  revert keep. induction k1 as [|k IH]; intros keep Hk Hlen Hi Hclose; [lia|].
  simpl. destruct (_ <? _)%Z eqn:E.
  - destruct (Nat.eq_dec i k) as [->|Hne].
    + rewrite suppress_left_untouched by lia. apply nth_insert_eq. lia.
    + apply IH; [lia | now rewrite length_insert | lia | exact Hclose].
  - apply Z.ltb_ge in E. exfalso.
    destruct (Nat.eq_dec i k) as [->|Hne]; [lia|].
    pose proof (peaks_increasing i k ltac:(lia)). lia.
Qed.

Lemma suppress_right_length (fuel pj k : nat) (keep : list bool) :
  length (suppress_right fuel peaks pj distance k keep) = length keep.
Proof.
  revert k keep. induction fuel as [|fuel IH]; intros k keep; simpl; [reflexivity|].
  destruct (_ && _); [|reflexivity]. now rewrite IH, length_insert.
Qed.

Lemma suppress_right_monotone (fuel pj k : nat) (keep : list bool) (i : nat) :
  nth i (suppress_right fuel peaks pj distance k keep) false = true ->
  nth i keep false = true.
Proof.
  revert k keep. induction fuel as [|fuel IH]; intros k keep; simpl; [auto|].
  destruct (_ && _); [|auto].
  intros Hi. apply IH in Hi. now apply insert_false_monotone in Hi.
Qed.

Lemma suppress_right_untouched (fuel pj k : nat) (keep : list bool) (i : nat) :
  (i < k)%nat ->
  nth i (suppress_right fuel peaks pj distance k keep) false = nth i keep false.
Proof.
  revert k keep. induction fuel as [|fuel IH]; intros k keep Hi; simpl; [reflexivity|].
  destruct (_ && _); [|reflexivity].
  rewrite IH by lia. apply nth_insert_ne. lia.
Qed.

Lemma suppress_right_clears (fuel j k : nat) (keep : list bool) (i : nat) :
  (j < k)%nat -> (length peaks <= fuel + k)%nat -> length keep = length peaks ->
  (k <= i < length peaks)%nat ->
  (Z.of_nat (nth i peaks 0%nat) - Z.of_nat (nth j peaks 0%nat) < distance)%Z ->
  nth i (suppress_right fuel peaks (nth j peaks 0%nat) distance k keep) false = false.
Proof.
  revert k keep. induction fuel as [|fuel IH]; intros k keep Hjk Hfuel Hlen Hi Hclose;
    [lia|].
  simpl. destruct (k <? length peaks)%nat eqn:Ek; [|apply Nat.ltb_ge in Ek; lia].
  simpl. destruct (_ <? _)%Z eqn:E.
  - destruct (Nat.eq_dec i k) as [->|Hne].
    + rewrite suppress_right_untouched by lia. apply nth_insert_eq. lia.
    + apply IH; [lia | lia | now rewrite length_insert | lia | exact Hclose].
  - apply Z.ltb_ge in E. exfalso.
    destruct (Nat.eq_dec i k) as [->|Hne]; [lia|].
    pose proof (peaks_increasing k i ltac:(lia)). lia.
Qed.

End Suppress.

Section DistanceSelection.

Variable peaks : list nat.
Variable distance : Z.
Hypothesis peaks_increasing : increasing peaks.

Local Abbreviation close := (close peaks distance).
Local Abbreviation settled := (settled peaks distance).

Lemma settled_below (keep keep' : list bool) (j : nat) :
  settled keep j -> below keep' keep -> settled keep' j.
Proof.
  intros Hs Hb Hj k Hk Hne Hc.
  specialize (Hs (Hb _ Hj) k Hk Hne Hc).
  destruct (nth k keep' false) eqn:E; [|reflexivity].
  apply Hb in E. congruence.
Qed.

Lemma visit_peak_spec (keep : list bool) (j : nat) :
  (j < length peaks)%nat -> length keep = length peaks ->
  length (visit_peak peaks distance keep j) = length peaks /\
  below (visit_peak peaks distance keep j) keep /\
  settled (visit_peak peaks distance keep j) j.
Proof.
  intros Hj Hlen. unfold visit_peak.
  destruct (nth j keep false) eqn:Ej.
  - set (pj := nth j peaks 0%nat).
    set (k1 := suppress_left peaks pj distance j keep).
    assert (Hlen1 : length k1 = length peaks)
      by (unfold k1; now rewrite suppress_left_length).
    split; [now rewrite suppress_right_length|]. split.
    + intros i Hi. apply suppress_right_monotone in Hi.
      now apply suppress_left_monotone in Hi.
    + intros _ k Hk Hne Hc. unfold close in Hc.
      destruct (Nat.lt_ge_cases k j) as [Hlt|Hge].
      * rewrite suppress_right_untouched by lia.
        pose proof (peaks_increasing k j ltac:(lia)).
        apply suppress_left_clears; try assumption; try lia.
      * pose proof (peaks_increasing j k ltac:(lia)).
        apply suppress_right_clears; try assumption; try lia.
  - split; [exact Hlen|]. split; [intros i Hi; exact Hi|].
    intros Hj'. congruence.
Qed.

Lemma fold_visit_spec (order : list nat) (keep : list bool) :
  Forall (fun j => (j < length peaks)%nat) order -> length keep = length peaks ->
  length (fold_left (visit_peak peaks distance) order keep) = length peaks /\
  below (fold_left (visit_peak peaks distance) order keep) keep /\
  Forall (settled (fold_left (visit_peak peaks distance) order keep)) order.
Proof.
  intros Hord. revert keep. induction Hord as [|j order Hj _ IH]; intros keep Hlen.
  - simpl. repeat split; [exact Hlen | intros i Hi; exact Hi | constructor].
  - simpl. destruct (visit_peak_spec keep j Hj Hlen) as (Hl1 & Hb1 & Hs1).
    destruct (IH _ Hl1) as (Hl2 & Hb2 & Hs2).
    split; [exact Hl2|]. split.
    + intros i Hi. apply Hb1, Hb2, Hi.
    + constructor; [|exact Hs2]. eapply settled_below; eassumption.
Qed.

(** After every position has been visited, two kept peaks are at least
    [distance] apart. *)
Lemma select_by_peak_distance_in_spec (order : list nat) :
  (forall j, In j order <-> (j < length peaks)%nat) ->
  let keep := select_by_peak_distance_in order peaks distance in
  length keep = length peaks /\
  forall i k, (i < k < length peaks)%nat ->
    nth i keep false = true -> nth k keep false = true ->
    (Z.of_nat (nth i peaks 0%nat) + distance <= Z.of_nat (nth k peaks 0%nat))%Z.
Proof.
  intros Hord keep. unfold select_by_peak_distance_in in keep.
  destruct (fold_visit_spec (rev order) (repeat true (length peaks)))
    as (Hlen & _ & Hset).
  { apply Forall_forall. intros j Hj. apply Hord. now rewrite in_rev. }
  { apply repeat_length. }
  fold keep in Hlen, Hset. split; [exact Hlen|].
  intros i k Hik Hi Hk.
  rewrite Forall_forall in Hset.
  assert (Hin : In i (rev order)) by (rewrite <- in_rev; apply Hord; lia).
  destruct (Z_lt_ge_dec (Z.of_nat (nth k peaks 0%nat))
                        (Z.of_nat (nth i peaks 0%nat) + distance)) as [Hlt|Hge];
    [|lia].
  exfalso. pose proof (peaks_increasing i k Hik) as Hinc.
  specialize (Hset i Hin Hi k ltac:(lia) ltac:(lia)).
  rewrite Hset in Hk; [discriminate|]. unfold close. lia.
Qed.

End DistanceSelection.

(** *** [argsort] is a permutation of the positions *)

Section Argsort.

Context {T : Type} `{Numeric T}.

Lemma insert_position_In (priority : list T) (j i : nat) (sorted : list nat) :
  In i (insert_position priority j sorted) <-> i = j \/ In i sorted.
Proof.
  induction sorted as [|k rest IH]; simpl.
  - intuition.
  - destruct (nltb _ _); simpl; [intuition|]. rewrite IH. intuition.
Qed.

Lemma fold_insert_position_In (priority : list T) (l acc : list nat) (i : nat) :
  In i (fold_left (fun acc j => insert_position priority j acc) l acc) <->
  In i l \/ In i acc.
Proof.
  revert acc. induction l as [|j l IH]; intros acc; simpl; [intuition|].
  rewrite IH, insert_position_In. intuition.
Qed.

Lemma argsort_In (priority : list T) (i : nat) :
  In i (argsort priority) <-> (i < length priority)%nat.
Proof.
  unfold argsort. rewrite fold_insert_position_In, in_seq. simpl. intuition lia.
Qed.

End Argsort.

(** *** The kept peaks *)

Lemma take_kept_In (peaks : list nat) (keep : list bool) (q : nat) :
  In q (take_kept peaks keep) ->
  exists k, (k < length peaks)%nat /\ nth k peaks 0%nat = q /\ nth k keep false = true.
Proof.
  unfold take_kept. revert keep.
  induction peaks as [|p peaks IH]; intros [|b keep]; simpl; try tauto.
  destruct b; simpl.
  - intros [<- | Hin].
    + exists 0%nat. repeat split. lia.
    + destruct (IH keep Hin) as (k & Hk & Hq & Hb).
      exists (S k). repeat split; [lia | exact Hq | exact Hb].
  - intros Hin. destruct (IH keep Hin) as (k & Hk & Hq & Hb).
    exists (S k). repeat split; [lia | exact Hq | exact Hb].
Qed.

Lemma take_kept_pairwise (R : nat -> nat -> Prop) (peaks : list nat) (keep : list bool) :
  (forall i k, (i < k < length peaks)%nat ->
     nth i keep false = true -> nth k keep false = true ->
     R (nth i peaks 0%nat) (nth k peaks 0%nat)) ->
  StronglySorted R (take_kept peaks keep).
Proof.
  revert keep. induction peaks as [|p peaks IH]; intros [|b keep] HR;
    try (unfold take_kept; simpl; constructor).
  assert (Hrest : StronglySorted R (take_kept peaks keep)).
  { apply IH. intros i k Hik Hi Hk.
    apply (HR (S i) (S k)); simpl; [lia | exact Hi | exact Hk]. }
  unfold take_kept in *. simpl. destruct b; simpl; [|exact Hrest].
  constructor; [exact Hrest|].
  apply Forall_forall. intros q Hq.
  destruct (take_kept_In peaks keep q Hq) as (k & Hk & <- & Hb).
  apply (HR 0%nat (S k)); simpl; [lia | reflexivity | exact Hb].
Qed.

Lemma take_kept_Forall (P : nat -> Prop) (peaks : list nat) (keep : list bool) :
  Forall P peaks -> Forall P (take_kept peaks keep).
Proof.
  intros HP. apply Forall_forall. intros q Hq.
  destruct (take_kept_In peaks keep q Hq) as (k & Hk & <- & _).
  rewrite Forall_forall in HP. apply HP, nth_In, Hk.
Qed.

(** *** What [find_peaks] returns *)

Section FindPeaks.

Context {T : Type} `{Numeric T}.

Lemma find_peaks_spec (x : list T) (height : T) (distance : Z) (out : list nat) :
  find_peaks x height distance = Returns out ->
  (1 <= distance)%Z /\
  Forall (fun p => (1 <= p < length x - 1)%nat) out /\
  StronglySorted (fun p q => (Z.of_nat p + distance <= Z.of_nat q)%Z) out.
Proof.
  unfold find_peaks. destruct (distance <? 1)%Z eqn:Ed; [discriminate|].
  apply Z.ltb_ge in Ed. intros [= <-]. split; [exact Ed|].
  destruct (local_maxima_1d_sorted x) as [Hb Hs].
  set (peaks := select_by_height x height (local_maxima_1d x)).
  assert (Hb' : Forall (fun p => (1 <= p < length x - 1)%nat) peaks)
    by (apply Forall_filter_keep, Hb).
  assert (Hs' : StronglySorted lt peaks) by (apply StronglySorted_filter, Hs).
  split; [now apply take_kept_Forall|].
  apply take_kept_pairwise.
  apply select_by_peak_distance_in_spec.
  - now apply StronglySorted_increasing.
  - intros j. rewrite argsort_In, length_map. reflexivity.
Qed.

End FindPeaks.

(** ** Lengths along the pipeline *)

Lemma bind_Returns {A B : Type} (m : outcome A) (k : A -> outcome B) (b : B) :
  bind m k = Returns b -> exists a, m = Returns a /\ k a = Returns b.
Proof. destruct m as [a|e]; simpl; [eauto | discriminate]. Qed.

Section Lengths.

Context {T : Type} `{Numeric T}.

Lemma lfilter_run_length (b a z x : list T) :
  length (fst (lfilter_run b a z x)) = length x.
Proof.
  revert z. induction x as [|x0 x IH]; intros z; cbn [lfilter_run];
    [reflexivity|].
  destruct (lfilter_step b a z x0) as [y z'].
  specialize (IH z'). destruct (lfilter_run b a z' x) as [ys zf].
  cbn [fst length] in *. now rewrite IH.
Qed.

Lemma lfilter_length (b a x zi : list T) (r : list T * list T) :
  lfilter b a x zi = Returns r -> length (fst r) = length x.
Proof.
  unfold lfilter. destruct a as [|a0 a]; [discriminate|].
  unfold lfilter_normalized.
  destruct (neqb a0 (nofZ 0)); [discriminate|].
  destruct (negb _); [discriminate|].
  intros [= <-]. apply lfilter_run_length.
Qed.

Lemma odd_ext_length (x : list T) (n : nat) :
  (n + 1 <= length x)%nat -> length (odd_ext x n) = (length x + 2 * n)%nat.
Proof.
  intros Hn. unfold odd_ext.
  rewrite !length_app, !length_map, !length_rev, !length_firstn, !length_skipn.
  lia.
Qed.

Lemma filtfilt_length (b a x y : list T) :
  filtfilt b a x = Returns y ->
  length y = length x /\ (3 * Nat.max (length a) (length b) < length x)%nat.
Proof.
  unfold filtfilt. set (edge := (3 * Nat.max (length a) (length b))%nat).
  destruct (length x <=? edge)%nat eqn:E; [discriminate|].
  apply Nat.leb_gt in E. intros Hrun.
  apply bind_Returns in Hrun as (zi & _ & Hrun).
  apply bind_Returns in Hrun as (fwd & Hfwd & Hrun).
  apply bind_Returns in Hrun as (bwd & Hbwd & Hrun).
  injection Hrun as <-.
  apply lfilter_length in Hfwd, Hbwd.
  rewrite length_rev in Hbwd. rewrite odd_ext_length in Hfwd by lia.
  split; [|exact E].
  rewrite length_firstn, length_skipn, !length_rev. lia.
Qed.

Lemma np_convolve_same_length (a v out : list T) :
  np_convolve_same a v = Returns out ->
  length out = Nat.max (length a) (length v) /\ a <> [] /\ v <> [].
Proof.
  unfold np_convolve_same.
  destruct a as [|a0 a]; [discriminate|]. destruct v as [|v0 v]; [discriminate|].
  destruct (length (a0 :: a) <? length (v0 :: v))%nat eqn:E; intros [= <-];
    [apply Nat.ltb_lt in E | apply Nat.ltb_ge in E];
    cbn [length] in *; rewrite length_map, length_seq;
    (split; [lia | split; discriminate]).
Qed.

Lemma nonlinear_enhancer_length (filtered : list T) (w : Z) (env : list T) :
  nonlinear_enhancer filtered w = Returns env ->
  (0 < w)%Z /\ (2 <= length filtered)%nat /\
  length env = Nat.max (length filtered - 1) (Z.to_nat w).
Proof.
  unfold nonlinear_enhancer, squared_derivative.
  destruct (w <? 0)%Z eqn:E; [discriminate|].
  apply Z.ltb_ge in E. intros Hrun.
  apply np_convolve_same_length in Hrun as (Hlen & Hsq & Hker).
  rewrite length_map, np_diff_length, repeat_length in Hlen.
  split; [|split; [|exact Hlen]].
  - destruct (Z.to_nat w) eqn:Ew; [now contradiction Hker | lia].
  - assert (length (map (fun d => nmul d d) (np_diff nsub filtered)) <> 0)%nat
      by (destruct (map _ _); [contradiction | discriminate]).
    rewrite length_map, np_diff_length in *. lia.
Qed.

Lemma peak_detector_spec (integrated : list T) (tf : T) (distance : Z)
    (out : list nat) :
  peak_detector integrated tf distance = Returns out ->
  (1 <= distance)%Z /\
  Forall (fun p => (1 <= p < length integrated - 1)%nat) out /\
  StronglySorted (fun p q => (Z.of_nat p + distance <= Z.of_nat q)%Z) out.
Proof.
  unfold peak_detector. intros Hrun.
  apply bind_Returns in Hrun as (m & _ & Hrun).
  now apply find_peaks_spec in Hrun.
Qed.

End Lengths.

Lemma StronglySorted_map {A B : Type} (R : A -> A -> Prop) (S : B -> B -> Prop)
    (f : A -> B) (l : list A) :
  (forall x y, R x y -> S (f x) (f y)) ->
  StronglySorted R l -> StronglySorted S (map f l).
Proof.
  intros HRS. induction 1 as [|a l Hs IH Hall]; simpl; constructor; [exact IH|].
  apply Forall_map. eapply List.Forall_impl; [|exact Hall]. intros y. apply HRS.
Qed.

(** What a successful run of [detect_r_peaks] went through. *)
Lemma detect_r_peaks_Returns (ecg : list R) (fs tf : R) (peaks : list Z) :
  detect_r_peaks ecg fs tf = Returns peaks ->
  exists filtered integrated out,
    bandpass_stage ecg fs = Returns filtered /\
    enhancer_stage filtered fs = Returns integrated /\
    peak_stage integrated fs tf = Returns out /\
    peaks = map Z.of_nat out /\
    length filtered = length ecg /\ (15 < length ecg)%nat.
Proof.
  unfold detect_r_peaks. intros Hrun.
  apply bind_Returns in Hrun as (filtered & Hf & Hrun).
  apply bind_Returns in Hrun as (integrated & Hi & Hrun).
  apply bind_Returns in Hrun as (out & Ho & Hrun).
  injection Hrun as <-.
  exists filtered, integrated, out. repeat split; try assumption.
  - unfold bandpass_stage in Hf. apply bind_Returns in Hf as ([b a] & Hba & Hf).
    now apply filtfilt_length in Hf.
  - unfold bandpass_stage in Hf. apply bind_Returns in Hf as ([b a] & Hba & Hf).
    apply filtfilt_length in Hf as [_ Hlen].
    unfold butter2_bandpass in Hba.
    destruct (xdiv (Fin 5) _); try discriminate.
    destruct (xdiv (Fin 15) _); try discriminate.
    destruct (_ && _); [|discriminate].
    injection Hba as <- <-. simpl in Hlen. lia.
Qed.

(** ** Fractions inside the reals *)

Lemma safe_den_pos (f : frac) : (0 < BigZ.to_Z (safe_den f))%Z.
Proof.
  unfold safe_den. rewrite BigZ.spec_leb.
  change (BigZ.to_Z 0) with 0%Z.
  destruct (BigZ.to_Z (fden f) <=? 0)%Z eqn:E.
  - reflexivity.
  - apply Z.leb_gt in E. exact E.
Qed.

Lemma safe_den_Frac (n d : bigZ) :
  (0 < BigZ.to_Z d)%Z -> BigZ.to_Z (safe_den (Frac n d)) = BigZ.to_Z d.
Proof.
  intros Hd. unfold safe_den. cbn [fden]. rewrite BigZ.spec_leb.
  change (BigZ.to_Z 0) with 0%Z.
  destruct (BigZ.to_Z d <=? 0)%Z eqn:E; [apply Z.leb_le in E; lia | reflexivity].
Qed.

Lemma frac_to_R_Frac (n d : bigZ) :
  (0 < BigZ.to_Z d)%Z ->
  frac_to_R (Frac n d) = IZR (BigZ.to_Z n) / IZR (BigZ.to_Z d).
Proof. intros Hd. unfold frac_to_R. cbn [fnum]. now rewrite safe_den_Frac. Qed.

Lemma frac_to_R_add (f g : frac) :
  frac_to_R (frac_add f g) = frac_to_R f + frac_to_R g.
Proof.
  pose proof (safe_den_pos f) as H1. pose proof (safe_den_pos g) as H2.
  unfold frac_add.
  assert (R1 : IZR (BigZ.to_Z (safe_den f)) <> 0) by (apply not_0_IZR; lia).
  assert (R2 : IZR (BigZ.to_Z (safe_den g)) <> 0) by (apply not_0_IZR; lia).
  rewrite BigZ.spec_eqb.
  destruct (BigZ.to_Z (safe_den f) =? BigZ.to_Z (safe_den g))%Z eqn:E.
  { apply Z.eqb_eq in E. rewrite frac_to_R_Frac by exact H1.
    rewrite BigZ.spec_add, plus_IZR. unfold frac_to_R. rewrite <- E. field. exact R1. }
  pose proof (BigZ.spec_div_eucl (safe_den g) (safe_den f)) as S1.
  destruct (BigZ.div_eucl (safe_den g) (safe_den f)) as [q r].
  pose proof (Z_div_mod (BigZ.to_Z (safe_den g)) (BigZ.to_Z (safe_den f)) ltac:(lia)) as D1.
  rewrite <- S1 in D1. destruct D1 as [D1 _].
  rewrite BigZ.spec_eqb. change (BigZ.to_Z 0) with 0%Z.
  destruct (BigZ.to_Z r =? 0)%Z eqn:Er.
  { apply Z.eqb_eq in Er. rewrite Er, Z.add_0_r in D1.
    rewrite frac_to_R_Frac by exact H2.
    rewrite BigZ.spec_add, BigZ.spec_mul, plus_IZR, mult_IZR.
    unfold frac_to_R. rewrite D1, mult_IZR.
    assert (IZR (BigZ.to_Z q) <> 0).
    { apply not_0_IZR. intros Hq. rewrite Hq in D1. lia. }
    field. split; assumption. }
  pose proof (BigZ.spec_div_eucl (safe_den f) (safe_den g)) as S2.
  destruct (BigZ.div_eucl (safe_den f) (safe_den g)) as [q' r'].
  pose proof (Z_div_mod (BigZ.to_Z (safe_den f)) (BigZ.to_Z (safe_den g)) ltac:(lia)) as D2.
  rewrite <- S2 in D2. destruct D2 as [D2 _].
  rewrite BigZ.spec_eqb. change (BigZ.to_Z 0) with 0%Z.
  destruct (BigZ.to_Z r' =? 0)%Z eqn:Er'.
  { apply Z.eqb_eq in Er'. rewrite Er', Z.add_0_r in D2.
    rewrite frac_to_R_Frac by exact H1.
    rewrite BigZ.spec_add, BigZ.spec_mul, plus_IZR, mult_IZR.
    unfold frac_to_R. rewrite D2, mult_IZR.
    assert (IZR (BigZ.to_Z q') <> 0).
    { apply not_0_IZR. intros Hq. rewrite Hq in D2. lia. }
    field. split; assumption. }
  rewrite frac_to_R_Frac by (rewrite BigZ.spec_mul; lia).
  rewrite BigZ.spec_add, !BigZ.spec_mul, plus_IZR, !mult_IZR.
  unfold frac_to_R. field. split; assumption.
Qed.

Lemma frac_to_R_opp (f : frac) : frac_to_R (frac_opp f) = - frac_to_R f.
Proof.
  unfold frac_to_R, frac_opp, safe_den. cbn [fnum fden].
  rewrite BigZ.spec_opp, opp_IZR. unfold Rdiv. ring.
Qed.

Lemma frac_to_R_mul (f g : frac) :
  frac_to_R (frac_mul f g) = frac_to_R f * frac_to_R g.
Proof.
  pose proof (safe_den_pos f) as H1. pose proof (safe_den_pos g) as H2.
  unfold frac_mul. rewrite frac_to_R_Frac by (rewrite BigZ.spec_mul; lia).
  rewrite !BigZ.spec_mul, !mult_IZR. unfold frac_to_R.
  field. split; apply not_0_IZR; lia.
Qed.

Lemma frac_to_R_div (f g : frac) :
  frac_to_R (frac_div f g) = frac_to_R f / frac_to_R g.
Proof.
  pose proof (safe_den_pos f) as H1. pose proof (safe_den_pos g) as H2.
  assert (R1 : IZR (BigZ.to_Z (safe_den f)) <> 0) by (apply not_0_IZR; lia).
  assert (R2 : IZR (BigZ.to_Z (safe_den g)) <> 0) by (apply not_0_IZR; lia).
  unfold frac_div. rewrite BigZ.spec_eqb, BigZ.spec_ltb.
  change (BigZ.to_Z 0) with 0%Z.
  destruct (BigZ.to_Z (fnum g) =? 0)%Z eqn:E0.
  { apply Z.eqb_eq in E0.
    rewrite frac_to_R_Frac by reflexivity.
    change (BigZ.to_Z 0) with 0%Z. change (BigZ.to_Z 1) with 1%Z.
    unfold frac_to_R at 2. rewrite E0.
    unfold Rdiv. rewrite !Rmult_0_l, Rinv_0, Rmult_0_r. reflexivity. }
  apply Z.eqb_neq in E0.
  assert (Rn : IZR (BigZ.to_Z (fnum g)) <> 0) by (apply not_0_IZR; exact E0).
  destruct (0 <? BigZ.to_Z (fnum g))%Z eqn:Ep.
  - apply Z.ltb_lt in Ep.
    rewrite frac_to_R_Frac by (rewrite BigZ.spec_mul; lia).
    rewrite !BigZ.spec_mul, !mult_IZR. unfold frac_to_R.
    field. repeat split; assumption.
  - apply Z.ltb_ge in Ep.
    rewrite frac_to_R_Frac by (rewrite BigZ.spec_mul, BigZ.spec_opp; nia).
    rewrite BigZ.spec_opp, !BigZ.spec_mul, BigZ.spec_opp, opp_IZR, !mult_IZR, opp_IZR.
    unfold frac_to_R. field. repeat split; assumption.
Qed.

Lemma frac_cross (f g : frac) :
  let a := (BigZ.to_Z (fnum f) * BigZ.to_Z (safe_den g))%Z in
  let b := (BigZ.to_Z (fnum g) * BigZ.to_Z (safe_den f))%Z in
  ((frac_to_R f < frac_to_R g) <-> (a < b)%Z) /\
  ((frac_to_R f <= frac_to_R g) <-> (a <= b)%Z) /\
  ((frac_to_R f = frac_to_R g) <-> a = b).
Proof.
  intros a b.
  pose proof (safe_den_pos f) as H1. pose proof (safe_den_pos g) as H2.
  assert (R1 : 0 < IZR (BigZ.to_Z (safe_den f))) by (apply IZR_lt; lia).
  assert (R2 : 0 < IZR (BigZ.to_Z (safe_den g))) by (apply IZR_lt; lia).
  assert (E : frac_to_R g - frac_to_R f =
              (IZR b - IZR a) / (IZR (BigZ.to_Z (safe_den f)) * IZR (BigZ.to_Z (safe_den g)))).
  { unfold a, b, frac_to_R. rewrite !mult_IZR. field. split; lra. }
  assert (P : 0 < IZR (BigZ.to_Z (safe_den f)) * IZR (BigZ.to_Z (safe_den g)))
    by (apply Rmult_lt_0_compat; assumption).
  set (p := IZR (BigZ.to_Z (safe_den f)) * IZR (BigZ.to_Z (safe_den g))) in *.
  assert (Hsign : forall x, ((0 < x / p) <-> (0 < x)) /\ ((0 <= x / p) <-> (0 <= x)) /\
                            ((x / p = 0) <-> (x = 0))).
  { intros x. assert (Hinv : 0 < / p) by (apply Rinv_0_lt_compat; exact P).
    assert (Hx : x = x / p * p) by (field; lra).
    unfold Rdiv in *. repeat split; intros Hy; nra. }
  destruct (Hsign (IZR b - IZR a)) as (Hlt & Hle & Heq).
  rewrite <- E in Hlt, Hle, Heq.
  repeat split; intros Hx.
  - apply lt_IZR. assert (0 < IZR b - IZR a) by (apply Hlt; lra). lra.
  - apply IZR_lt in Hx. assert (0 < frac_to_R g - frac_to_R f) by (apply Hlt; lra). lra.
  - apply le_IZR. assert (0 <= IZR b - IZR a) by (apply Hle; lra). lra.
  - apply IZR_le in Hx. assert (0 <= frac_to_R g - frac_to_R f) by (apply Hle; lra). lra.
  - apply eq_IZR. assert (IZR b - IZR a = 0) by (apply Heq; lra). lra.
  - assert (frac_to_R g - frac_to_R f = 0) by (apply Heq; rewrite Hx; lra). lra.
Qed.

Lemma frac_to_R_ofZ (z : Z) : frac_to_R (nofZ z) = IZR z.
Proof.
  cbn [nofZ frac_numeric]. rewrite frac_to_R_Frac by reflexivity.
  rewrite BigZ.spec_of_Z. change (BigZ.to_Z 1) with 1%Z. field.
Qed.

#[export] Instance frac_to_R_order : OrderMorphism frac_to_R.
Proof.
  constructor; intros;
    cbn [nltb nleb neqb frac_numeric R_numeric].
  - apply frac_to_R_ofZ.
  - destruct (frac_cross a b) as (Hlt & _ & _).
    unfold frac_ltb. rewrite BigZ.spec_ltb, !BigZ.spec_mul.
    destruct (Rltb (frac_to_R a) (frac_to_R b)) eqn:E; symmetry.
    + apply Rltb_true in E. apply Z.ltb_lt. now apply Hlt.
    + apply Rltb_false in E. apply Z.ltb_ge.
      destruct (Z_lt_ge_dec (BigZ.to_Z (fnum a) * BigZ.to_Z (safe_den b))
                            (BigZ.to_Z (fnum b) * BigZ.to_Z (safe_den a))) as [Hc|Hc];
        [apply Hlt in Hc; lra | lia].
  - destruct (frac_cross a b) as (_ & Hle & _).
    unfold frac_leb. rewrite BigZ.spec_leb, !BigZ.spec_mul.
    destruct (Rleb (frac_to_R a) (frac_to_R b)) eqn:E; symmetry.
    + apply Rleb_true in E. apply Z.leb_le. now apply Hle.
    + apply Rleb_false in E. apply Z.leb_gt.
      destruct (Z_le_gt_dec (BigZ.to_Z (fnum a) * BigZ.to_Z (safe_den b))
                            (BigZ.to_Z (fnum b) * BigZ.to_Z (safe_den a))) as [Hc|Hc];
        [apply Hle in Hc; lra | lia].
  - destruct (frac_cross a b) as (_ & _ & Heq).
    unfold frac_eqb. rewrite BigZ.spec_eqb, !BigZ.spec_mul.
    destruct (Reqb (frac_to_R a) (frac_to_R b)) eqn:E; symmetry.
    + apply Reqb_true in E. apply Z.eqb_eq. now apply Heq.
    + apply Reqb_false in E. apply Z.eqb_neq. intros Hc. apply E. now apply Heq.
Qed.

#[export] Instance frac_to_R_morphism : NumericMorphism frac_to_R.
Proof.
  constructor; intros.
  - exact frac_to_R_order.
  - apply frac_to_R_ofZ.
  - apply frac_to_R_add.
  - cbn [nsub frac_numeric R_numeric].
    unfold frac_sub. rewrite frac_to_R_add, frac_to_R_opp. ring.
  - apply frac_to_R_mul.
  - apply frac_to_R_div.
Qed.

(** ** The pipeline commutes with a numeric morphism *)

Lemma bind_outcome_map {A B C : Type} (f : A -> B) (m : outcome A) (k : B -> outcome C) :
  bind (outcome_map f m) k = bind m (fun a => k (f a)).
Proof. now destruct m. Qed.

Lemma outcome_map_bind {A B C : Type} (f : B -> C) (m : outcome A) (k : A -> outcome B) :
  outcome_map f (bind m k) = bind m (fun a => outcome_map f (k a)).
Proof. now destruct m. Qed.

Lemma bind_ext {A B : Type} (m : outcome A) (k k' : A -> outcome B) :
  (forall a, k a = k' a) -> bind m k = bind m k'.
Proof. intros E. destruct m; simpl; auto. Qed.

Section OrderTransport.

Context {T U : Type} `{NT : Numeric T} `{NU : Numeric U}.
Context (phi : T -> U) `{!OrderMorphism phi}.

Lemma phi_ltb (a b : T) : nltb (phi a) (phi b) = nltb a b.
Proof. apply morph_ltb. Qed.
Lemma phi_leb (a b : T) : nleb (phi a) (phi b) = nleb a b.
Proof. apply morph_leb. Qed.
Lemma phi_eqb (a b : T) : neqb (phi a) (phi b) = neqb a b.
Proof. apply morph_eqb. Qed.

Lemma morph_nth (l : list T) (i : nat) :
  nth i (map phi l) (nofZ 0) = phi (nth i l (nofZ 0)).
Proof. rewrite <- (morph_zero (phi := phi)). apply map_nth. Qed.

Lemma morph_fold_max (l : list T) (m : T) :
  fold_left (fun m v => if nltb m v then v else m) (map phi l) (phi m) =
  phi (fold_left (fun m v => if nltb m v then v else m) l m).
Proof.
  revert m. induction l as [|v l IH]; intros m; simpl; [reflexivity|].
  rewrite phi_ltb. destruct (nltb m v); apply IH.
Qed.

Lemma morph_np_max (x : list T) :
  np_max (map phi x) = outcome_map phi (np_max x).
Proof.
  destruct x as [|x0 x]; [reflexivity|].
  cbn [np_max map outcome_map]. f_equal. apply morph_fold_max.
Qed.

Lemma morph_plateau_end (fuel : nat) (x : list T) (v : T) (i_ahead i_max : nat) :
  plateau_end fuel (map phi x) (phi v) i_ahead i_max = plateau_end fuel x v i_ahead i_max.
Proof.
  revert i_ahead. induction fuel as [|fuel IH]; intros i_ahead; simpl; [reflexivity|].
  rewrite morph_nth, phi_eqb. destruct (_ && _); [apply IH | reflexivity].
Qed.

Lemma morph_local_maxima_loop (fuel : nat) (x : list T) (i i_max : nat) :
  local_maxima_loop fuel (map phi x) i i_max = local_maxima_loop fuel x i i_max.
Proof.
  revert i. induction fuel as [|fuel IH]; intros i; cbn [local_maxima_loop];
    [reflexivity|].
  rewrite !morph_nth, length_map, !morph_plateau_end, !phi_ltb.
  destruct (i <? i_max)%nat; [|reflexivity].
  destruct (nltb _ _); [|apply IH].
  destruct (nltb _ _); [|apply IH].
  f_equal. apply IH.
Qed.

Lemma morph_local_maxima_1d (x : list T) :
  local_maxima_1d (map phi x) = local_maxima_1d x.
Proof. unfold local_maxima_1d. rewrite length_map. apply morph_local_maxima_loop. Qed.

Lemma morph_select_by_height (x : list T) (h : T) (peaks : list nat) :
  select_by_height (map phi x) (phi h) peaks = select_by_height x h peaks.
Proof.
  unfold select_by_height. apply filter_ext. intros p.
  now rewrite morph_nth, phi_leb.
Qed.

Lemma morph_insert_position (priority : list T) (j : nat) (sorted : list nat) :
  insert_position (map phi priority) j sorted = insert_position priority j sorted.
Proof.
  induction sorted as [|k rest IH]; simpl; [reflexivity|].
  rewrite !morph_nth, phi_ltb, IH. reflexivity.
Qed.

Lemma morph_argsort (priority : list T) :
  argsort (map phi priority) = argsort priority.
Proof.
  unfold argsort. rewrite length_map.
  generalize (seq 0 (length priority)) (@nil nat).
  intros l. induction l as [|j l IH]; intros acc; simpl; [reflexivity|].
  now rewrite morph_insert_position, IH.
Qed.

Lemma morph_find_peaks (x : list T) (h : T) (distance : Z) :
  find_peaks (map phi x) (phi h) distance = find_peaks x h distance.
Proof.
  unfold find_peaks, select_by_peak_distance.
  destruct (distance <? 1)%Z; [reflexivity|].
  rewrite morph_local_maxima_1d, morph_select_by_height.
  set (peaks := select_by_height x h (local_maxima_1d x)).
  replace (map (fun p => nth p (map phi x) (nofZ 0)) peaks)
    with (map phi (map (fun p => nth p x (nofZ 0)) peaks)).
  - now rewrite morph_argsort.
  - rewrite map_map. apply map_ext. intros p. now rewrite morph_nth.
Qed.

End OrderTransport.

Section Transport.

Context {T U : Type} `{NT : Numeric T} `{NU : Numeric U}.
Context (phi : T -> U) `{!NumericMorphism phi}.

#[local] Instance transport_order : OrderMorphism phi := morph_order.

Lemma phi_ofZ (z : Z) : phi (nofZ z) = nofZ z.
Proof. apply morph_ofZ. Qed.
Lemma phi_add (a b : T) : phi (nadd a b) = nadd (phi a) (phi b).
Proof. apply morph_add. Qed.
Lemma phi_sub (a b : T) : phi (nsub a b) = nsub (phi a) (phi b).
Proof. apply morph_sub. Qed.
Lemma phi_mul (a b : T) : phi (nmul a b) = nmul (phi a) (phi b).
Proof. apply morph_mul. Qed.
Lemma phi_div (a b : T) : phi (ndiv a b) = ndiv (phi a) (phi b).
Proof. apply morph_div. Qed.

Lemma morph_hd (l : list T) : hd (nofZ 0) (map phi l) = phi (hd (nofZ 0) l).
Proof. destruct l; simpl; [now rewrite phi_ofZ | reflexivity]. Qed.

Lemma morph_last (l : list T) : last (map phi l) (nofZ 0) = phi (last l (nofZ 0)).
Proof.
  induction l as [|x [|y l] IH]; simpl in *;
    [now rewrite phi_ofZ | reflexivity | exact IH].
Qed.

Lemma phi_tl (l : list T) : tl (map phi l) = map phi (tl l).
Proof. now destruct l. Qed.

Lemma morph_fold_add (l : list T) (a : T) :
  fold_left nadd (map phi l) (phi a) = phi (fold_left nadd l a).
Proof.
  revert a. induction l as [|x l IH]; intros a; simpl; [reflexivity|].
  now rewrite <- phi_add, IH.
Qed.

Lemma morph_nsum (l : list T) : nsum (map phi l) = phi (nsum l).
Proof. unfold nsum. rewrite <- (phi_ofZ 0). apply morph_fold_add. Qed.

Lemma morph_pad_to (n : nat) (c : list T) :
  pad_to n (map phi c) = map phi (pad_to n c).
Proof.
  unfold pad_to. rewrite map_app, length_map, map_repeat.
  now rewrite phi_ofZ.
Qed.

Lemma morph_np_diff (l : list T) :
  np_diff nsub (map phi l) = map phi (np_diff nsub l).
Proof.
  induction l as [|x [|y l] IH]; try reflexivity.
  change (map phi (x :: y :: l)) with (phi x :: phi y :: map phi l).
  rewrite !np_diff_cons. cbn [map]. rewrite phi_sub. f_equal. exact IH.
Qed.

(** *** The linear filter *)

Lemma morph_next_state (x y : T) (z bs as_ : list T) :
  next_state (phi x) (phi y) (map phi z) (map phi bs) (map phi as_) =
  map phi (next_state x y z bs as_).
Proof.
  revert z as_. induction bs as [|bn bs IH]; intros z [|an as_];
    destruct z as [|zn z]; cbn [next_state map]; try reflexivity.
  - now rewrite phi_sub, !phi_mul.
  - rewrite IH. now rewrite phi_sub, phi_add, !phi_mul.
Qed.

Lemma morph_lfilter_step (b a z : list T) (x : T) :
  lfilter_step (map phi b) (map phi a) (map phi z) (phi x) =
  (phi (fst (lfilter_step b a z x)), map phi (snd (lfilter_step b a z x))).
Proof.
  unfold lfilter_step. destruct z as [|z0 z]; cbn [map fst snd].
  - now rewrite morph_hd, phi_mul.
  - rewrite morph_hd, <- phi_mul, <- phi_add.
    rewrite !phi_tl. now rewrite morph_next_state.
Qed.

Lemma morph_lfilter_run (b a z x : list T) :
  lfilter_run (map phi b) (map phi a) (map phi z) (map phi x) =
  (map_both phi) (lfilter_run b a z x).
Proof.
  revert z. induction x as [|x0 x IH]; intros z; cbn [lfilter_run map].
  - reflexivity.
  - rewrite morph_lfilter_step.
    destruct (lfilter_step b a z x0) as [y z']. cbn [fst snd].
    rewrite IH. destruct (lfilter_run b a z' x) as [ys zf]. reflexivity.
Qed.

Lemma morph_map_div (c : list T) (a0 : T) :
  map (fun v => ndiv v (phi a0)) (map phi c) = map phi (map (fun v => ndiv v a0) c).
Proof.
  rewrite !map_map. apply map_ext. intros v. now rewrite phi_div.
Qed.

Lemma morph_lfilter_normalized (a0 : T) (b a x zi : list T) :
  lfilter_normalized (phi a0) (map phi b) (map phi a) (map phi x) (map phi zi) =
  outcome_map (map_both phi) (lfilter_normalized a0 b a x zi).
Proof.
  unfold lfilter_normalized. rewrite <- (phi_ofZ 0), (phi_eqb phi).
  destruct (neqb a0 (nofZ 0)); [reflexivity|].
  rewrite !length_map.
  destruct (negb _); [reflexivity|].
  cbn [outcome_map]. f_equal.
  rewrite !morph_map_div, !morph_pad_to. apply morph_lfilter_run.
Qed.

Lemma morph_lfilter (b a x zi : list T) :
  lfilter (map phi b) (map phi a) (map phi x) (map phi zi) =
  outcome_map (map_both phi) (lfilter b a x zi).
Proof.
  unfold lfilter. destruct a as [|a0 a]; [reflexivity|].
  apply (morph_lfilter_normalized a0 b (a0 :: a)).
Qed.

Lemma morph_strip_leading_zeros (a : list T) :
  strip_leading_zeros (map phi a) = map phi (strip_leading_zeros a).
Proof.
  induction a as [|a0 [|a1 a] IH]; try reflexivity.
  change (map phi (a0 :: a1 :: a)) with (phi a0 :: map phi (a1 :: a)).
  cbn [strip_leading_zeros map] in *.
  rewrite <- (phi_ofZ 0), (phi_eqb phi).
  destruct (neqb a0 (nofZ 0)); [|reflexivity].
  rewrite (phi_ofZ 0). exact IH.
Qed.

Lemma morph_suffix_sums (c : list T) :
  suffix_sums (map phi c) = map phi (suffix_sums c).
Proof.
  induction c as [|c0 c IH]; [reflexivity|].
  cbn [suffix_sums map]. rewrite IH.
  destruct (suffix_sums c) as [|s ss]; [reflexivity|].
  cbn [map]. now rewrite phi_add.
Qed.

Lemma morph_lfilter_zi_normalized (a0 : T) (b a : list T) :
  lfilter_zi_normalized (phi a0) (map phi b) (map phi a) =
  outcome_map (map phi) (lfilter_zi_normalized a0 b a).
Proof.
  unfold lfilter_zi_normalized. rewrite <- (phi_ofZ 0), (phi_eqb phi).
  destruct (neqb a0 (nofZ 0)); [reflexivity|].
  rewrite !length_map.
  destruct (_ <? 2)%nat; [reflexivity|].
  rewrite !morph_map_div, !morph_pad_to, !morph_nsum, (phi_eqb phi).
  destruct (neqb _ _); [reflexivity|].
  cbn [outcome_map]. f_equal.
  rewrite <- phi_div, <- morph_suffix_sums. f_equal.
  rewrite !phi_tl.
  set (bs := tl (pad_to _ (map _ b))). set (as_ := tl (pad_to _ (map _ a))).
  set (g := ndiv _ _).
  clearbody bs as_ g. revert as_. induction bs as [|bn bs IH]; intros [|an as_];
    try reflexivity.
  cbn [map combine fst snd]. rewrite IH. now rewrite phi_sub, phi_mul.
Qed.

Lemma morph_lfilter_zi (b a : list T) :
  lfilter_zi (map phi b) (map phi a) = outcome_map (map phi) (lfilter_zi b a).
Proof.
  unfold lfilter_zi. rewrite morph_strip_leading_zeros.
  destruct (strip_leading_zeros a) as [|a0 a1]; [reflexivity|].
  apply (morph_lfilter_zi_normalized a0 b (a0 :: a1)).
Qed.

Lemma morph_odd_ext (x : list T) (n : nat) :
  odd_ext (map phi x) n = map phi (odd_ext x n).
Proof.
  unfold odd_ext. rewrite !map_app, morph_hd, morph_last, length_map.
  rewrite !skipn_map, !firstn_map, <- !map_rev, !map_map.
  f_equal; [|f_equal]; apply map_ext; intros v;
    now rewrite phi_sub, phi_mul, (phi_ofZ 2).
Qed.

Lemma map_scale (z : list T) (c : T) :
  map (fun v => nmul v (phi c)) (map phi z) = map phi (map (fun v => nmul v c) z).
Proof. rewrite !map_map. apply map_ext. intros v. now rewrite phi_mul. Qed.

Lemma morph_filtfilt (b a x : list T) :
  filtfilt (map phi b) (map phi a) (map phi x) =
  outcome_map (map phi) (filtfilt b a x).
Proof.
  unfold filtfilt. rewrite !length_map.
  destruct (_ <=? _)%nat; [reflexivity|].
  rewrite morph_lfilter_zi, bind_outcome_map, outcome_map_bind.
  apply bind_ext. intros zi.
  rewrite morph_odd_ext, morph_hd, map_scale, morph_lfilter.
  rewrite bind_outcome_map, outcome_map_bind. apply bind_ext. intros [y zf].
  cbn [map_both fst snd].
  rewrite morph_last, map_scale, <- map_rev, morph_lfilter.
  rewrite bind_outcome_map, outcome_map_bind. apply bind_ext. intros [y' zf'].
  cbn [map_both fst snd outcome_map]. f_equal.
  now rewrite <- map_rev, length_map, skipn_map, firstn_map.
Qed.

(** *** Enhancer and peak search *)

Lemma morph_convolve_full_at (a v : list T) (k : nat) :
  convolve_full_at (map phi a) (map phi v) k = phi (convolve_full_at a v k).
Proof.
  unfold convolve_full_at. rewrite <- morph_nsum, !length_map, map_map.
  f_equal. apply map_ext. intros j. now rewrite !(morph_nth phi), phi_mul.
Qed.

Lemma morph_np_convolve_same (a v : list T) :
  np_convolve_same (map phi a) (map phi v) =
  outcome_map (map phi) (np_convolve_same a v).
Proof.
  unfold np_convolve_same.
  destruct a as [|a0 a]; [reflexivity|]. destruct v as [|v0 v]; [reflexivity|].
  change (map phi (a0 :: a)) with (phi a0 :: map phi a).
  change (map phi (v0 :: v)) with (phi v0 :: map phi v).
  cbv beta iota.
  change (phi a0 :: map phi a) with (map phi (a0 :: a)).
  change (phi v0 :: map phi v) with (map phi (v0 :: v)).
  rewrite !length_map.
  destruct (length (a0 :: a) <? length (v0 :: v))%nat; cbv beta iota;
    cbn [outcome_map]; f_equal; rewrite !length_map, map_map;
    apply map_ext; intros i; apply morph_convolve_full_at.
Qed.

Lemma morph_squared_derivative (filtered : list T) :
  squared_derivative (map phi filtered) = map phi (squared_derivative filtered).
Proof.
  unfold squared_derivative. rewrite morph_np_diff, !map_map.
  apply map_ext. intros d. symmetry. apply phi_mul.
Qed.

Lemma morph_nonlinear_enhancer (filtered : list T) (w : Z) :
  nonlinear_enhancer (map phi filtered) w =
  outcome_map (map phi) (nonlinear_enhancer filtered w).
Proof.
  unfold nonlinear_enhancer. destruct (w <? 0)%Z; [reflexivity|].
  rewrite morph_squared_derivative.
  rewrite <- !phi_ofZ, <- phi_div, <- map_repeat.
  apply morph_np_convolve_same.
Qed.

Lemma morph_zero_padded (x : list T) (i : Z) :
  zero_padded (map phi x) i = phi (zero_padded x i).
Proof.
  unfold zero_padded. destruct (i <? 0)%Z; [now rewrite phi_ofZ|].
  apply (morph_nth phi).
Qed.

Lemma morph_moving_average_same (w : Z) (x : list T) :
  moving_average_same w (map phi x) = map phi (moving_average_same w x).
Proof.
  unfold moving_average_same. rewrite length_map, map_map.
  apply map_ext. intros i.
  rewrite phi_div, phi_ofZ, <- morph_nsum, map_map. do 2 f_equal.
  apply map_ext. intros j. apply morph_zero_padded.
Qed.

Lemma morph_peak_detector (integrated : list T) (tf : T) (distance : Z) :
  peak_detector (map phi integrated) (phi tf) distance =
  peak_detector integrated tf distance.
Proof.
  unfold peak_detector. rewrite (morph_np_max phi), bind_outcome_map.
  apply bind_ext. intros m. rewrite <- phi_mul. apply (morph_find_peaks phi).
Qed.

Lemma morph_detect_r_peaks_with (b a ecg : list T) (w d : Z) (tf : T) :
  detect_r_peaks_with (map phi b) (map phi a) (map phi ecg) w d (phi tf) =
  detect_r_peaks_with b a ecg w d tf.
Proof.
  unfold detect_r_peaks_with. rewrite morph_filtfilt, bind_outcome_map.
  apply bind_ext. intros filtered.
  rewrite morph_nonlinear_enhancer, bind_outcome_map.
  apply bind_ext. intros integrated. apply morph_peak_detector.
Qed.

End Transport.

(** ** The filter design at a rate with rational coefficients *)

Lemma sqrt2_sq : sqrt 2 * sqrt 2 = 2.
Proof. apply sqrt_sqrt. lra. Qed.

Lemma sqrt2_pos : 0 < sqrt 2.
Proof. apply sqrt_lt_R0. lra. Qed.

Section RationalRate.

Variable r : R.
Hypothesis r_pos : 0 < r.
Hypothesis r_small : 6 * (r * r) < 1.

Let theta := atan (sqrt 2 * r).

Lemma theta_pos : 0 < theta.
Proof.
  unfold theta. rewrite <- atan_0. apply atan_increasing.
  apply Rmult_lt_0_compat; [apply sqrt2_pos | exact r_pos].
Qed.

Lemma tan_PI6_value : tan (PI / 6) = / sqrt 3.
Proof.
  unfold tan. rewrite sin_PI6, cos_PI6.
  assert (0 < sqrt 3) by (apply sqrt_lt_R0; lra). field. lra.
Qed.

Lemma theta_lt_PI6 : theta < PI / 6.
Proof.
  unfold theta. pose proof PI_RGT_0 as Hpi.
  rewrite <- (atan_tan (PI / 6)) by (split; lra).
  apply atan_increasing. rewrite tan_PI6_value.
  assert (H3 : 0 < sqrt 3) by (apply sqrt_lt_R0; lra).
  assert (H33 : sqrt 3 * sqrt 3 = 3) by (apply sqrt_sqrt; lra).
  pose proof sqrt2_pos as H2. pose proof sqrt2_sq as H22.
  apply Rmult_lt_reg_r with (sqrt 3); [exact H3|].
  rewrite Rinv_l by lra.
  assert (Hsq : (sqrt 2 * r * sqrt 3) * (sqrt 2 * r * sqrt 3) < 1 * 1).
  { replace ((sqrt 2 * r * sqrt 3) * (sqrt 2 * r * sqrt 3))
      with ((sqrt 2 * sqrt 2) * (sqrt 3 * sqrt 3) * (r * r)) by ring.
    rewrite H22, H33. lra. }
  assert (0 < sqrt 2 * r * sqrt 3).
  { apply Rmult_lt_0_compat; [apply Rmult_lt_0_compat|]; assumption. }
  nra.
Qed.

Lemma tan_theta : tan theta = sqrt 2 * r.
Proof. apply tan_atan. Qed.

Lemma tan_3theta :
  tan (3 * theta) = sqrt 2 * (r * (3 - 2 * (r * r)) / (1 - 6 * (r * r))).
Proof.
  pose proof theta_pos as Hp. pose proof theta_lt_PI6 as Hlt.
  pose proof PI_RGT_0 as Hpi.
  pose proof sqrt2_sq as H22. pose proof sqrt2_pos as H2.
  assert (C1 : cos theta <> 0) by (apply Rgt_not_eq, cos_gt_0; lra).
  assert (C2 : cos (2 * theta) <> 0) by (apply Rgt_not_eq, cos_gt_0; lra).
  assert (C3 : cos (2 * theta + theta) <> 0) by (apply Rgt_not_eq, cos_gt_0; lra).
  set (t := sqrt 2 * r).
  assert (Ht2 : t * t = 2 * (r * r)).
  { unfold t. replace (sqrt 2 * r * (sqrt 2 * r)) with (sqrt 2 * sqrt 2 * (r * r)) by ring.
    now rewrite H22. }
  assert (D1 : 1 - t * t <> 0) by (rewrite Ht2; lra).
  assert (E2 : tan (2 * theta) = 2 * t / (1 - t * t)).
  { rewrite tan_2a; rewrite ?tan_theta; fold t; auto. }
  assert (D2 : 1 - tan (2 * theta) * tan theta <> 0).
  { rewrite E2, tan_theta. fold t.
    replace (1 - 2 * t / (1 - t * t) * t) with ((1 - 3 * (t * t)) / (1 - t * t))
      by (field; exact D1).
    rewrite Ht2. intros Hc.
    apply Rmult_eq_compat_r with (r := 1 - 2 * (r * r)) in Hc.
    unfold Rdiv in Hc. rewrite Rmult_assoc, Rinv_l in Hc by lra. lra. }
  replace (3 * theta) with (2 * theta + theta) by ring.
  rewrite tan_plus by assumption.
  rewrite E2, tan_theta. fold t.
  replace ((2 * t / (1 - t * t) + t) / (1 - 2 * t / (1 - t * t) * t))
    with (t * (3 - t * t) / (1 - 3 * (t * t))).
  - rewrite Ht2. unfold t. field. lra.
  - field. split; [rewrite Ht2; lra|].
    replace (1 - t * t - 2 * t * t) with (1 - 3 * (t * t)) by ring.
    rewrite Ht2. lra.
Qed.

End RationalRate.

Lemma butter_at_rational_rate (r : R) :
  0 < r -> 6 * (r * r) < 1 ->
  butter2_bandpass 5 15 (rational_rate r) = Returns (butter_rational r).
Proof.
  intros Hr Hsmall.
  pose proof (theta_pos r Hr) as Hp. pose proof (theta_lt_PI6 r Hr Hsmall) as Hlt.
  pose proof (tan_theta r) as Ht. pose proof (tan_3theta r Hr Hsmall) as Ht3.
  cbv zeta in Hp, Hlt, Ht, Ht3.
  pose proof PI_RGT_0 as Hpi.
  unfold butter2_bandpass, rational_rate.
  set (theta := atan (sqrt 2 * r)) in *.
  assert (Hfs : 0 < 5 * PI / theta) by (apply Rdiv_lt_0_compat; lra).
  rewrite (xdiv_fin _ 2) by lra.
  rewrite !xdiv_fin by lra.
  assert (E1 : PI * (5 / (5 * PI / theta / 2)) / 2 = theta) by (field; lra).
  assert (E2 : PI * (15 / (5 * PI / theta / 2)) / 2 = 3 * theta) by (field; lra).
  assert (W1 : 5 / (5 * PI / theta / 2) = 2 * theta / PI) by (field; lra).
  assert (W2 : 15 / (5 * PI / theta / 2) = 6 * theta / PI) by (field; lra).
  assert (Hinv : 0 < / PI) by (apply Rinv_0_lt_compat; lra).
  replace (Rltb 0 (5 / (5 * PI / theta / 2))) with true
    by (symmetry; apply Rltb_true; rewrite W1; unfold Rdiv; nra).
  replace (Rltb (5 / (5 * PI / theta / 2)) (15 / (5 * PI / theta / 2))) with true
    by (symmetry; apply Rltb_true; rewrite W1, W2; unfold Rdiv; nra).
  replace (Rltb (15 / (5 * PI / theta / 2)) 1) with true.
  2:{ symmetry. apply Rltb_true. rewrite W2.
      apply Rmult_lt_reg_r with PI; [lra|].
      unfold Rdiv. rewrite Rmult_assoc, Rinv_l by lra. lra. }
  cbn [andb]. rewrite E1, E2, Ht, Ht3.
  unfold butter_rational.
  cbn [nofZ nadd nsub nmul ndiv R_numeric].
  set (rp := r * (3 - 2 * (r * r)) / (1 - 6 * (r * r))).
  set (dr := rp - r).
  cbv zeta.
  set (bw := 4 * (sqrt 2 * rp) - 4 * (sqrt 2 * r)).
  set (wo2 := 4 * (sqrt 2 * r) * (4 * (sqrt 2 * rp))).
  pose proof sqrt2_sq as H22.
  assert (Hsb : sqrt 2 * bw = 8 * dr).
  { unfold bw, dr. replace (sqrt 2 * (4 * (sqrt 2 * rp) - 4 * (sqrt 2 * r)))
      with (4 * (sqrt 2 * sqrt 2) * (rp - r)) by ring. rewrite H22. ring. }
  assert (Hbb : bw * bw = 32 * (dr * dr)).
  { unfold bw, dr.
    replace ((4 * (sqrt 2 * rp) - 4 * (sqrt 2 * r)) * (4 * (sqrt 2 * rp) - 4 * (sqrt 2 * r)))
      with (16 * (sqrt 2 * sqrt 2) * ((rp - r) * (rp - r))) by ring. rewrite H22. ring. }
  assert (Hwo : wo2 = 32 * (r * rp)).
  { unfold wo2. replace (4 * (sqrt 2 * r) * (4 * (sqrt 2 * rp)))
      with (16 * (sqrt 2 * sqrt 2) * (r * rp)) by ring. rewrite H22. ring. }
  rewrite Hsb, Hbb, Hwo.
  assert (Hdiv : forall a b c d : R, a = c -> b = d -> a / b = c / d)
    by (intros; subst; reflexivity).
  assert (Hneg : forall x y : R, x = y -> - 2 * x = 0 - 2 * y)
    by (intros; subst; ring).
  f_equal. f_equal;
    repeat (apply (f_equal2 (@cons R));
            [first [reflexivity | apply Hdiv; ring | apply Hneg, Hdiv; ring]|]);
    reflexivity.
Qed.

Section TransportCoefficients.

Context {T U : Type} `{NT : Numeric T} `{NU : Numeric U}.
Context (phi : T -> U) `{!NumericMorphism phi}.

Lemma morph_butter_rational (r : T) :
  butter_rational (phi r) =
  (map phi (fst (butter_rational r)), map phi (snd (butter_rational r))).
Proof.
  unfold butter_rational. cbv zeta. cbn [map fst snd].
  rewrite ?(phi_div phi), ?(phi_sub phi), ?(phi_add phi), ?(phi_mul phi),
    ?(phi_div phi), ?(phi_sub phi), ?(phi_add phi), ?(phi_mul phi),
    ?(phi_div phi), ?(phi_sub phi), ?(phi_add phi), ?(phi_mul phi),
    ?(phi_div phi), ?(phi_sub phi), ?(phi_add phi), ?(phi_mul phi),
    ?(phi_div phi), ?(phi_sub phi), ?(phi_add phi), ?(phi_mul phi),
    ?(phi_div phi), ?(phi_sub phi), ?(phi_add phi), ?(phi_mul phi),
    ?(phi_ofZ phi).
  reflexivity.
Qed.

End TransportCoefficients.

(** ** Locating a rate with rational coefficients *)

Lemma PI_enclosure : 314159 / 100000 < PI < 31416 / 10000.
Proof.
  pose proof (PI_2_3_7_ineq 3) as H.
  unfold PI_2_3_7_tg, tg_alt, Ratan_seq in H. simpl in H. lra.
Qed.

Lemma sin_enclosure (x : R) : 0 <= x -> x <= 1 -> sin_lo x <= sin x <= sin_hi x.
Proof.
  intros H0 H1. pose proof PI_enclosure as Hpi.
  pose proof (sin_bound x 0 H0 ltac:(lra)) as H.
  unfold sin_approx, sin_term in H. simpl in H.
  unfold sin_lo, sin_hi. lra.
Qed.

Lemma cos_enclosure (x : R) : 0 <= x -> x <= 1 -> cos_lo x <= cos x <= cos_hi x.
Proof.
  intros H0 H1.
  destruct (sin_enclosure (x / 2) ltac:(lra) ltac:(lra)) as [Hl Hh].
  assert (Hlo : 0 <= sin_lo (x / 2)).
  { unfold sin_lo. set (h := x / 2). assert (0 <= h <= 1 / 2) by (unfold h; lra).
    replace (h - h * h * h / 6) with (h * (1 - h * h / 6)) by field. nra. }
  assert (Hcos : cos x = 1 - 2 * sin (x / 2) * sin (x / 2)).
  { rewrite <- cos_2a_sin. f_equal. field. }
  set (s := sin (x / 2)) in *. set (sl := sin_lo (x / 2)) in *.
  set (sh := sin_hi (x / 2)) in *.
  assert (sl * sl <= s * s) by nra.
  assert (s * s <= sh * sh) by nra.
  unfold cos_lo, cos_hi. fold sl sh. lra.
Qed.

Lemma tan_enclosure (x lo hi : R) :
  0 < x -> x <= 1 -> 0 < cos_lo x ->
  0 <= lo -> lo * cos_hi x <= sin_lo x ->
  sin_hi x <= hi * cos_lo x ->
  lo <= tan x <= hi.
Proof.
  intros H0 H1 Hc Hlo Hl Hh.
  destruct (sin_enclosure x ltac:(lra) H1) as [Sl Sh].
  destruct (cos_enclosure x ltac:(lra) H1) as [Cl Ch].
  assert (Hcos : 0 < cos x) by lra.
  assert (Hhi : 0 <= hi).
  { destruct (Rle_dec 0 hi) as [|Hn]; [assumption|]. exfalso.
    assert (0 <= sin_lo x).
    { unfold sin_lo. replace (x - x * x * x / 6) with (x * (1 - x * x / 6)) by field. nra. }
    nra. }
  unfold tan. split.
  - apply Rmult_le_reg_r with (cos x); [exact Hcos|].
    unfold Rdiv. rewrite Rmult_assoc, Rinv_l by lra. nra.
  - apply Rmult_le_reg_r with (cos x); [exact Hcos|].
    unfold Rdiv. rewrite Rmult_assoc, Rinv_l by lra. nra.
Qed.

Lemma sqrt2_times_lt (r u : R) : 0 < r -> 0 <= u -> u * u < 2 * (r * r) -> u < sqrt 2 * r.
Proof.
  intros Hr Hu Hsq. pose proof sqrt2_sq as H22. pose proof sqrt2_pos as H2.
  assert (0 < sqrt 2 * r) by (apply Rmult_lt_0_compat; assumption).
  assert ((sqrt 2 * r) * (sqrt 2 * r) = 2 * (r * r)).
  { replace (sqrt 2 * r * (sqrt 2 * r)) with (sqrt 2 * sqrt 2 * (r * r)) by ring.
    now rewrite H22. }
  nra.
Qed.

Lemma sqrt2_times_gt (r u : R) : 0 < r -> 0 < u -> 2 * (r * r) < u * u -> sqrt 2 * r < u.
Proof.
  intros Hr Hu Hsq. pose proof sqrt2_sq as H22. pose proof sqrt2_pos as H2.
  assert (0 < sqrt 2 * r) by (apply Rmult_lt_0_compat; assumption).
  assert ((sqrt 2 * r) * (sqrt 2 * r) = 2 * (r * r)).
  { replace (sqrt 2 * r * (sqrt 2 * r)) with (sqrt 2 * sqrt 2 * (r * r)) by ring.
    now rewrite H22. }
  nra.
Qed.

(** [rational_rate r < hi] as soon as [tan (5 pi / hi) < sqrt 2 * r]; [xq]
    is a rational above [5 pi / hi] and [u] a rational above [tan xq]. *)
Lemma rational_rate_upper (r hi xq u : R) :
  0 < r -> 0 < hi -> 5 * PI / hi <= xq -> xq <= 1 ->
  0 < cos_lo xq -> sin_hi xq <= u * cos_lo xq ->
  u * u < 2 * (r * r) ->
  rational_rate r < hi.
Proof.
  intros Hr Hhi Hx Hx1 Hc Hu Hsq.
  pose proof PI_enclosure as Hpi.
  assert (Hx0 : 0 < 5 * PI / hi) by (apply Rdiv_lt_0_compat; lra).
  destruct (tan_enclosure xq 0 u ltac:(lra) Hx1 Hc ltac:(lra)) as [Ht0 Htu].
  { unfold sin_lo. replace (xq - xq * xq * xq / 6) with (xq * (1 - xq * xq / 6)) by field.
    assert (0 < xq) by lra. nra. }
  { exact Hu. }
  assert (Htan : tan (5 * PI / hi) <= u).
  { destruct (Req_dec_T (5 * PI / hi) xq) as [->|Hne]; [exact Htu|].
    apply Rle_trans with (tan xq); [|exact Htu].
    apply Rlt_le, tan_increasing; lra. }
  assert (Hcu : u < sqrt 2 * r) by (apply sqrt2_times_lt; lra).
  assert (Hth : 5 * PI / hi < atan (sqrt 2 * r)).
  { rewrite <- (atan_tan (5 * PI / hi)) by (split; lra).
    apply atan_increasing. lra. }
  unfold rational_rate.
  assert (Hpos : 0 < atan (sqrt 2 * r)) by lra.
  apply Rmult_lt_reg_r with (atan (sqrt 2 * r)); [exact Hpos|].
  unfold Rdiv at 1. rewrite Rmult_assoc, Rinv_l by lra.
  apply Rmult_lt_compat_l with (r := hi) in Hth; [|exact Hhi].
  replace (hi * (5 * PI / hi)) with (5 * PI) in Hth by (field; lra). lra.
Qed.

(** [lo < rational_rate r] as soon as [sqrt 2 * r < tan (5 pi / lo)]; [yq]
    is a rational below [5 pi / lo] and [l] a rational below [tan yq]. *)
Lemma rational_rate_lower (r lo yq l : R) :
  0 < r -> 10 < lo -> 0 < yq -> yq <= 5 * PI / lo -> yq <= 1 ->
  0 < cos_lo yq -> 0 < l -> l * cos_hi yq <= sin_lo yq ->
  2 * (r * r) < l * l ->
  lo < rational_rate r.
Proof.
  intros Hr Hlo Hy0 Hy Hy1 Hc Hl Hle Hsq.
  pose proof PI_enclosure as Hpi.
  assert (Hx2 : 5 * PI / lo < PI / 2).
  { apply Rmult_lt_reg_r with lo; [lra|].
    unfold Rdiv at 1. rewrite Rmult_assoc, Rinv_l by lra. nra. }
  destruct (tan_enclosure yq l (sin_hi yq / cos_lo yq) Hy0 Hy1 Hc ltac:(lra) Hle)
    as [Htl _].
  { unfold Rdiv. rewrite Rmult_assoc, Rinv_l by lra. lra. }
  assert (Htan : l <= tan (5 * PI / lo)).
  { destruct (Req_dec_T yq (5 * PI / lo)) as [<-|Hne]; [exact Htl|].
    apply Rle_trans with (tan yq); [exact Htl|].
    apply Rlt_le, tan_increasing; lra. }
  assert (Hcl : sqrt 2 * r < l) by (apply sqrt2_times_gt; lra).
  assert (Hth : atan (sqrt 2 * r) < 5 * PI / lo).
  { rewrite <- (atan_tan (5 * PI / lo)) by (split; lra).
    apply atan_increasing. lra. }
  pose proof (theta_pos r Hr) as Hpos. cbv zeta in Hpos.
  unfold rational_rate.
  apply Rmult_lt_reg_r with (atan (sqrt 2 * r)); [exact Hpos|].
  unfold Rdiv at 1. rewrite Rmult_assoc, Rinv_l by lra.
  apply Rmult_lt_compat_l with (r := lo) in Hth; [|lra].
  replace (lo * (5 * PI / lo)) with (5 * PI) in Hth by (field; lra). lra.
Qed.

Lemma py_int_floor (x : R) (z : Z) : (0 <= z)%Z -> IZR z <= x < IZR z + 1 -> py_int x = z.
Proof.
  intros Hz Hx. unfold py_int.
  assert (0 <= x) by (apply IZR_le in Hz; lra).
  replace (Rleb 0 x) with true by (symmetry; now apply Rleb_true).
  now apply Zfloor_eq.
Qed.

(** The rate of the first run: about 37.75 Hz. *)
Lemma rational_rate_5_16 : 376 / 10 < rational_rate (5 / 16) < 38.
Proof.
  pose proof PI_enclosure as Hpi. split.
  - apply (rational_rate_lower (5 / 16) (376 / 10) (4177 / 10000) (4430 / 10000));
      unfold cos_lo, cos_hi, sin_lo, sin_hi; lra.
  - apply (rational_rate_upper (5 / 16) 38 (4134 / 10000) (4390 / 10000));
      unfold cos_lo, cos_hi, sin_lo, sin_hi; lra.
Qed.

(** The rate of the second run: about 222.5 Hz. *)
Lemma rational_rate_1_20 : 222 < rational_rate (1 / 20) < 223.
Proof.
  pose proof PI_enclosure as Hpi. split.
  - apply (rational_rate_lower (1 / 20) 222 (7075 / 100000) (708 / 10000));
      unfold cos_lo, cos_hi, sin_lo, sin_hi; lra.
  - apply (rational_rate_upper (1 / 20) 223 (7044 / 100000) (706 / 10000));
      unfold cos_lo, cos_hi, sin_lo, sin_hi; lra.
Qed.

(** ** Running [detect_r_peaks] on fractions *)

Lemma detect_r_peaks_unfold (ecg : list R) (fs tf : R) :
  detect_r_peaks ecg fs tf =
  let* ba := butter2_bandpass 5 15 fs in
  outcome_map (map Z.of_nat)
    (detect_r_peaks_with (fst ba) (snd ba) ecg (window_size fs) (min_distance fs) tf).
Proof.
  unfold detect_r_peaks, bandpass_stage, enhancer_stage, peak_stage, detect_r_peaks_with.
  destruct (butter2_bandpass 5 15 fs) as [[b a]|e]; [|reflexivity].
  cbn [bind fst snd].
  destruct (filtfilt b a ecg) as [filtered|e]; [|reflexivity].
  cbn [bind].
  destruct (nonlinear_enhancer filtered (window_size fs)) as [integrated|e];
    [|reflexivity].
  cbn [bind].
  destruct (peak_detector integrated tf (min_distance fs)) as [peaks|e]; reflexivity.
Qed.

Lemma frac_to_R_fr (n d : Z) : (0 < d)%Z -> frac_to_R (fr n d) = IZR n / IZR d.
Proof.
  intros Hd. unfold fr. rewrite frac_to_R_Frac by (now rewrite BigZ.spec_of_Z).
  now rewrite !BigZ.spec_of_Z.
Qed.

(** At a rate with rational coefficients, on rational samples, the
    detection is the run on fractions. *)
Lemma detect_r_peaks_on_fractions (n d : Z) (ecg : list frac) (tn td : Z) :
  (0 < n)%Z -> (0 < d)%Z -> (6 * (n * n) < d * d)%Z -> (0 < td)%Z ->
  let fs := rational_rate (IZR n / IZR d) in
  detect_r_peaks (map frac_to_R ecg) fs (IZR tn / IZR td) =
  outcome_map (map Z.of_nat)
    (detect_r_peaks_with (fst (butter_rational (fr n d))) (snd (butter_rational (fr n d)))
                         ecg (window_size fs) (min_distance fs) (fr tn td)).
Proof.
  intros Hn Hd Hsmall Htd fs.
  assert (Dn : 0 < IZR n) by (now apply IZR_lt).
  assert (Dd : 0 < IZR d) by (now apply IZR_lt).
  assert (Hr : 0 < IZR n / IZR d) by (now apply Rdiv_lt_0_compat).
  assert (Hs : 6 * (IZR n / IZR d * (IZR n / IZR d)) < 1).
  { apply IZR_lt in Hsmall. rewrite !mult_IZR in Hsmall.
    replace (IZR n / IZR d * (IZR n / IZR d)) with (IZR n * IZR n / (IZR d * IZR d))
      by (field; lra).
    assert (Hdd : 0 < IZR d * IZR d) by nra.
    apply Rmult_lt_reg_r with (IZR d * IZR d); [assumption|].
    replace (6 * (IZR n * IZR n / (IZR d * IZR d)) * (IZR d * IZR d))
      with (6 * (IZR n * IZR n)) by (field; lra).
    lra. }
  rewrite detect_r_peaks_unfold. fold fs. unfold fs at 1.
  rewrite (butter_at_rational_rate _ Hr Hs).
  rewrite <- (frac_to_R_fr n d Hd), <- (frac_to_R_fr tn td Htd).
  rewrite (morph_butter_rational frac_to_R). cbn [bind fst snd].
  now rewrite (morph_detect_r_peaks_with frac_to_R).
Qed.

Lemma two_impulses_R : two_impulses = map frac_to_R two_impulses.
Proof.
  unfold two_impulses. rewrite !map_app, !map_repeat. cbn [map].
  now rewrite !(phi_ofZ frac_to_R).
Qed.

Lemma one_impulse_R : one_impulse = map frac_to_R one_impulse.
Proof.
  unfold one_impulse. rewrite !map_app, !map_repeat. cbn [map].
  now rewrite !(phi_ofZ frac_to_R).
Qed.

Lemma window_and_distance_5_16 :
  window_size (rational_rate (5 / 16)) = 5%Z /\
  min_distance (rational_rate (5 / 16)) = 22%Z /\
  py_round (15 / 100 * rational_rate (5 / 16)) = 6%Z /\
  py_round (6 / 10 * rational_rate (5 / 16)) = 23%Z.
Proof.
  pose proof rational_rate_5_16 as H.
  set (fs := rational_rate (5 / 16)) in *.
  assert (F1 : Zfloor (15 / 100 * fs) = 5%Z) by (apply Zfloor_eq; lra).
  assert (F2 : Zfloor (6 / 10 * fs) = 22%Z) by (apply Zfloor_eq; lra).
  repeat split.
  - apply py_int_floor; [lia | lra].
  - apply py_int_floor; [lia | lra].
  - unfold py_round. rewrite F1.
    replace (Rltb (15 / 100 * fs - 5) (1 / 2)) with false
      by (symmetry; apply Rltb_false; lra).
    replace (Rltb (1 / 2) (15 / 100 * fs - 5)) with true
      by (symmetry; apply Rltb_true; lra).
    reflexivity.
  - unfold py_round. rewrite F2.
    replace (Rltb (6 / 10 * fs - 22) (1 / 2)) with false
      by (symmetry; apply Rltb_false; lra).
    replace (Rltb (1 / 2) (6 / 10 * fs - 22)) with true
      by (symmetry; apply Rltb_true; lra).
    reflexivity.
Qed.

Lemma window_and_distance_1_20 :
  window_size (rational_rate (1 / 20)) = 33%Z /\
  min_distance (rational_rate (1 / 20)) = 133%Z.
Proof.
  pose proof rational_rate_1_20 as H.
  split; apply py_int_floor; try lia; lra.
Qed.

Lemma detect_two_impulses :
  detect_r_peaks two_impulses (rational_rate (5 / 16)) (6 / 10) = Returns [3; 25]%Z.
Proof.
  destruct window_and_distance_5_16 as (Hw & Hd & _).
  rewrite two_impulses_R.
  rewrite (detect_r_peaks_on_fractions 5 16 two_impulses 6 10) by lia.
  cbv zeta. rewrite Hw, Hd.
  vm_compute. reflexivity.
Qed.

Lemma detect_one_impulse :
  detect_r_peaks one_impulse (rational_rate (1 / 20)) (6 / 10) = Returns [16]%Z.
Proof.
  destruct window_and_distance_1_20 as (Hw & Hd).
  rewrite one_impulse_R.
  rewrite (detect_r_peaks_on_fractions 1 20 one_impulse 6 10) by lia.
  cbv zeta. rewrite Hw, Hd.
  vm_compute. reflexivity.
Qed.

(** ** Spacing of the returned beats *)

Lemma detect_r_peaks_rate (ecg : list R) (fs tf : R) (peaks : list Z) :
  detect_r_peaks ecg fs tf = Returns peaks -> 30 < fs.
Proof.
  intros Hrun. destruct (Rlt_dec 30 fs) as [|Hle]; [assumption|].
  unfold detect_r_peaks, bandpass_stage in Hrun.
  rewrite butter2_bandpass_below_nyquist in Hrun by lra. discriminate.
Qed.

Lemma detect_r_peaks_gaps (ecg : list R) (fs tf : R) (peaks : list Z) :
  detect_r_peaks ecg fs tf = Returns peaks ->
  gaps_at_least (min_distance fs) peaks /\
  min_distance fs = Zfloor (6 / 10 * fs) /\ (18 <= min_distance fs)%Z.
Proof.
  intros Hrun. pose proof (detect_r_peaks_rate _ _ _ _ Hrun) as Hfs.
  destruct (detect_r_peaks_Returns _ _ _ _ Hrun)
    as (filtered & integrated & out & _ & _ & Hout & -> & _ & _).
  apply peak_detector_spec in Hout as (Hd & _ & Hs).
  assert (Hfloor : min_distance fs = Zfloor (6 / 10 * fs)).
  { unfold min_distance, py_int.
    now replace (Rleb 0 (6 / 10 * fs)) with true by (symmetry; apply Rleb_true; lra). }
  split; [|split; [exact Hfloor|]].
  - unfold gaps_at_least. eapply StronglySorted_map; [|exact Hs].
    intros p q Hpq. cbv beta in Hpq. lia.
  - rewrite Hfloor. apply Zfloor_lub. lra.
Qed.

(** C2 (as the code has it): the indices [detect_r_peaks] returns are
    strictly increasing and any two of them are at least
    [int(0.6 * fs)] samples apart, the product truncated, not rounded. *)
Theorem beats_at_least_truncated_distance_apart
    (ecg : list R) (fs tf : R) (peaks : list Z) :
  detect_r_peaks ecg fs tf = Returns peaks ->
  gaps_at_least (min_distance fs) peaks /\
  min_distance fs = Zfloor (6 / 10 * fs) /\ (18 <= min_distance fs)%Z.
Proof. apply detect_r_peaks_gaps. Qed.

Lemma beats_at_least_truncated_distance_apart_witness :
  detect_r_peaks two_impulses (rational_rate (5 / 16)) (6 / 10) = Returns [3; 25]%Z /\
  gaps_at_least (min_distance (rational_rate (5 / 16))) [3; 25]%Z /\
  min_distance (rational_rate (5 / 16)) = Zfloor (6 / 10 * rational_rate (5 / 16)) /\
  (18 <= min_distance (rational_rate (5 / 16)))%Z.
Proof.
  split; [exact detect_two_impulses|].
  apply (beats_at_least_truncated_distance_apart
           two_impulses (rational_rate (5 / 16)) (6 / 10) [3; 25]%Z).
  exact detect_two_impulses.
Defined.

(** C2 (as stated) fails: at about 37.75 Hz the two beats found in
    [two_impulses] are 22 samples apart, and [round(0.6 * fs)] is 23. *)
Lemma beats_closer_than_rounded_distance :
  detect_r_peaks two_impulses (rational_rate (5 / 16)) (6 / 10) = Returns [3; 25]%Z /\
  py_round (6 / 10 * rational_rate (5 / 16)) = 23%Z /\
  ~ gaps_at_least (py_round (6 / 10 * rational_rate (5 / 16))) [3; 25]%Z.
Proof.
  destruct window_and_distance_5_16 as (_ & _ & _ & Hround).
  split; [exact detect_two_impulses|]. split; [exact Hround|].
  rewrite Hround. unfold gaps_at_least. intros Hs.
  inversion Hs as [|p l _ Hall]; subst.
  inversion Hall as [|q l' Hpq _]; subst. lia.
Qed.

(** ** Range of the returned indices *)

(** Every returned index lies in the interior of the envelope, whose
    length is the larger of [len(ecg) - 1] and the window length; when the
    window is not longer than the squared sequence, the index is below
    [len(ecg) - 1], a position of the recording other than the last. *)
Lemma detect_r_peaks_range (ecg : list R) (fs tf : R) (peaks : list Z) :
  detect_r_peaks ecg fs tf = Returns peaks ->
  Forall (fun p => (1 <= p < Z.max (Z.of_nat (length ecg) - 1) (window_size fs) - 1)%Z)
         peaks /\
  ((window_size fs <= Z.of_nat (length ecg) - 1)%Z ->
   Forall (fun p => (0 <= p < Z.of_nat (length ecg) - 1)%Z) peaks).
Proof.
  intros Hrun.
  destruct (detect_r_peaks_Returns _ _ _ _ Hrun)
    as (filtered & integrated & out & _ & Henv & Hout & -> & Hlen & Hlong).
  apply nonlinear_enhancer_length in Henv as (Hw & _ & Hlen').
  apply peak_detector_spec in Hout as (_ & Hb & _).
  rewrite Hlen', Hlen in Hb.
  assert (Hall : Forall (fun p => (1 <= p < Z.max (Z.of_nat (length ecg) - 1)
                                                    (window_size fs) - 1)%Z)
                        (map Z.of_nat out)).
  { apply Forall_map. eapply List.Forall_impl; [|exact Hb].
    cbv beta. intros p Hp. lia. }
  split; [exact Hall|].
  intros Hsmall. eapply List.Forall_impl; [|exact Hall].
  cbv beta. intros p Hp. lia.
Qed.

(** C9 fails on a recording shorter than the window: at about 222.5 Hz
    the window has 33 samples, [np.convolve(..., mode='same')] returns an
    envelope of 33 samples for the 15 squared differences of the 16-sample
    recording [one_impulse], and the beat is reported at index 16, which
    is no index of the recording. *)
Lemma beat_index_past_the_recording :
  detect_r_peaks one_impulse (rational_rate (1 / 20)) (6 / 10) = Returns [16]%Z /\
  length (@one_impulse R _) = 16%nat /\
  ~ Forall (fun p => (0 <= p < Z.of_nat (length (@one_impulse R _)) - 1)%Z) [16]%Z.
Proof.
  split; [exact detect_one_impulse|]. split; [reflexivity|].
  intros Hall. inversion Hall as [|p l Hp _]; subst.
  change (length (@one_impulse R _)) with 16%nat in Hp. lia.
Qed.

(** ** A constant recording *)

Lemma firstn_repeat {A : Type} (c : A) (k n : nat) :
  firstn k (repeat c n) = repeat c (Nat.min k n).
Proof.
  revert n. induction k as [|k IH]; intros [|n]; simpl; [reflexivity..|].
  now rewrite IH.
Qed.

Lemma skipn_repeat {A : Type} (c : A) (k n : nat) :
  skipn k (repeat c n) = repeat c (n - k).
Proof.
  revert n. induction k as [|k IH]; intros [|n]; simpl; auto.
Qed.

Lemma rev_repeat {A : Type} (c : A) (n : nat) : rev (repeat c n) = repeat c n.
Proof.
  induction n as [|n IH]; [reflexivity|].
  simpl. rewrite IH. symmetry. apply repeat_cons.
Qed.

Lemma hd_repeat {A : Type} (d c : A) (n : nat) : (0 < n)%nat -> hd d (repeat c n) = c.
Proof. destruct n; [lia | reflexivity]. Qed.

Lemma last_repeat {A : Type} (d c : A) (n : nat) :
  (0 < n)%nat -> last (repeat c n) d = c.
Proof.
  intros Hn. destruct n as [|n]; [lia|]. clear Hn.
  induction n as [|n IH]; [reflexivity|]. exact IH.
Qed.

Lemma map_constant {A B : Type} (f : A -> B) (c : B) (l : list A) :
  (forall x, f x = c) -> map f l = repeat c (length l).
Proof. intros Hf. induction l as [|x l IH]; simpl; [|rewrite Hf, IH]; reflexivity. Qed.

(** The coefficients of the band-pass for a rate above 30 Hz: the numerator
    is [k (z^2 - 1)^2], the denominator is monic and its coefficients do not
    sum to zero. *)
Lemma butter2_bandpass_shape (fs : R) :
  30 < fs ->
  exists k a1 a2 a3 a4,
    butter2_bandpass 5 15 fs =
      Returns ([k; 0; - 2 * k; 0; k], [1; a1; a2; a3; a4]) /\
    1 + a1 + a2 + a3 + a4 <> 0.
Proof.
  intros Hfs. unfold butter2_bandpass.
  rewrite (xdiv_fin fs 2) by lra.
  rewrite !xdiv_fin by lra.
  assert (Hhalf : 0 < fs / 2) by lra.
  assert (H1 : 0 < 5 / (fs / 2)) by (apply Rdiv_lt_0_compat; lra).
  assert (H2 : 5 / (fs / 2) < 15 / (fs / 2)).
  { unfold Rdiv. apply Rmult_lt_compat_r; [apply Rinv_0_lt_compat|]; lra. }
  assert (H3 : 15 / (fs / 2) < 1).
  { apply Rmult_lt_reg_r with (fs / 2); [assumption|].
    unfold Rdiv at 1. rewrite Rmult_assoc, Rinv_l by lra. lra. }
  replace (Rltb 0 (5 / (fs / 2))) with true by (symmetry; now apply Rltb_true).
  replace (Rltb (5 / (fs / 2)) (15 / (fs / 2))) with true
    by (symmetry; now apply Rltb_true).
  replace (Rltb (15 / (fs / 2)) 1) with true by (symmetry; now apply Rltb_true).
  cbn [andb].
  set (w1 := 4 * tan (PI * (5 / (fs / 2)) / 2)).
  set (w2 := 4 * tan (PI * (15 / (fs / 2)) / 2)).
  pose proof PI_RGT_0 as Hpi.
  assert (Hw1 : 0 < w1).
  { unfold w1. apply Rmult_lt_0_compat; [lra|]. apply tan_gt_0; nra. }
  assert (Hw12 : w1 < w2).
  { unfold w1, w2. apply Rmult_lt_compat_l; [lra|]. apply tan_increasing; nra. }
  set (bw := w2 - w1). set (wo2 := w1 * w2).
  assert (Hbw : 0 < bw) by (unfold bw; lra).
  assert (Hwo : 0 < wo2) by (unfold wo2; nra).
  pose proof sqrt2_pos as Hs.
  assert (Hsb : 0 < sqrt 2 * bw) by (apply Rmult_lt_0_compat; assumption).
  set (sb := sqrt 2 * bw) in *.
  assert (Hsbw : 0 < sb * wo2) by (apply Rmult_lt_0_compat; assumption).
  assert (Hbb : 0 < bw * bw) by (apply Rmult_lt_0_compat; assumption).
  assert (Hww : 0 < wo2 * wo2) by (apply Rmult_lt_0_compat; assumption).
  cbv zeta.
  set (A0 := 256 + 64 * sb + 16 * (2 * wo2 + bw * bw) + 4 * sb * wo2 + wo2 * wo2).
  assert (HA0 : 0 < A0) by (unfold A0; nra).
  eexists _, _, _, _, _. split; [reflexivity|].
  intros Hsum.
  assert (E : 16 * (wo2 * wo2) / A0 = 0).
  { rewrite <- Hsum. unfold A0 in *. field. lra. }
  assert (0 < 16 * (wo2 * wo2) / A0) by (apply Rdiv_lt_0_compat; lra).
  lra.
Qed.

Lemma map_div_one (l : list R) : map (fun c => c / 1) l = l.
Proof.
  induction l as [|x l IH]; simpl; [reflexivity|].
  rewrite IH. f_equal. field.
Qed.

Section SteadyState.

Variables k a1 a2 a3 a4 : R.
Hypothesis denominator_sum : 1 + a1 + a2 + a3 + a4 <> 0.

Local Abbreviation b := [k; 0; - 2 * k; 0; k].
Local Abbreviation a := [1; a1; a2; a3; a4].

(** The delay values of the steady state of the step response. *)
Lemma lfilter_zi_bandpass : lfilter_zi b a = Returns [- k; - k; k; k].
Proof.
  unfold lfilter_zi. cbn [strip_leading_zeros neqb R_numeric nofZ].
  replace (Reqb 1 (IZR 0)) with false by (symmetry; apply Reqb_false; lra).
  unfold lfilter_zi_normalized. cbn [neqb R_numeric nofZ ndiv nsub nmul].
  replace (Reqb 1 (IZR 0)) with false by (symmetry; apply Reqb_false; lra).
  cbn [length Nat.max Nat.ltb Nat.leb].
  rewrite !map_div_one.
  unfold pad_to. cbn [length Nat.sub repeat app].
  unfold nsum. cbn [fold_left nadd R_numeric nofZ].
  replace (Reqb (0 + 1 + a1 + a2 + a3 + a4) 0) with false
    by (symmetry; apply Reqb_false; lra).
  cbn [tl combine map fst snd suffix_sums nadd R_numeric].
  replace ((0 + k + 0 + - 2 * k + 0 + k) / (0 + 1 + a1 + a2 + a3 + a4)) with 0
    by (field; lra).
  f_equal. repeat (apply (f_equal2 (@cons R)); [ring|]). reflexivity.
Qed.

(** With those delay values scaled by the level [c], a sample at level [c]
    gives the output 0 and leaves the delay values as they are. *)
Lemma bandpass_step_steady (c : R) :
  lfilter_step b a [- k * c; - k * c; k * c; k * c] c =
  (0, [- k * c; - k * c; k * c; k * c]).
Proof.
  unfold lfilter_step.
  cbn [hd tl next_state nadd nsub nmul R_numeric nofZ].
  apply f_equal2; [ring|].
  repeat (apply (f_equal2 (@cons R)); [ring|]). reflexivity.
Qed.

Lemma lfilter_run_steady (b' a' z : list R) (c y : R) (m : nat) :
  lfilter_step b' a' z c = (y, z) ->
  lfilter_run b' a' z (repeat c m) = (repeat y m, z).
Proof.
  intros Hstep. induction m as [|m IH]; [reflexivity|].
  cbn [repeat lfilter_run]. now rewrite Hstep, IH.
Qed.

Lemma lfilter_bandpass_constant (c : R) (m : nat) :
  lfilter b a (repeat c m) (map (fun z => z * c) [- k; - k; k; k]) =
  Returns (repeat 0 m, [- k * c; - k * c; k * c; k * c]).
Proof.
  unfold lfilter, lfilter_normalized. cbn [neqb R_numeric nofZ ndiv].
  replace (Reqb 1 (IZR 0)) with false by (symmetry; apply Reqb_false; lra).
  rewrite !map_div_one.
  cbn [length map Nat.max Nat.sub Nat.eqb negb].
  unfold pad_to. cbn [length Nat.sub repeat app].
  f_equal. apply lfilter_run_steady, bandpass_step_steady.
Qed.

Lemma odd_ext_constant (c : R) (n e : nat) :
  (e < n)%nat -> odd_ext (repeat c n) e = repeat c (e + (n + e)).
Proof.
  intros Hn. unfold odd_ext.
  rewrite hd_repeat, last_repeat by lia.
  rewrite repeat_length, !skipn_repeat, !firstn_repeat, !rev_repeat, !map_repeat.
  cbn [nsub nmul nofZ R_numeric].
  replace (IZR 2 * c - c) with c by ring.
  rewrite !repeat_app. repeat f_equal; lia.
Qed.

(** The band-pass stage removes a constant level altogether. *)
Lemma filtfilt_constant (c : R) (n : nat) :
  (15 < n)%nat -> filtfilt b a (repeat c n) = Returns (repeat 0 n).
Proof.
  intros Hn. unfold filtfilt.
  cbn [length Nat.max Nat.mul Nat.add]. rewrite repeat_length.
  replace (n <=? 15)%nat with false by (symmetry; apply Nat.leb_gt; lia).
  rewrite odd_ext_constant by lia.
  rewrite lfilter_zi_bandpass. cbn [bind].
  rewrite hd_repeat by lia. cbn [nmul R_numeric].
  rewrite lfilter_bandpass_constant. cbn [bind fst].
  rewrite last_repeat by lia. rewrite rev_repeat.
  rewrite lfilter_bandpass_constant. cbn [bind fst].
  rewrite rev_repeat, repeat_length, skipn_repeat, firstn_repeat.
  do 2 f_equal. lia.
Qed.

End SteadyState.

(** *** An all-zero signal through the enhancer and the peak search *)

Lemma nth_repeat_zero (i n : nat) : nth i (repeat 0 n) 0 = 0.
Proof. revert i. induction n as [|n IH]; intros [|i]; simpl; auto. Qed.

Lemma fold_add_zero (l : list R) :
  Forall (fun v => v = 0) l -> fold_left Rplus l 0 = 0.
Proof.
  induction 1 as [|v l -> _ IH]; [reflexivity|].
  simpl. now rewrite Rplus_0_l.
Qed.

Lemma convolve_full_at_zero_l (v : list R) (n k : nat) :
  convolve_full_at (repeat 0 n) v k = 0.
Proof.
  unfold convolve_full_at, nsum. apply fold_add_zero.
  apply Forall_map, Forall_forall. intros j _.
  cbn [nmul nofZ R_numeric]. rewrite nth_repeat_zero. ring.
Qed.

Lemma convolve_full_at_zero_r (a : list R) (n k : nat) :
  convolve_full_at a (repeat 0 n) k = 0.
Proof.
  unfold convolve_full_at, nsum. apply fold_add_zero.
  apply Forall_map, Forall_forall. intros j _.
  cbn [nmul nofZ R_numeric]. rewrite nth_repeat_zero. ring.
Qed.

Lemma np_convolve_same_zero (n : nat) (v : list R) :
  (0 < n)%nat -> v <> [] ->
  np_convolve_same (repeat 0 n) v = Returns (repeat 0 (Nat.max n (length v))).
Proof.
  intros Hn Hv. unfold np_convolve_same.
  destruct n as [|n]; [lia|]. destruct v as [|v0 v]; [contradiction|].
  change (0 :: repeat 0 n) with (repeat 0 (S n)).
  cbn [repeat]. change (0 :: repeat 0 n) with (repeat 0 (S n)).
  rewrite repeat_length.
  destruct (S n <? length (v0 :: v))%nat eqn:E.
  - apply Nat.ltb_lt in E.
    f_equal. rewrite (map_constant _ 0).
    + rewrite length_seq. f_equal. lia.
    + intros i. rewrite repeat_length. apply convolve_full_at_zero_r.
  - apply Nat.ltb_ge in E.
    f_equal. rewrite (map_constant _ 0).
    + rewrite length_seq, repeat_length. f_equal. lia.
    + intros i. apply convolve_full_at_zero_l.
Qed.

Lemma np_diff_zero (n : nat) : np_diff Rminus (repeat 0 n) = repeat 0 (n - 1).
Proof.
  destruct n as [|n]; [reflexivity|].
  induction n as [|n IH]; [reflexivity|].
  change (repeat 0 (S (S n))) with (0 :: 0 :: repeat 0 n).
  rewrite np_diff_cons.
  change (0 :: repeat 0 n) with (repeat 0 (S n)).
  rewrite IH. cbn [Nat.sub repeat]. rewrite Nat.sub_0_r.
  f_equal. ring.
Qed.

Lemma nonlinear_enhancer_zero (n : nat) (w : Z) :
  (1 < n)%nat -> (0 < w)%Z ->
  nonlinear_enhancer (repeat 0 n) w =
  Returns (repeat 0 (Nat.max (n - 1) (Z.to_nat w))).
Proof.
  intros Hn Hw. unfold nonlinear_enhancer, squared_derivative.
  replace (w <? 0)%Z with false by (symmetry; apply Z.ltb_ge; lia).
  cbn [nsub nmul R_numeric]. rewrite np_diff_zero, map_repeat.
  replace (0 * 0) with 0 by ring.
  rewrite np_convolve_same_zero.
  - now rewrite repeat_length.
  - lia.
  - destruct (Z.to_nat w) eqn:E; [lia | discriminate].
Qed.

Lemma local_maxima_loop_zero (fuel n i i_max : nat) :
  local_maxima_loop fuel (repeat 0 n) i i_max = [].
Proof.
  revert i. induction fuel as [|fuel IH]; intros i; [reflexivity|].
  cbn [local_maxima_loop nltb R_numeric nofZ].
  rewrite !nth_repeat_zero.
  replace (Rltb 0 0) with false by (symmetry; apply Rltb_false; lra).
  destruct (i <? i_max)%nat; [apply IH | reflexivity].
Qed.

Lemma peak_detector_zero (n : nat) (tf : R) (distance : Z) :
  (0 < n)%nat -> (1 <= distance)%Z ->
  peak_detector (repeat 0 n) tf distance = Returns [].
Proof.
  intros Hn Hd. unfold peak_detector.
  destruct n as [|n]; [lia|]. cbn [repeat np_max bind].
  unfold find_peaks.
  replace (distance <? 1)%Z with false by (symmetry; apply Z.ltb_ge; lia).
  change (0 :: repeat 0 n) with (repeat 0 (S n)).
  unfold local_maxima_1d. rewrite local_maxima_loop_zero. reflexivity.
Qed.

Lemma window_size_floor (fs : R) :
  30 < fs -> window_size fs = Zfloor (15 / 100 * fs) /\ (4 <= window_size fs)%Z.
Proof.
  intros Hfs.
  assert (E : window_size fs = Zfloor (15 / 100 * fs)).
  { unfold window_size, py_int.
    now replace (Rleb 0 (15 / 100 * fs)) with true by (symmetry; apply Rleb_true; lra). }
  split; [exact E|]. rewrite E. apply Zfloor_lub. lra.
Qed.

Lemma min_distance_floor (fs : R) :
  30 < fs -> min_distance fs = Zfloor (6 / 10 * fs) /\ (18 <= min_distance fs)%Z.
Proof.
  intros Hfs.
  assert (E : min_distance fs = Zfloor (6 / 10 * fs)).
  { unfold min_distance, py_int.
    now replace (Rleb 0 (6 / 10 * fs)) with true by (symmetry; apply Rleb_true; lra). }
  split; [exact E|]. rewrite E. apply Zfloor_lub. lra.
Qed.

Lemma bandpass_stage_constant (c fs : R) (n : nat) :
  30 < fs -> (15 < n)%nat -> bandpass_stage (repeat c n) fs = Returns (repeat 0 n).
Proof.
  intros Hfs Hn. unfold bandpass_stage.
  destruct (butter2_bandpass_shape fs Hfs) as (k & a1 & a2 & a3 & a4 & -> & Hsum).
  cbn [bind fst snd]. now apply filtfilt_constant.
Qed.

(** In exact arithmetic a constant recording that is long enough for the
    filter (more than 15 samples, the padding of [filtfilt]) has no beat at
    any rate at which the band-pass can be designed ([fs > 30]): the closed
    form of [lfilter_zi] is the steady state of the band-pass, the
    band-pass removes the level, so the envelope is zero everywhere and has
    no local maximum.  The cancellation of a non-zero level is exact only
    in the arithmetic of the reals. *)
Lemma constant_level_cancels_exactly (c fs tf : R) (n : nat) :
  30 < fs -> (15 < n)%nat ->
  detect_r_peaks (repeat c n) fs tf = Returns [].
Proof.
  intros Hfs Hn. unfold detect_r_peaks.
  rewrite bandpass_stage_constant by assumption. cbn [bind].
  destruct (window_size_floor fs Hfs) as (_ & Hw).
  destruct (min_distance_floor fs Hfs) as (_ & Hd).
  unfold enhancer_stage. rewrite nonlinear_enhancer_zero by lia. cbn [bind].
  unfold peak_stage. rewrite peak_detector_zero by lia. reflexivity.
Qed.

(** *** The runs that return, for any arithmetic *)

Lemma swap_with_first_length {A : Type} (p : nat) (rows : list A) :
  length (swap_with_first p rows) = length rows.
Proof.
  unfold swap_with_first. destruct p as [|p]; [reflexivity|].
  destruct rows as [|r0 rest]; [reflexivity|].
  destruct (rest !! p); [|reflexivity]. cbn [length]. now rewrite length_insert.
Qed.

Lemma swap_with_first_Forall {A : Type} (P : A -> Prop) (p : nat) (rows : list A) :
  Forall P (swap_with_first p rows) <-> Forall P rows.
Proof.
  unfold swap_with_first. destruct p as [|p]; [reflexivity|].
  destruct rows as [|r0 rest]; [reflexivity|].
  destruct (rest !! p) as [rp|] eqn:E; [|reflexivity].
  rewrite !Forall_cons_iff. split.
  - intros (Hrp & Hrest). split.
    + eapply (proj1 (Forall_lookup P _) Hrest p).
      apply list_lookup_insert_eq. eapply lookup_lt_Some. exact E.
    + rewrite <- (list_insert_id rest p rp E).
      rewrite <- (list_insert_insert_eq rest p rp r0).
      now apply Forall_insert.
  - intros (Hr0 & Hrest). split.
    + exact (proj1 (Forall_lookup P _) Hrest p rp E).
    + now apply Forall_insert.
Qed.

Section SolveLength.

Context {T : Type} `{Numeric T}.

Lemma back_substitute_length (u : list (list T)) :
  length (back_substitute u) = length u.
Proof. induction u as [|row u IH]; cbn [back_substitute length]; congruence. Qed.

Lemma eliminate_length (fuel : nat) (rows u : list (list T)) :
  (length rows <= fuel)%nat -> eliminate fuel rows = Returns u ->
  length u = length rows.
Proof.
  revert rows u. induction fuel as [|fuel IH]; intros rows u Hfuel Hrun.
  { destruct rows; [|cbn [length] in Hfuel; lia]. now injection Hrun as <-. }
  cbn [eliminate] in Hrun.
  pose proof (swap_with_first_length (pivot_index rows) rows) as Hlen.
  destruct (swap_with_first (pivot_index rows) rows) as [|pivot_row others].
  { injection Hrun as <-. exact Hlen. }
  destruct (neqb (hd (nofZ 0) pivot_row) (nofZ 0)); [discriminate|].
  apply bind_Returns in Hrun as (u' & Hu' & Hrun). injection Hrun as <-.
  apply IH in Hu'; [|rewrite length_map; cbn [length] in Hlen; lia].
  rewrite length_map in Hu'. cbn [length] in *. lia.
Qed.

Lemma lfilter_zi_solved_length (b a zi : list T) :
  neqb (hd (nofZ 0) a) (nofZ 0) = false ->
  lfilter_zi_solved b a = Returns zi ->
  length zi = (Nat.max (length a) (length b) - 1)%nat.
Proof.
  intros Ha0. unfold lfilter_zi_solved.
  assert (Hstrip : strip_leading_zeros a = a).
  { destruct a as [|a0 [|a1 a]]; cbn [strip_leading_zeros]; try reflexivity.
    cbn [hd] in Ha0. now rewrite Ha0. }
  rewrite Hstrip. destruct a as [|a0 a']; [discriminate|].
  unfold lfilter_zi_solved_normalized, np_linalg_solve.
  destruct (neqb a0 (nofZ 0)); [discriminate|].
  destruct (Nat.max (length (a0 :: a')) (length b) <? 2)%nat; [discriminate|].
  intros Hrun. apply bind_Returns in Hrun as (u & Hu & Hrun). injection Hrun as <-.
  apply eliminate_length in Hu; [|lia].
  now rewrite back_substitute_length, Hu, length_map, length_seq.
Qed.

End SolveLength.

Section Returning.

Context {T : Type} `{Numeric T}.

Lemma lfilter_returns (b a x zi : list T) :
  a <> [] -> neqb (hd (nofZ 0) a) (nofZ 0) = false ->
  length zi = (Nat.max (length a) (length b) - 1)%nat ->
  exists r, lfilter b a x zi = Returns r /\ length (fst r) = length x.
Proof.
  intros Ha Ha0 Hzi. destruct a as [|a0 a']; [contradiction|]. cbn [hd] in Ha0.
  unfold lfilter, lfilter_normalized. rewrite Ha0, Hzi, Nat.eqb_refl. cbn [negb].
  eexists. split; [reflexivity | apply lfilter_run_length].
Qed.

Lemma filtfilt_by_returns (initial : list T -> list T -> outcome (list T))
    (b a x zi : list T) :
  a <> [] -> neqb (hd (nofZ 0) a) (nofZ 0) = false ->
  initial b a = Returns zi ->
  length zi = (Nat.max (length a) (length b) - 1)%nat ->
  (3 * Nat.max (length a) (length b) < length x)%nat ->
  exists y, filtfilt_by initial b a x = Returns y /\ length y = length x.
Proof.
  intros Ha Ha0 Hinit Hzi Hx. unfold filtfilt_by.
  set (edge := (3 * Nat.max (length a) (length b))%nat) in *.
  replace (length x <=? edge)%nat with false by (symmetry; apply Nat.leb_gt; lia).
  rewrite Hinit. cbn [bind].
  destruct (lfilter_returns b a (odd_ext x edge)
              (map (fun z => nmul z (hd (nofZ 0) (odd_ext x edge))) zi) Ha Ha0)
    as (fwd & Hfwd & Hlf); [now rewrite length_map|].
  rewrite Hfwd. cbn [bind].
  destruct (lfilter_returns b a (rev (fst fwd))
              (map (fun z => nmul z (last (fst fwd) (nofZ 0))) zi) Ha Ha0)
    as (bwd & Hbwd & Hlb); [now rewrite length_map|].
  rewrite Hbwd. cbn [bind]. eexists. split; [reflexivity|].
  rewrite length_rev in Hlb. rewrite odd_ext_length in Hlf by lia.
  rewrite length_firstn, length_skipn, !length_rev. lia.
Qed.

Lemma nonlinear_enhancer_returns_nonempty (filtered : list T) (w : Z) :
  (2 <= length filtered)%nat -> (0 < w)%Z ->
  exists env, nonlinear_enhancer filtered w = Returns env /\ env <> [].
Proof.
  intros Hlen Hw.
  assert (Hsq : length (squared_derivative filtered) = (length filtered - 1)%nat)
    by (unfold squared_derivative; now rewrite length_map, np_diff_length).
  unfold nonlinear_enhancer.
  replace (w <? 0)%Z with false by (symmetry; apply Z.ltb_ge; lia).
  destruct (np_convolve_same (squared_derivative filtered)
              (repeat (ndiv (nofZ 1) (nofZ w)) (Z.to_nat w))) as [env|e] eqn:E.
  - exists env. split; [reflexivity|].
    apply np_convolve_same_length in E as (El & _ & _).
    intros ->. cbn [length] in El. lia.
  - exfalso. unfold np_convolve_same in E.
    destruct (squared_derivative filtered) as [|s0 sq]; [cbn [length] in Hsq; lia|].
    destruct (repeat (ndiv (nofZ 1) (nofZ w)) (Z.to_nat w)) as [|k0 ker] eqn:Eker.
    { apply (f_equal (@length T)) in Eker. rewrite repeat_length in Eker.
      cbn [length] in Eker. lia. }
    destruct (_ <? _)%nat; discriminate.
Qed.

Lemma peak_detector_returns_some (integrated : list T) (tf : T) (distance : Z) :
  integrated <> [] -> (1 <= distance)%Z ->
  exists peaks, peak_detector integrated tf distance = Returns peaks.
Proof.
  intros Hne Hd. unfold peak_detector.
  destruct integrated as [|v0 v]; [contradiction|]. cbn [np_max bind].
  unfold find_peaks.
  replace (distance <? 1)%Z with false by (symmetry; apply Z.ltb_ge; lia).
  eexists. reflexivity.
Qed.

(** With an initial state of the right length, a non-zero leading
    denominator coefficient, a recording longer than the padding, a window
    of at least one sample and a distance of at least one sample, the run
    returns. *)
Lemma detect_r_peaks_by_returns (initial : list T -> list T -> outcome (list T))
    (b a ecg zi : list T) (w d : Z) (tf : T) :
  a <> [] -> neqb (hd (nofZ 0) a) (nofZ 0) = false ->
  initial b a = Returns zi ->
  length zi = (Nat.max (length a) (length b) - 1)%nat ->
  (3 * Nat.max (length a) (length b) < length ecg)%nat ->
  (0 < w)%Z -> (1 <= d)%Z ->
  exists peaks, detect_r_peaks_by initial b a ecg w d tf = Returns peaks.
Proof.
  intros Ha Ha0 Hinit Hzi Hx Hw Hd. unfold detect_r_peaks_by.
  destruct (filtfilt_by_returns initial b a ecg zi Ha Ha0 Hinit Hzi Hx)
    as (filtered & Hf & Hfl).
  rewrite Hf. cbn [bind].
  assert (Hmax : (1 <= Nat.max (length a) (length b))%nat)
    by (destruct a; [contradiction | cbn [length]; lia]).
  destruct (nonlinear_enhancer_returns_nonempty filtered w ltac:(lia) Hw)
    as (env & Henv & Hne).
  rewrite Henv. cbn [bind].
  now apply peak_detector_returns_some.
Qed.

End Returning.

(** ** A recording without signal

    A value is null when the arithmetic cannot tell it from nothing: 0 in
    exact arithmetic; a zero of either sign or a NaN in float64.  Null
    values stay null through the linear filter, the derivative, the
    squaring and the moving sum, whatever the coefficients, and none of
    them is below another one, so a null envelope has no peak. *)

Section NullSignal.

Context {T : Type} `{Numeric T}.

Variable null : T -> Prop.
Hypothesis null_zero : null (nofZ 0).
Hypothesis null_add : forall x y, null x -> null y -> null (x + y)%n.
Hypothesis null_sub : forall x y, null x -> null y -> null (x - y)%n.
Hypothesis null_mul_l : forall x y, null x -> null (x * y)%n.
Hypothesis null_mul_r : forall x y, null y -> null (x * y)%n.
Hypothesis null_ltb : forall x y, null x -> null y -> (x <? y)%n = false.

Lemma null_nth (l : list T) (i : nat) : Forall null l -> null (nth i l (nofZ 0)).
Proof.
  intros Hl. revert i. induction Hl as [|x l' Hx _ IH]; intros [|i]; cbn [nth]; auto.
Qed.

Lemma null_hd (l : list T) : Forall null l -> null (hd (nofZ 0) l).
Proof. intros [|x l' Hx _]; cbn [hd]; auto. Qed.

Lemma null_last (l : list T) : Forall null l -> null (last l (nofZ 0)).
Proof.
  induction 1 as [|x l' Hx Hl IH]; [exact null_zero|].
  destruct l' as [|y l']; [exact Hx | exact IH].
Qed.

Lemma null_next_state (x y : T) (z bs as_ : list T) :
  null x -> null y -> Forall null z -> Forall null (next_state x y z bs as_).
Proof.
  intros Hx Hy Hz. revert bs as_.
  induction Hz as [|zn z Hzn _ IH]; intros [|bn bs] [|an as_]; cbn [next_state];
    repeat constructor; auto.
Qed.

Lemma null_lfilter_step (b a z : list T) (x : T) :
  Forall null z -> null x ->
  null (fst (lfilter_step b a z x)) /\ Forall null (snd (lfilter_step b a z x)).
Proof.
  intros Hz Hx. unfold lfilter_step. destruct Hz as [|z0 z Hz0 Hz]; cbn [fst snd].
  - split; [now apply null_mul_r | constructor].
  - assert (Hy : null (z0 + hd (nofZ 0) b * x)%n)
      by (apply null_add; [exact Hz0 | now apply null_mul_r]).
    split; [exact Hy | now apply null_next_state].
Qed.

Lemma null_lfilter_run (b a z x : list T) :
  Forall null z -> Forall null x -> Forall null (fst (lfilter_run b a z x)).
Proof.
  intros Hz Hx. revert z Hz.
  induction Hx as [|x0 x Hx0 _ IH]; intros z Hz; cbn [lfilter_run]; [constructor|].
  destruct (null_lfilter_step b a z x0 Hz Hx0) as (Hy & Hz').
  destruct (lfilter_step b a z x0) as [y z']. cbn [fst snd] in Hy, Hz'.
  specialize (IH z' Hz'). destruct (lfilter_run b a z' x) as [ys zf].
  cbn [fst] in *. now constructor.
Qed.

Lemma null_lfilter (b a x zi : list T) (r : list T * list T) :
  lfilter b a x zi = Returns r -> Forall null zi -> Forall null x ->
  Forall null (fst r).
Proof.
  unfold lfilter. destruct a as [|a0 a]; [discriminate|].
  unfold lfilter_normalized.
  destruct (neqb a0 (nofZ 0)); [discriminate|].
  destruct (negb _); [discriminate|].
  intros [= <-] Hzi Hx. now apply null_lfilter_run.
Qed.

Lemma null_odd_ext (x : list T) (n : nat) : Forall null x -> Forall null (odd_ext x n).
Proof.
  intros Hx. unfold odd_ext.
  assert (Hreflect : forall (e : T) (l : list T),
            null e -> Forall null l -> Forall null (map (fun v => nofZ 2 * e - v)%n l)).
  { intros e l He Hl. induction Hl as [|v l Hv _ IH]; cbn [map]; constructor; auto. }
  repeat apply Forall_app_2; try exact Hx.
  - apply Hreflect; [now apply null_hd|].
    apply Forall_rev, Forall_take, Forall_drop, Hx.
  - apply Hreflect; [now apply null_last|].
    apply Forall_rev, Forall_take, Forall_drop, Hx.
Qed.

Lemma null_scaled (zi : list T) (x0 : T) :
  null x0 -> Forall null (map (fun z => z * x0)%n zi).
Proof.
  intros Hx0. induction zi as [|z zi IH]; cbn [map]; constructor; auto.
Qed.

Lemma null_filtfilt_by (initial : list T -> list T -> outcome (list T))
    (b a x y : list T) :
  filtfilt_by initial b a x = Returns y -> Forall null x -> Forall null y.
Proof.
  unfold filtfilt_by. set (edge := (3 * Nat.max (length a) (length b))%nat).
  destruct (length x <=? edge)%nat; [discriminate|]. intros Hrun Hx.
  apply bind_Returns in Hrun as (zi & _ & Hrun).
  apply bind_Returns in Hrun as (fwd & Hfwd & Hrun).
  apply bind_Returns in Hrun as (bwd & Hbwd & Hrun).
  injection Hrun as <-.
  pose proof (null_odd_ext x edge Hx) as Hext.
  apply null_lfilter in Hfwd; [|apply null_scaled; now apply null_hd|exact Hext].
  apply null_lfilter in Hbwd;
    [|apply null_scaled; now apply null_last|now apply Forall_rev].
  apply Forall_take, Forall_drop, Forall_rev, Hbwd.
Qed.

Lemma null_np_diff (l : list T) : Forall null l -> Forall null (np_diff nsub l).
Proof.
  induction 1 as [|x l Hx Hl IH]; [constructor|].
  destruct Hl as [|y l Hy Hl]; [constructor|].
  rewrite np_diff_cons. constructor; [now apply null_sub | exact IH].
Qed.

Lemma null_squared_derivative (filtered : list T) :
  Forall null filtered -> Forall null (squared_derivative filtered).
Proof.
  intros Hf. unfold squared_derivative.
  induction (null_np_diff filtered Hf) as [|d l Hd _ IH]; cbn [map]; constructor; auto.
Qed.

Lemma null_nsum (l : list T) : Forall null l -> null (nsum l).
Proof.
  unfold nsum. generalize (nofZ 0) null_zero.
  intros acc Hacc Hl. revert acc Hacc.
  induction Hl as [|x l Hx _ IH]; intros acc Hacc; cbn [fold_left]; auto.
Qed.

Lemma null_convolve_full_at (a v : list T) (k : nat) :
  Forall null a \/ Forall null v -> null (convolve_full_at a v k).
Proof.
  intros Hav. unfold convolve_full_at. apply null_nsum.
  apply Forall_forall. intros t Ht. apply in_map_iff in Ht as (j & <- & _).
  destruct Hav as [Ha|Hv]; [apply null_mul_l | apply null_mul_r]; now apply null_nth.
Qed.

Lemma null_np_convolve_same (a v out : list T) :
  np_convolve_same a v = Returns out -> Forall null a -> Forall null out.
Proof.
  unfold np_convolve_same.
  destruct a as [|a0 a]; [discriminate|]. destruct v as [|v0 v]; [discriminate|].
  intros Hrun Ha.
  destruct (length (a0 :: a) <? length (v0 :: v))%nat;
    match type of Hrun with
    | Returns ?l = _ => assert (E : l = out) by congruence; rewrite <- E
    end;
    apply Forall_forall; intros t Ht; apply in_map_iff in Ht as (i & <- & _);
    apply null_convolve_full_at; auto.
Qed.

Lemma null_nonlinear_enhancer (filtered : list T) (w : Z) (env : list T) :
  nonlinear_enhancer filtered w = Returns env ->
  Forall null filtered -> Forall null env.
Proof.
  unfold nonlinear_enhancer. destruct (w <? 0)%Z; [discriminate|].
  intros Hrun Hf. eapply null_np_convolve_same; [exact Hrun|].
  now apply null_squared_derivative.
Qed.

Lemma null_local_maxima_loop (fuel : nat) (x : list T) (i i_max : nat) :
  Forall null x -> local_maxima_loop fuel x i i_max = [].
Proof.
  intros Hx. revert i. induction fuel as [|fuel IH]; intros i; [reflexivity|].
  cbn [local_maxima_loop].
  rewrite (null_ltb (nth (i - 1) x (nofZ 0)) (nth i x (nofZ 0)))
    by now apply null_nth.
  destruct (i <? i_max)%nat; [apply IH | reflexivity].
Qed.

Lemma null_peak_detector (integrated : list T) (tf : T) (distance : Z)
    (out : list nat) :
  peak_detector integrated tf distance = Returns out ->
  Forall null integrated -> out = [].
Proof.
  unfold peak_detector. intros Hrun Hx.
  apply bind_Returns in Hrun as (m & _ & Hrun).
  unfold find_peaks in Hrun. destruct (distance <? 1)%Z; [discriminate|].
  unfold local_maxima_1d in Hrun.
  rewrite null_local_maxima_loop in Hrun by exact Hx.
  now injection Hrun as <-.
Qed.

(** A recording of null samples has no beat, however the filter was
    designed and its initial state computed. *)
Lemma null_detect_r_peaks_by (initial : list T -> list T -> outcome (list T))
    (b a ecg : list T) (w d : Z) (tf : T) (out : list nat) :
  detect_r_peaks_by initial b a ecg w d tf = Returns out ->
  Forall null ecg -> out = [].
Proof.
  unfold detect_r_peaks_by. intros Hrun Hecg.
  apply bind_Returns in Hrun as (filtered & Hf & Hrun).
  apply bind_Returns in Hrun as (integrated & Henv & Hrun).
  eapply null_peak_detector; [exact Hrun|].
  eapply null_nonlinear_enhancer; [exact Henv|].
  eapply null_filtfilt_by; [exact Hf | exact Hecg].
Qed.

End NullSignal.

(** *** Null values of float64 *)

Lemma null_float64_zero : null_float64 (float64_of_Z 0).
Proof. exact I. Qed.

Lemma null_float64_add (x y : PrimFloat.float) :
  null_float64 x -> null_float64 y -> null_float64 (PrimFloat.add x y).
Proof.
  unfold null_float64. rewrite FloatAxioms.add_spec.
  destruct (FloatOps.Prim2SF x) as [sx|sx| |sx mx ex],
           (FloatOps.Prim2SF y) as [sy|sy| |sy my ey]; try contradiction; intros _ _;
    try exact I.
  destruct sx, sy; exact I.
Qed.

Lemma null_float64_sub (x y : PrimFloat.float) :
  null_float64 x -> null_float64 y -> null_float64 (PrimFloat.sub x y).
Proof.
  unfold null_float64. rewrite FloatAxioms.sub_spec.
  destruct (FloatOps.Prim2SF x) as [sx|sx| |sx mx ex],
           (FloatOps.Prim2SF y) as [sy|sy| |sy my ey]; try contradiction; intros _ _;
    try exact I.
  destruct sx, sy; exact I.
Qed.

Lemma null_float64_mul_l (x y : PrimFloat.float) :
  null_float64 x -> null_float64 (PrimFloat.mul x y).
Proof.
  unfold null_float64. rewrite FloatAxioms.mul_spec.
  destruct (FloatOps.Prim2SF x) as [sx|sx| |sx mx ex],
           (FloatOps.Prim2SF y) as [sy|sy| |sy my ey]; try contradiction; intros _;
    exact I.
Qed.

Lemma null_float64_mul_r (x y : PrimFloat.float) :
  null_float64 y -> null_float64 (PrimFloat.mul x y).
Proof.
  unfold null_float64. rewrite FloatAxioms.mul_spec.
  destruct (FloatOps.Prim2SF x) as [sx|sx| |sx mx ex],
           (FloatOps.Prim2SF y) as [sy|sy| |sy my ey]; try contradiction; intros _;
    exact I.
Qed.

Lemma null_float64_ltb (x y : PrimFloat.float) :
  null_float64 x -> null_float64 y -> PrimFloat.ltb x y = false.
Proof.
  unfold null_float64. rewrite FloatAxioms.ltb_spec.
  destruct (FloatOps.Prim2SF x) as [sx|sx| |sx mx ex],
           (FloatOps.Prim2SF y) as [sy|sy| |sy my ey]; try contradiction; intros _ _;
    reflexivity.
Qed.

Lemma null_float64_zeros (n : nat) : Forall null_float64 (repeat (float64_of_Z 0) n).
Proof. apply Forall_forall. intros x Hx. apply repeat_spec in Hx as ->. exact I. Qed.

(** C8 (for an all-zero recording): at a rate at which the band-pass can
    be designed ([fs > 30]) and for more than 15 samples (the padding of
    [filtfilt]), [detect_r_peaks] returns the empty index sequence on an
    all-zero recording, whatever the threshold factor.  This does not
    depend on exact arithmetic.  In float64, for any coefficients [b], [a]
    of the filter with a non-zero leading [a[0]] for which [lfilter_zi]
    returns an initial state, a run on zeros longer than the padding
    returns, and it returns no index: every value along the pipeline is a
    zero or a NaN, and no local maximum is found among such values. *)
Theorem zero_signal_has_no_beats (n : nat) (fs tf : R) :
  30 < fs -> (15 < n)%nat ->
  detect_r_peaks (repeat 0 n) fs tf = Returns [] /\
  forall (b a zi : list PrimFloat.float) (fs64 tf64 : PrimFloat.float) (w d : Z),
    @lfilter_zi_solved _ float64_numeric b a = Returns zi ->
    PrimFloat.eqb (hd (float64_of_Z 0) a) (float64_of_Z 0) = false ->
    (3 * Nat.max (length a) (length b) < n)%nat ->
    window_size_float64 fs64 = Some w -> (0 < w)%Z ->
    min_distance_float64 fs64 = Some d -> (1 <= d)%Z ->
    detect_r_peaks_float64 b a (repeat (float64_of_Z 0) n) fs64 tf64 =
      Some (Returns []).
Proof.
  intros Hfs Hn. split; [now apply constant_level_cancels_exactly|].
  intros b a zi fs64 tf64 w d Hzi Ha0 Hlen Hw Hwpos Hd Hdpos.
  unfold detect_r_peaks_float64. rewrite Hw, Hd. f_equal.
  assert (Ha : a <> []) by (intros ->; discriminate Hzi).
  destruct (@detect_r_peaks_by_returns _ float64_numeric
              (@lfilter_zi_solved _ float64_numeric) b a
              (repeat (float64_of_Z 0) n) zi w d tf64) as (peaks & Hrun);
    try assumption.
  { now apply (@lfilter_zi_solved_length _ float64_numeric). }
  { now rewrite repeat_length. }
  rewrite Hrun. f_equal.
  eapply (@null_detect_r_peaks_by _ float64_numeric null_float64);
    [exact null_float64_zero | exact null_float64_add | exact null_float64_sub
    | exact null_float64_mul_l | exact null_float64_mul_r | exact null_float64_ltb
    | exact Hrun | apply null_float64_zeros].
Qed.

Lemma zero_signal_has_no_beats_witness :
  30 < 360 /\ (15 < 20)%nat /\
  detect_r_peaks (repeat 0 20) 360 (6 / 10) = Returns [] /\
  detect_r_peaks_float64 (bandpass_numerator butter_360_gain) butter_360_denominator
    (repeat (float64_of_Z 0) 20) (float64_of_Z 360) (float64_ratio 6 10) =
    Some (Returns []).
Proof.
  split; [lra|]. split; [lia|].
  destruct (zero_signal_has_no_beats 20 360 (6 / 10)) as (Hexact & Hfloat);
    [lra | lia |].
  split; [exact Hexact|].
  destruct (@lfilter_zi_solved _ float64_numeric
              (bandpass_numerator butter_360_gain) butter_360_denominator)
    as [zi|e] eqn:Ezi; [|vm_compute in Ezi; discriminate Ezi].
  apply (Hfloat _ _ zi (float64_of_Z 360) (float64_ratio 6 10) 54%Z 216%Z Ezi);
    [vm_compute; reflexivity | vm_compute; lia | vm_compute; reflexivity | lia
    | vm_compute; reflexivity | lia].
Defined.

Lemma returned_Some (r : option (outcome (list nat))) (peaks : list nat) :
  returned r = Some peaks -> r = Some (Returns peaks).
Proof. destruct r as [[l|e]|]; cbn [returned]; congruence. Qed.

(** C8 (as stated) fails for a constant recording that is not zero.  In
    float64, twenty samples of value 1 at 360 Hz give the beat index 26:
    the initial state of the filter is the numerical solution of a linear
    system and is not exactly the steady state, so the filtered signal is a
    residue of the order of 1e-16, and its envelope has a peak.  The same
    index is returned for every design within one unit in the last place
    of the coefficients; on twenty zeros the same run returns no index. *)
Lemma constant_signal_beats_in_float64 :
  let ones := repeat (float64_of_Z 1) 20 in
  let zeros := repeat (float64_of_Z 0) 20 in
  let fs := float64_of_Z 360 in
  let tf := float64_ratio 6 10 in
  detect_r_peaks_float64 (bandpass_numerator butter_360_gain) butter_360_denominator
                         ones fs tf = Some (Returns [26%nat]) /\
  Forall (fun ba => detect_r_peaks_float64 (fst ba) (snd ba) ones fs tf =
                    Some (Returns [26%nat]))
         designs_near_butter_360 /\
  detect_r_peaks_float64 (bandpass_numerator butter_360_gain) butter_360_denominator
                         zeros fs tf = Some (Returns []).
Proof.
  intros ones zeros fs tf. split; [vm_compute; reflexivity|].
  split; [|vm_compute; reflexivity].
  apply Forall_forall. intros ba Hba. apply returned_Some.
  assert (Hall : forallb (fun ba => bool_decide
                    (returned (detect_r_peaks_float64 (fst ba) (snd ba) ones fs tf) =
                     Some [26%nat]))
                  designs_near_butter_360 = true) by (vm_compute; reflexivity).
  rewrite forallb_forall in Hall. specialize (Hall ba Hba).
  now apply bool_decide_eq_true in Hall.
Qed.

(** ** The envelope as a moving average *)

Lemma fold_add_acc (l : list R) (acc : R) :
  fold_left Rplus l acc = acc + fold_left Rplus l 0.
Proof.
  revert acc. induction l as [|v l IH]; intros acc; simpl; [ring|].
  rewrite (IH (acc + v)), (IH (0 + v)). ring.
Qed.

(** A sum over the entries that pass a test is the sum over all entries
    with the others replaced by zero. *)
Lemma nsum_filter {A : Type} (f : A -> R) (p : A -> bool) (l : list A) :
  nsum (map f (filter p l)) = nsum (map (fun j => if p j then f j else 0) l).
Proof.
  unfold nsum. cbn [nadd nofZ R_numeric].
  induction l as [|j l IH]; [reflexivity|].
  cbn [filter map fold_left]. destruct (p j); cbn [map fold_left].
  - rewrite fold_add_acc, (fold_add_acc _ (0 + f j)), IH. reflexivity.
  - rewrite IH, (fold_add_acc _ (0 + 0)). ring.
Qed.

Lemma nsum_factor {A : Type} (f g : A -> R) (s : R) (l : list A) :
  (forall j, In j l -> f j = g j * s) ->
  nsum (map f l) = nsum (map g l) * s.
Proof.
  unfold nsum. cbn [nadd nofZ R_numeric]. intros Hfg.
  induction l as [|j l IH]; [simpl; ring|].
  cbn [map fold_left].
  rewrite fold_add_acc, (fold_add_acc _ (0 + g j)), IH, Hfg.
  - ring.
  - now left.
  - intros i Hi. apply Hfg. now right.
Qed.

Lemma nth_repeat_below {A : Type} (c d : A) (j n : nat) :
  (j < n)%nat -> nth j (repeat c n) d = c.
Proof.
  revert j. induction n as [|n IH]; intros [|j] Hj; simpl; try lia; auto.
  apply IH. lia.
Qed.

(** Entry [i] of the convolution of [x] with the kernel
    [ones(w) / w], when the kernel is not the longer operand. *)
Lemma convolve_with_box (x : list R) (w : Z) (i : nat) :
  (0 < w)%Z ->
  convolve_full_at x (repeat (IZR 1 / IZR w) (Z.to_nat w))
                   (i + (Z.to_nat w - 1) / 2) =
  nsum (map (fun j => zero_padded x (Z.of_nat i + (w - 1) / 2 - Z.of_nat j))
            (seq 0 (Z.to_nat w))) / IZR w.
Proof.
  intros Hw. unfold convolve_full_at. rewrite repeat_length, nsum_filter.
  set (k := (i + (Z.to_nat w - 1) / 2)%nat).
  assert (Hk : (Z.of_nat i + (w - 1) / 2)%Z = Z.of_nat k).
  { unfold k. rewrite Nat2Z.inj_add, Nat2Z.inj_div, Nat2Z.inj_sub by lia.
    rewrite Z2Nat.id by lia. reflexivity. }
  rewrite Hk.
  rewrite (nsum_factor _ (fun j => zero_padded x (Z.of_nat k - Z.of_nat j)) (/ IZR w)).
  { reflexivity. }
  intros j Hj. apply in_seq in Hj. cbn [nmul nofZ R_numeric].
  rewrite nth_repeat_below by lia.
  unfold zero_padded. cbn [nofZ R_numeric].
  destruct (j <=? k)%nat eqn:Ejk.
  - apply Nat.leb_le in Ejk.
    replace (Z.of_nat k - Z.of_nat j <? 0)%Z with false
      by (symmetry; apply Z.ltb_ge; lia).
    replace (Z.to_nat (Z.of_nat k - Z.of_nat j)) with (k - j)%nat by lia.
    destruct (k - j <? length x)%nat eqn:El; cbn [andb].
    + unfold Rdiv. ring.
    + apply Nat.ltb_ge in El. rewrite nth_overflow by lia. ring.
  - apply Nat.leb_gt in Ejk. cbn [andb].
    replace (Z.of_nat k - Z.of_nat j <? 0)%Z with true
      by (symmetry; apply Z.ltb_lt; lia).
    ring.
Qed.

Lemma squared_derivative_length (filtered : list R) :
  length (squared_derivative filtered) = (length filtered - 1)%nat.
Proof. unfold squared_derivative. now rewrite length_map, np_diff_length. Qed.

(** At an exact rate above 30 Hz and for a filtered signal of at least two
    samples the enhancer stage returns an envelope; its window length is
    the truncated product; it has the length of the longer of the squared
    first-difference sequence and the window; and when the window is not
    longer than the squared sequence, it is the centred moving average of
    that window length over the squared sequence padded with zeros at both
    ends, one value per sample. *)
Lemma enhancer_stage_envelope (filtered : list R) (fs : R) :
  30 < fs -> (2 <= length filtered)%nat ->
  window_size fs = Zfloor (15 / 100 * fs) /\
  exists env,
    enhancer_stage filtered fs = Returns env /\
    length env = Nat.max (length (squared_derivative filtered))
                         (Z.to_nat (window_size fs)) /\
    ((Z.to_nat (window_size fs) <= length (squared_derivative filtered))%nat ->
     env = moving_average_same (window_size fs) (squared_derivative filtered)).
Proof.
  intros Hfs Hlen. destruct (window_size_floor fs Hfs) as (Hfloor & Hw).
  split; [exact Hfloor|].
  pose proof (squared_derivative_length filtered) as Hsq.
  unfold enhancer_stage, nonlinear_enhancer.
  set (w := window_size fs) in *. set (sq := squared_derivative filtered) in *.
  replace (w <? 0)%Z with false by (symmetry; apply Z.ltb_ge; lia).
  unfold np_convolve_same.
  destruct sq as [|s0 sq'] eqn:Esq; [cbn [length] in Hsq; lia|].
  destruct (repeat (ndiv (nofZ 1) (nofZ w)) (Z.to_nat w)) as [|k0 ker'] eqn:Eker.
  { apply (f_equal (@length R)) in Eker. rewrite repeat_length in Eker.
    cbn [length] in Eker. lia. }
  rewrite <- Eker, <- Esq. rewrite repeat_length.
  destruct (length sq <? Z.to_nat w)%nat eqn:E.
  - apply Nat.ltb_lt in E. eexists. split; [reflexivity|].
    rewrite length_map, length_seq, repeat_length. split; [lia|]. lia.
  - apply Nat.ltb_ge in E. eexists. split; [reflexivity|].
    rewrite length_map, length_seq. split; [lia|]. intros _.
    unfold moving_average_same. apply map_ext. intros i.
    cbn [ndiv nofZ R_numeric]. rewrite repeat_length.
    apply convolve_with_box. lia.
Qed.





(** The rate of the third run: about 32.2 Hz. *)
Lemma rational_rate_3_8 : 31 < rational_rate (3 / 8) < 333 / 10.
Proof.
  pose proof PI_enclosure as Hpi. split.
  - apply (rational_rate_lower (3 / 8) 31 (5067 / 10000) (554 / 1000));
      unfold cos_lo, cos_hi, sin_lo, sin_hi; lra.
  - apply (rational_rate_upper (3 / 8) (333 / 10) (4718 / 10000) (511 / 1000));
      unfold cos_lo, cos_hi, sin_lo, sin_hi; lra.
Qed.

Lemma window_3_8 :
  window_size (rational_rate (3 / 8)) = 4%Z /\
  py_round (15 / 100 * rational_rate (3 / 8)) = 5%Z.
Proof.
  pose proof rational_rate_3_8 as H.
  set (fs := rational_rate (3 / 8)) in *.
  assert (F : Zfloor (15 / 100 * fs) = 4%Z) by (apply Zfloor_eq; lra).
  split.
  - apply py_int_floor; [lia | lra].
  - unfold py_round. rewrite F.
    replace (Rltb (15 / 100 * fs - 4) (1 / 2)) with false
      by (symmetry; apply Rltb_false; lra).
    replace (Rltb (1 / 2) (15 / 100 * fs - 4)) with true
      by (symmetry; apply Rltb_true; lra).
    reflexivity.
Qed.

(** Two lists of fractions with different entries at some position have
    different images. *)
Lemma frac_lists_differ (l1 l2 : list frac) :
  existsb (fun p => negb (neqb (fst p) (snd p))) (combine l1 l2) = true ->
  map frac_to_R l1 <> map frac_to_R l2.
Proof.
  revert l2. induction l1 as [|x l1 IH]; intros [|y l2]; cbn [combine existsb map];
    try discriminate.
  intros Hex Heq. injection Heq as Hxy Hrest.
  apply orb_true_iff in Hex as [Hd|Hex].
  - cbn [fst snd] in Hd. rewrite <- (morph_eqb (phi := frac_to_R)) in Hd.
    cbn [neqb R_numeric] in Hd. rewrite Hxy, Reqb_refl in Hd. discriminate.
  - exact (IH l2 Hex Hrest).
Qed.

Lemma bandpass_stage_on_fractions (n d : Z) (ecg : list frac) :
  (0 < n)%Z -> (0 < d)%Z -> (6 * (n * n) < d * d)%Z ->
  bandpass_stage (map frac_to_R ecg) (rational_rate (IZR n / IZR d)) =
  outcome_map (map frac_to_R)
    (filtfilt (fst (butter_rational (fr n d))) (snd (butter_rational (fr n d))) ecg).
Proof.
  intros Hn Hd Hsmall.
  assert (Dn : 0 < IZR n) by (now apply IZR_lt).
  assert (Dd : 0 < IZR d) by (now apply IZR_lt).
  assert (Hr : 0 < IZR n / IZR d) by (now apply Rdiv_lt_0_compat).
  assert (Hs : 6 * (IZR n / IZR d * (IZR n / IZR d)) < 1).
  { apply IZR_lt in Hsmall. rewrite !mult_IZR in Hsmall.
    replace (IZR n / IZR d * (IZR n / IZR d)) with (IZR n * IZR n / (IZR d * IZR d))
      by (field; lra).
    assert (Hdd : 0 < IZR d * IZR d) by nra.
    apply Rmult_lt_reg_r with (IZR d * IZR d); [assumption|].
    replace (6 * (IZR n * IZR n / (IZR d * IZR d)) * (IZR d * IZR d))
      with (6 * (IZR n * IZR n)) by (field; lra).
    lra. }
  unfold bandpass_stage.
  rewrite (butter_at_rational_rate _ Hr Hs).
  rewrite <- (frac_to_R_fr n d Hd).
  rewrite (morph_butter_rational frac_to_R). cbn [bind fst snd].
  apply (morph_filtfilt frac_to_R).
Qed.

(** Two runs at exact rates.  On the recording [two_impulses] at the rate
    [rational_rate (3 / 8)] (about 32.2 Hz, where [0.15 * fs] is about 4.83)
    the envelope has the length of the squared sequence but is not its
    moving average of window length 5: the window is [int(0.15 * fs) = 4].
    On twenty zero samples at 250 Hz the window, 37 samples, is longer than
    the squared sequence of 19 samples, and [np.convolve(..., mode='same')]
    returns 37 samples. *)
Lemma envelope_on_two_recordings :
  (exists filtered env,
     bandpass_stage two_impulses (rational_rate (3 / 8)) = Returns filtered /\
     enhancer_stage filtered (rational_rate (3 / 8)) = Returns env /\
     py_round (15 / 100 * rational_rate (3 / 8)) = 5%Z /\
     env <> moving_average_same (py_round (15 / 100 * rational_rate (3 / 8)))
                                (squared_derivative filtered)) /\
  (bandpass_stage (repeat 0 20) 250 = Returns (repeat 0 20) /\
   enhancer_stage (repeat 0 20) 250 = Returns (repeat 0 37) /\
   length (squared_derivative (repeat 0 20)) = 19%nat).
Proof.
  split.
  - destruct window_3_8 as (Hw & Hround).
    assert (Hrun :
      match filtfilt (fst (butter_rational (fr 3 8))) (snd (butter_rational (fr 3 8)))
                     two_impulses with
      | Returns filtered =>
          match nonlinear_enhancer filtered 4 with
          | Returns env =>
              existsb (fun p => negb (neqb (fst p) (snd p)))
                      (combine env (moving_average_same 5 (squared_derivative filtered)))
          | Raises _ => false
          end
      | Raises _ => false
      end = true) by (vm_compute; reflexivity).
    pose proof (bandpass_stage_on_fractions 3 8 two_impulses) as Hband.
    rewrite <- two_impulses_R in Hband.
    specialize (Hband ltac:(lia) ltac:(lia) ltac:(lia)).
    destruct (filtfilt _ _ two_impulses) as [filtered|e]; [|discriminate].
    destruct (nonlinear_enhancer filtered 4) as [env|e] eqn:Eenv; [|discriminate].
    exists (map frac_to_R filtered), (map frac_to_R env).
    split; [exact Hband|]. split; [|split; [exact Hround|]].
    + unfold enhancer_stage. rewrite Hw.
      now rewrite (morph_nonlinear_enhancer frac_to_R), Eenv.
    + rewrite Hround, (morph_squared_derivative frac_to_R),
        (morph_moving_average_same frac_to_R).
      now apply frac_lists_differ.
  - split; [apply bandpass_stage_constant; [lra | lia]|]. split.
    + unfold enhancer_stage.
      replace (window_size 250) with 37%Z
        by (symmetry; apply py_int_floor; [lia | lra]).
      now rewrite nonlinear_enhancer_zero by lia.
    + now rewrite squared_derivative_length, repeat_length.
Qed.


(** The truncation of the exact product and of the float64 product can
    differ: at the float64 nearest to 340/3 the exact products
    [0.15 * fs] and [0.6 * fs] are just below 17 and 68, and the float64
    products are 17 and 68. *)
Lemma window_of_a_rounded_product :
  let fs := float64_ratio 340 3 in
  window_size_float64 fs = Some 17%Z /\
  min_distance_float64 fs = Some 68%Z /\
  window_size (float64_value fs) = 16%Z /\
  min_distance (float64_value fs) = 67%Z.
Proof.
  intros fs. split; [vm_compute; reflexivity|]. split; [vm_compute; reflexivity|].
  assert (E : float64_value fs = IZR 7975124340135253 / IZR 70368744177664).
  { unfold float64_value.
    replace (FloatOps.Prim2SF fs)
      with (SpecFloat.S754_finite false 7975124340135253 (-46))
      by (vm_compute; reflexivity).
    cbn [Z.leb Z.compare Z.opp]. reflexivity. }
  rewrite E. split; apply py_int_floor; try lia; lra.
Qed.

(** ** The initial state, solved numerically

    [filtfilt_by] and [detect_r_peaks_by] with the closed form of
    [lfilter_zi] are [filtfilt] and [detect_r_peaks_with].  With the
    numerical solution [lfilter_zi_solved] they are the same in exact
    arithmetic, whenever the elimination returns: it returns a solution of
    the system, and for the band-pass the system has one solution, the
    closed form. *)

Lemma filtfilt_by_closed_form {T : Type} `{Numeric T} (b a x : list T) :
  filtfilt_by lfilter_zi b a x = filtfilt b a x.
Proof. reflexivity. Qed.

Lemma detect_r_peaks_by_closed_form {T : Type} `{Numeric T}
    (b a ecg : list T) (w d : Z) (tf : T) :
  detect_r_peaks_by lfilter_zi b a ecg w d tf = detect_r_peaks_with b a ecg w d tf.
Proof. reflexivity. Qed.


(** [row] is an equation [c . x = rhs], written [c ++ [rhs]]. *)
Lemma fold_add_zip_cons (c x : list R) (c0 x0 : R) :
  fold_left Rplus (zip_with Rmult (c0 :: c) (x0 :: x)) 0 =
  c0 * x0 + fold_left Rplus (zip_with Rmult c x) 0.
Proof. cbn [zip_with fold_left]. rewrite fold_add_acc. ring. Qed.

Lemma removelast_cons {A : Type} (x y : A) (l : list A) :
  removelast (x :: y :: l) = x :: removelast (y :: l).
Proof. reflexivity. Qed.

Lemma last_cons {A : Type} (x y d : A) (l : list A) :
  last (x :: y :: l) d = last (y :: l) d.
Proof. reflexivity. Qed.

(** A row minus a multiple of another row of the same length. *)
Lemma reduced_row (l : R) (r p x : list R) :
  length r = length p -> length r = S (length x) ->
  let r' := zip_with (fun v u => v - l * u) r p in
  fold_left Rplus (zip_with Rmult (removelast r') x) 0 =
    fold_left Rplus (zip_with Rmult (removelast r) x) 0
    - l * fold_left Rplus (zip_with Rmult (removelast p) x) 0 /\
  last r' 0 = last r 0 - l * last p 0.
Proof.
  revert p x. induction r as [|v r IH]; intros [|u p] x Hrp Hrx; try discriminate.
  cbn [length] in Hrp, Hrx. cbv zeta.
  destruct r as [|v' r].
  - destruct p as [|u' p]; [|discriminate]. cbn. split; ring.
  - destruct p as [|u' p]; [discriminate|].
    destruct x as [|x0 x]; [discriminate|].
    cbn [zip_with]. rewrite !removelast_cons, !last_cons.
    specialize (IH (u' :: p) x ltac:(cbn [length] in *; lia) ltac:(cbn [length] in *; lia)).
    cbv zeta in IH. cbn [zip_with] in IH. destruct IH as (IH1 & IH2).
    rewrite IH2. split; [|reflexivity].
    rewrite !fold_add_zip_cons, IH1. ring.
Qed.

(** Back substitution subtracts the known terms from the right-hand
    side. *)
Lemma fold_back_terms (l : list (R * R)) (rhs : R) :
  fold_left (fun acc ux => acc - snd ux * fst ux) l rhs =
  rhs - fold_left Rplus (map (fun ux => fst ux * snd ux) l) 0.
Proof.
  revert rhs. induction l as [|[u x] l IH]; intros rhs; cbn [fold_left map fst snd].
  - ring.
  - rewrite IH, (fold_add_acc _ (0 + u * x)). ring.
Qed.

Lemma fold_add_rev (l : list R) : fold_left Rplus (rev l) 0 = fold_left Rplus l 0.
Proof.
  induction l as [|v l IH]; [reflexivity|].
  cbn [rev fold_left]. rewrite fold_left_app. cbn [fold_left].
  rewrite IH, (fold_add_acc _ (0 + v)). ring.
Qed.

Lemma zip_with_combine (c x : list R) :
  map (fun ux => fst ux * snd ux) (combine c x) = zip_with Rmult c x.
Proof.
  revert x. induction c as [|c0 c IH]; intros [|x0 x]; cbn; try reflexivity.
  now rewrite IH.
Qed.

Lemma eliminate_sound (fuel : nat) (rows u : list (list R)) :
  (length rows <= fuel)%nat ->
  Forall (fun r => length r = S (length rows)) rows ->
  eliminate fuel rows = Returns u ->
  length (back_substitute u) = length rows /\
  Forall (fun r => fold_left Rplus (zip_with Rmult (removelast r) (back_substitute u)) 0
                   = last r 0) rows.
Proof.
  revert rows u. induction fuel as [|fuel IH]; intros rows u Hfuel Hwf Hrun.
  { destruct rows; [|cbn [length] in Hfuel; lia].
    injection Hrun as <-. split; [reflexivity | constructor]. }
  cbn [eliminate] in Hrun.
  pose proof (swap_with_first_length (pivot_index rows) rows) as Hlen.
  apply (swap_with_first_Forall _ (pivot_index rows)) in Hwf.
  rewrite <- (swap_with_first_Forall _ (pivot_index rows)).
  destruct (swap_with_first (pivot_index rows) rows) as [|pivot_row others].
  { injection Hrun as <-. split; [now rewrite <- Hlen | constructor]. }
  rewrite <- Hlen in *. clear Hlen. cbn [length] in *.
  set (d := hd (nofZ 0) pivot_row) in *.
  destruct (neqb d (nofZ 0)) eqn:Ed; [discriminate|].
  apply Reqb_false in Ed. cbn [nofZ R_numeric] in Ed.
  apply bind_Returns in Hrun as (u' & Hu' & Hrun). injection Hrun as <-.
  apply Forall_cons_iff in Hwf as (Hp & Hothers).
  destruct pivot_row as [|d' ptail]; [discriminate|].
  cbn [hd] in d. subst d. cbn [length] in Hp. cbn [tl] in Hu'.
  set (reduced := map _ others) in Hu'.
  assert (Hred : Forall (fun r => length r = S (length reduced)) reduced).
  { unfold reduced. rewrite length_map. apply Forall_map.
    eapply List.Forall_impl; [|exact Hothers]. cbv beta. intros r Hr.
    rewrite length_zip_with. destruct r as [|r0 r]; [discriminate|].
    cbn [tl length] in *. lia. }
  destruct (IH reduced u' ltac:(unfold reduced; rewrite length_map; lia) Hred Hu')
    as (Hxs & Hsat).
  unfold reduced in Hxs. rewrite length_map in Hxs.
  cbn [back_substitute hd tl]. set (xs := back_substitute u') in *.
  cbn [nsub nmul ndiv nofZ R_numeric].
  rewrite fold_back_terms, map_rev, fold_add_rev, zip_with_combine.
  set (s := last (d' :: ptail) 0
            - fold_left Rplus (zip_with Rmult (removelast ptail) xs) 0).
  split; [cbn [length]; lia|].
  assert (Hptail : ptail <> []) by (destruct ptail; [cbn [length] in Hp; lia | discriminate]).
  apply Forall_cons_iff. split.
  - destruct ptail as [|p0 ptail]; [contradiction|].
    rewrite removelast_cons, fold_add_zip_cons. unfold s. field. exact Ed.
  - apply Forall_forall. intros r Hr.
    rewrite Forall_forall in Hothers. specialize (Hothers r Hr).
    destruct r as [|r0 rtail]; [discriminate|]. cbn [length] in Hothers.
    rewrite Forall_forall in Hsat.
    specialize (Hsat (zip_with (fun x u0 => x - r0 * (1 / d') * u0) rtail ptail)).
    assert (Hin : In (zip_with (fun x u0 => x - r0 * (1 / d') * u0) rtail ptail) reduced).
    { unfold reduced. apply in_map_iff. exists (r0 :: rtail). split; [reflexivity | exact Hr]. }
    specialize (Hsat Hin).
    destruct (reduced_row (r0 * (1 / d')) rtail ptail xs ltac:(lia) ltac:(lia))
      as (Hdot & Hlast).
    cbv zeta in Hdot, Hlast. rewrite Hdot, Hlast in Hsat.
    destruct rtail as [|r1 rtail]; [cbn [length] in Hothers; lia|].
    destruct ptail as [|p0 ptail]; [contradiction|].
    unfold s. rewrite removelast_cons, fold_add_zip_cons, !last_cons.
    set (A := fold_left Rplus (zip_with Rmult (removelast (r1 :: rtail)) xs) 0) in *.
    set (D := fold_left Rplus (zip_with Rmult (removelast (p0 :: ptail)) xs) 0) in *.
    assert (HA : A = last (r1 :: rtail) 0 - r0 * (1 / d') * last (p0 :: ptail) 0
                     + r0 * (1 / d') * D) by lra.
    rewrite HA. field. exact Ed.
Qed.
Section SolvedSteadyState.

Variables k a1 a2 a3 a4 : R.
Hypothesis denominator_sum : 1 + a1 + a2 + a3 + a4 <> 0.

Local Abbreviation b := [k; 0; - 2 * k; 0; k].
Local Abbreviation a := [1; a1; a2; a3; a4].

(** The closed form is the solution of the system that SciPy hands to
    [np.linalg.solve]: a state satisfies every row of [[I - A^T | B]]
    exactly when it is [[-k; -k; k; k]]. *)
Lemma lfilter_zi_bandpass_system (z0 z1 z2 z3 : R) :
  Forall (fun row => nsum (zip_with Rmult (removelast row) [z0; z1; z2; z3]) =
                     last row 0)
         (map (lfilter_zi_row b a 5) (seq 0 4)) <->
  [z0; z1; z2; z3] = [- k; - k; k; k].
Proof.
  unfold lfilter_zi_row, nsum.
  cbn [seq map Nat.sub Nat.eqb app removelast last zip_with fold_left nth hd
       nadd nsub nmul ndiv nofZ R_numeric].
  rewrite !Forall_cons_iff, Forall_nil_iff.
  cbn [removelast last zip_with fold_left]. unfold Rdiv. rewrite Rinv_1.
  split.
  - intros (E0 & E1 & E2 & E3 & _).
    assert (H0 : (1 + a1 + a2 + a3 + a4) * (z0 + k) = 0) by nra.
    assert (Hz0 : z0 = - k).
    { apply Rmult_integral in H0 as [H0|H0]; [contradiction | lra]. }
    subst z0. repeat f_equal; nra.
  - intros [= -> -> -> ->]. repeat split; ring.
Qed.

(** In exact arithmetic the numerical solution, when the elimination
    returns one, is the closed form of [lfilter_zi]. *)
Lemma lfilter_zi_solved_bandpass (zi : list R) :
  lfilter_zi_solved b a = Returns zi -> lfilter_zi b a = Returns zi.
Proof.
  rewrite lfilter_zi_bandpass by exact denominator_sum.
  unfold lfilter_zi_solved. cbn [strip_leading_zeros neqb R_numeric nofZ].
  replace (Reqb 1 (IZR 0)) with false by (symmetry; apply Reqb_false; lra).
  unfold lfilter_zi_solved_normalized, np_linalg_solve.
  cbn [neqb R_numeric nofZ ndiv].
  replace (Reqb 1 (IZR 0)) with false by (symmetry; apply Reqb_false; lra).
  cbn [length Nat.max Nat.ltb Nat.leb].
  rewrite !map_div_one.
  unfold pad_to. cbn [length Nat.sub repeat app].
  intros Hrun. apply bind_Returns in Hrun as (u & Hu & Hrun). injection Hrun as <-.
  apply eliminate_sound in Hu as (Hlen & Hsat).
  - rewrite length_map, length_seq in Hlen.
    destruct (back_substitute u) as [|z0 [|z1 [|z2 [|z3 [|z4 zs]]]]]; try discriminate.
    apply lfilter_zi_bandpass_system in Hsat. now rewrite Hsat.
  - now rewrite length_map, length_seq.
  - rewrite length_map, length_seq. repeat constructor.
Qed.

Lemma filtfilt_by_solved_bandpass (x y : list R) :
  filtfilt_by lfilter_zi_solved b a x = Returns y -> filtfilt b a x = Returns y.
Proof.
  unfold filtfilt_by, filtfilt.
  destruct (length x <=? 3 * Nat.max (length a) (length b))%nat; [discriminate|].
  intros Hrun. apply bind_Returns in Hrun as (zi & Hzi & Hrun).
  apply lfilter_zi_solved_bandpass in Hzi. rewrite Hzi. exact Hrun.
Qed.

Lemma detect_r_peaks_by_solved_bandpass
    (ecg : list R) (w d : Z) (tf : R) (out : list nat) :
  detect_r_peaks_by lfilter_zi_solved b a ecg w d tf = Returns out ->
  detect_r_peaks_with b a ecg w d tf = Returns out.
Proof.
  unfold detect_r_peaks_by, detect_r_peaks_with. intros Hrun.
  apply bind_Returns in Hrun as (filtered & Hf & Hrun).
  apply filtfilt_by_solved_bandpass in Hf. rewrite Hf. exact Hrun.
Qed.

End SolvedSteadyState.

(** ** The runs that return *)

Lemma filtfilt_bandpass_returns (k a1 a2 a3 a4 : R) (x : list R) :
  1 + a1 + a2 + a3 + a4 <> 0 -> (15 < length x)%nat ->
  exists y, filtfilt [k; 0; - 2 * k; 0; k] [1; a1; a2; a3; a4] x = Returns y.
Proof.
  intros Hsum Hx. unfold filtfilt. cbn [length Nat.max Nat.mul Nat.add].
  replace (length x <=? 15)%nat with false by (symmetry; apply Nat.leb_gt; lia).
  rewrite lfilter_zi_bandpass by exact Hsum. cbn [bind].
  unfold lfilter, lfilter_normalized. cbn [neqb R_numeric nofZ].
  replace (Reqb 1 (IZR 0)) with false by (symmetry; apply Reqb_false; lra).
  rewrite !length_map. cbn [length Nat.max Nat.sub Nat.eqb negb bind].
  eexists. reflexivity.
Qed.

Lemma nonlinear_enhancer_returns (filtered : list R) (w : Z) :
  (2 <= length filtered)%nat -> (0 < w)%Z ->
  exists env, nonlinear_enhancer filtered w = Returns env.
Proof.
  intros Hlen Hw. pose proof (squared_derivative_length filtered) as Hsq.
  unfold nonlinear_enhancer.
  replace (w <? 0)%Z with false by (symmetry; apply Z.ltb_ge; lia).
  unfold np_convolve_same.
  destruct (squared_derivative filtered) as [|s0 sq]; [cbn [length] in Hsq; lia|].
  destruct (repeat (ndiv (nofZ 1) (nofZ w)) (Z.to_nat w)) as [|k0 ker] eqn:Eker.
  { apply (f_equal (@length R)) in Eker. rewrite repeat_length in Eker.
    cbn [length] in Eker. lia. }
  destruct (_ <? _)%nat; eexists; reflexivity.
Qed.

Lemma peak_detector_returns (integrated : list R) (tf : R) (distance : Z) :
  integrated <> [] -> (1 <= distance)%Z ->
  exists peaks, peak_detector integrated tf distance = Returns peaks.
Proof.
  intros Hne Hd. unfold peak_detector.
  destruct integrated as [|v0 v]; [contradiction|]. cbn [np_max bind].
  unfold find_peaks.
  replace (distance <? 1)%Z with false by (symmetry; apply Z.ltb_ge; lia).
  eexists. reflexivity.
Qed.

Lemma detect_r_peaks_succeeds (ecg : list R) (fs tf : R) :
  30 < fs -> (15 < length ecg)%nat ->
  exists peaks, detect_r_peaks ecg fs tf = Returns peaks.
Proof.
  intros Hfs Hlen. unfold detect_r_peaks.
  destruct (butter2_bandpass_shape fs Hfs) as (k & a1 & a2 & a3 & a4 & Hba & Hsum).
  destruct (filtfilt_bandpass_returns k a1 a2 a3 a4 ecg Hsum Hlen) as (filtered & Hf).
  assert (Hband : bandpass_stage ecg fs = Returns filtered).
  { unfold bandpass_stage. rewrite Hba. exact Hf. }
  rewrite Hband. cbn [bind].
  pose proof (filtfilt_length _ _ _ _ Hf) as Hfl.
  destruct (window_size_floor fs Hfs) as (_ & Hw).
  destruct (min_distance_floor fs Hfs) as (_ & Hd).
  destruct (nonlinear_enhancer_returns filtered (window_size fs)) as (env & Henv);
    [lia | lia |].
  unfold enhancer_stage. rewrite Henv. cbn [bind].
  pose proof (nonlinear_enhancer_length _ _ _ Henv) as (_ & _ & Hel).
  destruct (peak_detector_returns env tf (min_distance fs)) as (peaks & Hp).
  { intros ->. cbn [length] in Hel. lia. }
  { lia. }
  unfold peak_stage. rewrite Hp. cbn [bind]. eexists. reflexivity.
Qed.

(** ** A recording scaled by a factor *)

(** Scaling by a positive factor keeps zero and every comparison. *)
Lemma scale_order (s : R) : 0 < s -> OrderMorphism (Rmult s).
Proof.
  intros Hs. constructor; cbn [nofZ nltb nleb neqb R_numeric].
  - ring.
  - intros a b. destruct (Rltb a b) eqn:E.
    + apply Rltb_true in E. apply Rltb_true. now apply Rmult_lt_compat_l.
    + apply Rltb_false in E. apply Rltb_false. apply Rmult_le_compat_l; lra.
  - intros a b. destruct (Rleb a b) eqn:E.
    + apply Rleb_true in E. apply Rleb_true. apply Rmult_le_compat_l; lra.
    + apply Rleb_false in E. apply Rleb_false. now apply Rmult_lt_compat_l.
  - intros a b. destruct (Reqb a b) eqn:E.
    + apply Reqb_true in E. apply Reqb_true. now rewrite E.
    + apply Reqb_false in E. apply Reqb_false. intros Hc. apply E.
      apply Rmult_eq_reg_l in Hc; lra.
Qed.

Section Scaling.

Variable c : R.

Local Abbreviation scale := (map (Rmult c)).

Lemma hd_scale (x : list R) : hd 0 (scale x) = c * hd 0 x.
Proof. destruct x; simpl; [ring | reflexivity]. Qed.

Lemma last_scale (x : list R) : last (scale x) 0 = c * last x 0.
Proof.
  induction x as [|v [|w x] IH]; [simpl; ring | reflexivity | exact IH].
Qed.

Lemma nth_scale (x : list R) (i : nat) : nth i (scale x) 0 = c * nth i x 0.
Proof.
  revert i. induction x as [|v x IH]; intros [|i]; simpl; try ring; auto.
Qed.

Lemma fold_add_scale (l : list R) (acc : R) :
  fold_left Rplus (scale l) (c * acc) = c * fold_left Rplus l acc.
Proof.
  revert acc. induction l as [|v l IH]; intros acc; simpl; [reflexivity|].
  rewrite <- IH. f_equal. ring.
Qed.

Lemma nsum_scale (l : list R) : nsum (scale l) = c * nsum l.
Proof.
  unfold nsum. cbn [nadd nofZ R_numeric].
  rewrite <- fold_add_scale. f_equal. ring.
Qed.

Lemma next_state_scale (x y : R) (z bs as_ : list R) :
  next_state (c * x) (c * y) (scale z) bs as_ = scale (next_state x y z bs as_).
Proof.
  revert bs as_. induction z as [|zn z IH]; intros [|bn bs] [|an as_];
    try reflexivity; cbn [next_state map nadd nsub nmul R_numeric].
  - f_equal; ring.
  - rewrite IH. f_equal; ring.
Qed.

Lemma lfilter_step_scale (b a z : list R) (x : R) :
  lfilter_step b a (scale z) (c * x) =
  (c * fst (lfilter_step b a z x), scale (snd (lfilter_step b a z x))).
Proof.
  unfold lfilter_step. destruct z as [|z0 z];
    cbn [map fst snd nadd nmul nofZ R_numeric].
  - f_equal. ring.
  - replace (c * z0 + hd 0 b * (c * x)) with (c * (z0 + hd 0 b * x)) by ring.
    now rewrite next_state_scale.
Qed.

Lemma lfilter_run_scale (b a z x : list R) :
  lfilter_run b a (scale z) (scale x) =
  (scale (fst (lfilter_run b a z x)), scale (snd (lfilter_run b a z x))).
Proof.
  revert z. induction x as [|x0 x IH]; intros z; [reflexivity|].
  cbn [map lfilter_run]. rewrite lfilter_step_scale.
  destruct (lfilter_step b a z x0) as [y z'] eqn:E. cbn [fst snd].
  rewrite IH. now destruct (lfilter_run b a z' x).
Qed.

Lemma lfilter_scale (b a x zi : list R) :
  lfilter b a (scale x) (scale zi) = outcome_map (map_both (Rmult c)) (lfilter b a x zi).
Proof.
  unfold lfilter. destruct a as [|a0 a]; [reflexivity|].
  unfold lfilter_normalized. destruct (neqb a0 (nofZ 0)); [reflexivity|].
  rewrite length_map. destruct (negb _); [reflexivity|].
  cbn [outcome_map]. f_equal. apply lfilter_run_scale.
Qed.

Lemma odd_ext_scale (x : list R) (n : nat) :
  odd_ext (scale x) n = scale (odd_ext x n).
Proof.
  unfold odd_ext. cbn [nofZ nsub nmul R_numeric].
  rewrite hd_scale, last_scale, length_map, !skipn_map, !firstn_map, <- !map_rev.
  rewrite !map_app, !map_map.
  apply f_equal2; [|apply f_equal]; apply map_ext; intros v; ring.
Qed.

(** The band-pass stage is homogeneous. *)
Lemma filtfilt_scale (b a x : list R) :
  filtfilt b a (scale x) = outcome_map scale (filtfilt b a x).
Proof.
  unfold filtfilt. rewrite length_map.
  destruct (_ <=? _)%nat; [reflexivity|].
  rewrite odd_ext_scale.
  destruct (lfilter_zi b a) as [zi|e]; [|reflexivity]. cbn [bind].
  rewrite hd_scale.
  replace (map (fun z => nmul z (c * hd 0 (odd_ext x (3 * Nat.max (length a) (length b))))) zi)
    with (scale (map (fun z => nmul z (hd 0 (odd_ext x (3 * Nat.max (length a) (length b))))) zi)).
  2:{ rewrite map_map. apply map_ext. intros z. cbn [nmul R_numeric]. ring. }
  rewrite lfilter_scale.
  destruct (lfilter b a (odd_ext x _) _) as [fwd|e]; [|reflexivity].
  cbn [outcome_map bind]. unfold map_both at 1 2. cbn [fst].
  rewrite last_scale, <- map_rev.
  replace (map (fun z => nmul z (c * last (fst fwd) 0)) zi)
    with (scale (map (fun z => nmul z (last (fst fwd) 0)) zi)).
  2:{ rewrite map_map. apply map_ext. intros z. cbn [nmul R_numeric]. ring. }
  rewrite lfilter_scale.
  destruct (lfilter b a (rev (fst fwd)) _) as [bwd|e]; [|reflexivity].
  cbn [outcome_map bind]. unfold map_both. cbn [fst].
  now rewrite <- map_rev, length_map, skipn_map, firstn_map.
Qed.

Lemma np_diff_scale (x : list R) :
  np_diff Rminus (scale x) = scale (np_diff Rminus x).
Proof.
  destruct x as [|v x]; [reflexivity|].
  revert v. induction x as [|w x IH]; intros v; [reflexivity|].
  cbn [map]. rewrite !np_diff_cons. cbn [map]. rewrite <- IH.
  cbn [map]. f_equal. ring.
Qed.

End Scaling.

Lemma squares_scale (c : R) (x : list R) :
  map (fun d => d * d) (map (Rmult c) x) =
  map (Rmult (c * c)) (map (fun d => d * d) x).
Proof. rewrite !map_map. apply map_ext. intros d. ring. Qed.

Lemma convolve_full_at_scale_l (s : R) (a v : list R) (k : nat) :
  convolve_full_at (map (Rmult s) a) v k = s * convolve_full_at a v k.
Proof.
  unfold convolve_full_at. rewrite <- nsum_scale, length_map, map_map.
  f_equal. apply map_ext. intros j.
  cbn [nmul nofZ R_numeric]. rewrite nth_scale. ring.
Qed.

Lemma convolve_full_at_scale_r (s : R) (a v : list R) (k : nat) :
  convolve_full_at a (map (Rmult s) v) k = s * convolve_full_at a v k.
Proof.
  unfold convolve_full_at. rewrite <- nsum_scale, length_map, map_map.
  f_equal. apply map_ext. intros j.
  cbn [nmul nofZ R_numeric]. rewrite nth_scale. ring.
Qed.

Lemma np_convolve_same_scale (s : R) (a v : list R) :
  np_convolve_same (map (Rmult s) a) v =
  outcome_map (map (Rmult s)) (np_convolve_same a v).
Proof.
  unfold np_convolve_same.
  destruct a as [|a0 a]; [reflexivity|]. destruct v as [|v0 v]; [reflexivity|].
  cbn [map]. change (s * a0 :: map (Rmult s) a) with (map (Rmult s) (a0 :: a)).
  rewrite length_map.
  destruct (length (a0 :: a) <? length (v0 :: v))%nat;
    cbn [outcome_map]; f_equal; rewrite ?length_map, map_map;
    apply map_ext; intros i.
  - apply convolve_full_at_scale_r.
  - apply convolve_full_at_scale_l.
Qed.

(** Squaring turns the factor [c] into [c * c]. *)
Lemma nonlinear_enhancer_scale (c : R) (x : list R) (w : Z) :
  nonlinear_enhancer (map (Rmult c) x) w =
  outcome_map (map (Rmult (c * c))) (nonlinear_enhancer x w).
Proof.
  unfold nonlinear_enhancer, squared_derivative. cbn [nsub nmul R_numeric].
  destruct (w <? 0)%Z; [reflexivity|].
  rewrite np_diff_scale, squares_scale. apply np_convolve_same_scale.
Qed.

(** The threshold follows the maximum, so a positive factor changes no
    comparison of the peak search. *)
Lemma peak_detector_scale (s : R) (x : list R) (tf : R) (distance : Z) :
  0 < s ->
  peak_detector (map (Rmult s) x) tf distance = peak_detector x tf distance.
Proof.
  intros Hs. pose proof (scale_order s Hs) as Hord.
  unfold peak_detector.
  rewrite (morph_np_max (Rmult s)), bind_outcome_map.
  apply bind_ext. intros m. cbn [nmul R_numeric].
  replace (tf * (s * m)) with (s * (tf * m)) by ring.
  apply (morph_find_peaks (Rmult s)).
Qed.

(** C10: for every recording, rate, threshold factor and every positive
    factor [c], [detect_r_peaks] gives for the recording scaled sample by
    sample by [c] exactly what it gives for the recording itself, the index
    sequence or the error: the band-pass is homogeneous, squaring turns the
    factor into [c * c], and the threshold is a fraction of the maximum of
    the envelope. *)
Theorem positive_scaling_keeps_beats (ecg : list R) (fs tf c : R) :
  0 < c ->
  detect_r_peaks (map (Rmult c) ecg) fs tf = detect_r_peaks ecg fs tf.
Proof.
  intros Hc. unfold detect_r_peaks, bandpass_stage.
  destruct (butter2_bandpass 5 15 fs) as [[b a]|e]; [|reflexivity].
  cbn [bind fst snd]. rewrite filtfilt_scale, bind_outcome_map.
  apply bind_ext. intros filtered.
  unfold enhancer_stage. rewrite nonlinear_enhancer_scale, bind_outcome_map.
  apply bind_ext. intros integrated.
  unfold peak_stage. rewrite peak_detector_scale; [reflexivity|].
  now apply Rmult_lt_0_compat.
Qed.

Lemma positive_scaling_keeps_beats_witness :
  0 < 2 /\
  detect_r_peaks (map (Rmult 2) two_impulses) 360 (6 / 10) =
  detect_r_peaks two_impulses 360 (6 / 10).
Proof.
  split; [lra|].
  apply (positive_scaling_keeps_beats two_impulses 360 (6 / 10) 2). lra.
Defined.

(** * Further properties of the code *)

(** ** The recordings [detect_r_peaks] accepts *)

(** X1: at a rate above 30 Hz, a recording of at most 15 samples is
    rejected: [filtfilt] raises its [ValueError] on an input that is not
    longer than its padding of [3 * max(len(a), len(b)) = 15] samples. *)
Theorem short_recording_is_rejected (ecg : list R) (fs tf : R) :
  30 < fs -> (length ecg <= 15)%nat ->
  detect_r_peaks ecg fs tf = Raises (ValueError InputShorterThanPad).
Proof.
  intros Hfs Hlen. unfold detect_r_peaks, bandpass_stage.
  destruct (butter2_bandpass_shape fs Hfs) as (k & a1 & a2 & a3 & a4 & -> & _).
  cbn [bind fst snd]. unfold filtfilt. cbn [length Nat.max Nat.mul Nat.add].
  now replace (length ecg <=? 15)%nat with true by (symmetry; apply Nat.leb_le; lia).
Qed.

Lemma short_recording_is_rejected_witness :
  30 < 360 /\ (length (repeat 1 15) <= 15)%nat /\
  detect_r_peaks (repeat 1 15) 360 (6 / 10) = Raises (ValueError InputShorterThanPad).
Proof.
  split; [lra|]. split; [simpl; lia|].
  apply (short_recording_is_rejected (repeat 1 15) 360 (6 / 10)); [lra | simpl; lia].
Defined.


(** ** What the peak search returns *)

Lemma plateau_end_equal (fuel : nat) (x : list R) (v : R) (i0 i_max j : nat) :
  (i0 <= j < plateau_end fuel x v i0 i_max)%nat -> nth j x 0 = v.
Proof.
  revert i0. induction fuel as [|fuel IH]; intros i0 Hj; cbn [plateau_end] in Hj; [lia|].
  destruct (i0 <? i_max)%nat; cbn [andb] in Hj; [|lia].
  cbn [neqb nofZ R_numeric] in Hj.
  destruct (Reqb (nth i0 x 0) v) eqn:E; [|lia].
  apply Reqb_true in E.
  destruct (Nat.eq_dec j i0) as [->|Hne]; [exact E|].
  apply (IH (S i0)). lia.
Qed.

Lemma local_maxima_loop_peaks (fuel : nat) (x : list R) (i i_max : nat) :
  (1 <= i)%nat ->
  Forall (plateau_peak x) (local_maxima_loop fuel x i i_max).
Proof.
  revert i. induction fuel as [|fuel IH]; intros i Hi; cbn [local_maxima_loop];
    [constructor|].
  destruct (i <? i_max)%nat eqn:E; [|constructor]. apply Nat.ltb_lt in E.
  cbn [nltb nofZ R_numeric].
  destruct (Rltb (nth (i - 1) x 0) (nth i x 0)) eqn:Hrise; [|apply IH; lia].
  pose proof (plateau_end_bounds (length x) x (nth i x 0) (i + 1) i_max ltac:(lia))
    as Hia.
  pose proof (plateau_end_equal (length x) x (nth i x 0) (i + 1) i_max) as Hflat.
  cbn [nofZ R_numeric] in Hia.
  set (ia := plateau_end (length x) x (nth i x 0) (i + 1) i_max) in *.
  destruct (Rltb (nth ia x 0) (nth i x 0)) eqn:Hfall; [|apply IH; lia].
  apply Rltb_true in Hrise, Hfall.
  constructor; [|apply IH; lia].
  assert (Hm : (i <= (i + (ia - 1)) / 2 <= ia - 1)%nat).
  { split.
    - apply Nat.div_le_lower_bound; lia.
    - apply Nat.Div0.div_le_upper_bound. lia. }
  assert (Hall : forall j, (i <= j <= ia - 1)%nat -> nth j x 0 = nth i x 0).
  { intros j Hj. destruct (Nat.eq_dec j i) as [->|Hne]; [reflexivity|].
    apply Hflat. lia. }
  exists i, (ia - 1)%nat.
  rewrite (Hall _ Hm). repeat split; try lia.
  - exact Hall.
  - exact Hrise.
  - now replace (ia - 1 + 1)%nat with ia by lia.
Qed.

Lemma find_peaks_members (x : list R) (h : R) (distance : Z) (out : list nat) :
  find_peaks x h distance = Returns out ->
  Forall (fun p => h <= nth p x 0 /\ plateau_peak x p) out.
Proof.
  unfold find_peaks. destruct (distance <? 1)%Z; [discriminate|].
  intros [= <-]. apply take_kept_Forall.
  unfold select_by_height. apply Forall_forall. intros p Hp.
  apply filter_In in Hp as [Hin Hh]. cbn [nleb nofZ R_numeric] in Hh.
  apply Rleb_true in Hh. split; [exact Hh|].
  pose proof (local_maxima_loop_peaks (length x) x 1 (length x - 1) ltac:(lia)) as Hall.
  rewrite Forall_forall in Hall. now apply Hall.
Qed.

Lemma fold_max_spec (l : list R) (a : R) :
  let m := fold_left (fun m v => if Rltb m v then v else m) l a in
  a <= m /\ Forall (fun v => v <= m) l /\ (m = a \/ In m l).
Proof.
  revert a. induction l as [|v l IH]; intros a; cbn [fold_left].
  - split; [lra|]. split; [constructor | now left].
  - destruct (Rltb a v) eqn:E.
    + apply Rltb_true in E. destruct (IH v) as (H1 & H2 & H3). cbv zeta in *.
      split; [lra|]. split; [constructor; assumption|].
      right. destruct H3 as [->|H3]; [now left | now right].
    + apply Rltb_false in E. destruct (IH a) as (H1 & H2 & H3). cbv zeta in *.
      split; [lra|]. split; [constructor; [lra | assumption]|].
      destruct H3 as [H3|H3]; [now left | right; now right].
Qed.

Lemma np_max_spec (x : list R) (m : R) :
  np_max x = Returns m -> In m x /\ Forall (fun v => v <= m) x.
Proof.
  destruct x as [|x0 x]; [discriminate|]. cbn [np_max nltb R_numeric].
  intros [= <-]. destruct (fold_max_spec x x0) as (H1 & H2 & H3). cbv zeta in *.
  split.
  - destruct H3 as [->|H3]; [now left | now right].
  - constructor; assumption.
Qed.

(** *** The envelope is not negative *)

Lemma nth_nonneg (l : list R) (i : nat) : Forall (Rle 0) l -> 0 <= nth i l 0.
Proof.
  intros H. destruct (Nat.lt_ge_cases i (length l)) as [Hi|Hi].
  - rewrite Forall_forall in H. apply H, nth_In, Hi.
  - rewrite nth_overflow by exact Hi. lra.
Qed.

Lemma convolve_full_at_nonneg (a v : list R) (k : nat) :
  Forall (Rle 0) a -> Forall (Rle 0) v -> 0 <= convolve_full_at a v k.
Proof.
  intros Ha Hv. unfold convolve_full_at, nsum. cbn [nadd nmul nofZ R_numeric].
  apply fold_Rplus_nonneg; [lra|].
  apply Forall_forall. intros y Hy. apply in_map_iff in Hy as (j & <- & _).
  apply Rmult_le_pos; now apply nth_nonneg.
Qed.

Lemma np_convolve_same_nonneg (a v out : list R) :
  Forall (Rle 0) a -> Forall (Rle 0) v ->
  np_convolve_same a v = Returns out -> Forall (Rle 0) out.
Proof.
  intros Ha Hv. unfold np_convolve_same.
  destruct a as [|a0 a]; [discriminate|]. destruct v as [|v0 v]; [discriminate|].
  destruct (_ <? _)%nat;
    match goal with
    | |- Returns ?l = Returns _ -> _ =>
        assert (Hl : Forall (Rle 0) l); [|intros [= <-]; exact Hl]
    end;
    apply Forall_forall; intros y Hy;
    apply in_map_iff in Hy as (i & <- & _); now apply convolve_full_at_nonneg.
Qed.

Lemma nonlinear_enhancer_nonneg (filtered : list R) (w : Z) (env : list R) :
  nonlinear_enhancer filtered w = Returns env -> Forall (Rle 0) env.
Proof.
  unfold nonlinear_enhancer. destruct (w <? 0)%Z eqn:E; [discriminate|].
  apply Z.ltb_ge in E. apply np_convolve_same_nonneg.
  - unfold squared_derivative. apply Forall_forall. intros y Hy.
    apply in_map_iff in Hy as (d & <- & _). cbn [nmul R_numeric]. nra.
  - apply Forall_forall. intros v Hv. apply repeat_spec in Hv as ->.
    cbn [ndiv nofZ R_numeric].
    destruct (Z.eq_dec w 0) as [->|Hw].
    + unfold Rdiv. rewrite Rinv_0. lra.
    + apply Rlt_le, Rdiv_lt_0_compat; [lra|]. apply IZR_lt. lia.
Qed.

(** What a successful run of [detect_r_peaks] returns, in terms of the
    envelope and its maximum. *)
Lemma detect_r_peaks_anatomy (ecg : list R) (fs tf : R) (peaks : list Z) :
  detect_r_peaks ecg fs tf = Returns peaks ->
  exists filtered env m out,
    bandpass_stage ecg fs = Returns filtered /\
    enhancer_stage filtered fs = Returns env /\
    np_max env = Returns m /\
    peaks = map Z.of_nat out /\
    In m env /\ Forall (fun v => 0 <= v <= m) env /\
    Forall (fun p => tf * m <= nth p env 0 /\ plateau_peak env p) out.
Proof.
  intros Hrun.
  destruct (detect_r_peaks_Returns _ _ _ _ Hrun)
    as (filtered & env & out & Hband & Henv & Hout & -> & _ & _).
  unfold peak_stage, peak_detector in Hout.
  apply bind_Returns in Hout as (m & Hm & Hout). cbn [nmul R_numeric] in Hout.
  exists filtered, env, m, out.
  destruct (np_max_spec _ _ Hm) as (Hin & Hle).
  pose proof (nonlinear_enhancer_nonneg _ _ _ Henv) as Hpos.
  repeat split; try assumption.
  - apply Forall_forall. intros v Hv. rewrite Forall_forall in Hpos, Hle.
    split; [now apply Hpos | now apply Hle].
  - now apply find_peaks_members in Hout.
Qed.

(** X3: every index [detect_r_peaks] returns is a position where the
    envelope (the output of the enhancer stage) reaches the threshold
    [threshold_factor * max(envelope)]; the maximum is a sample of the
    envelope, and no sample of the envelope is negative or above it. *)
Theorem detected_beats_reach_threshold (ecg : list R) (fs tf : R) (peaks : list Z) :
  detect_r_peaks ecg fs tf = Returns peaks ->
  exists filtered env m,
    bandpass_stage ecg fs = Returns filtered /\
    enhancer_stage filtered fs = Returns env /\
    np_max env = Returns m /\
    In m env /\ Forall (fun v => 0 <= v <= m) env /\
    Forall (fun p => tf * m <= nth (Z.to_nat p) env 0) peaks.
Proof.
  intros Hrun.
  destruct (detect_r_peaks_anatomy _ _ _ _ Hrun)
    as (filtered & env & m & out & Hband & Henv & Hm & -> & Hin & Hrange & Hout).
  exists filtered, env, m. repeat split; try assumption.
  apply Forall_forall. intros z Hz. apply in_map_iff in Hz as (p & <- & Hp).
  rewrite Nat2Z.id. rewrite Forall_forall in Hout. now apply Hout.
Qed.

Lemma detected_beats_reach_threshold_witness :
  detect_r_peaks two_impulses (rational_rate (5 / 16)) (6 / 10) = Returns [3; 25]%Z /\
  exists filtered env m,
    bandpass_stage two_impulses (rational_rate (5 / 16)) = Returns filtered /\
    enhancer_stage filtered (rational_rate (5 / 16)) = Returns env /\
    np_max env = Returns m /\
    In m env /\ Forall (fun v => 0 <= v <= m) env /\
    Forall (fun p => 6 / 10 * m <= nth (Z.to_nat p) env 0) [3; 25]%Z.
Proof.
  split; [exact detect_two_impulses|].
  apply (detected_beats_reach_threshold two_impulses (rational_rate (5 / 16)) (6 / 10)
           [3; 25]%Z).
  exact detect_two_impulses.
Defined.

(** X4: every index [detect_r_peaks] returns is a local maximum of the
    envelope: it is the midpoint of a flat stretch of the envelope that is
    strictly higher than the sample before the stretch and the sample after
    it, so the envelope at the index is not below either neighbour. *)
Theorem detected_beats_are_local_maxima (ecg : list R) (fs tf : R) (peaks : list Z) :
  detect_r_peaks ecg fs tf = Returns peaks ->
  exists filtered env,
    bandpass_stage ecg fs = Returns filtered /\
    enhancer_stage filtered fs = Returns env /\
    Forall (fun p =>
              plateau_peak env (Z.to_nat p) /\
              nth (Z.to_nat p - 1) env 0 <= nth (Z.to_nat p) env 0 /\
              nth (Z.to_nat p + 1) env 0 <= nth (Z.to_nat p) env 0)
           peaks.
Proof.
  intros Hrun.
  destruct (detect_r_peaks_anatomy _ _ _ _ Hrun)
    as (filtered & env & m & out & Hband & Henv & _ & -> & _ & _ & Hout).
  exists filtered, env. repeat split; try assumption.
  apply Forall_forall. intros z Hz. apply in_map_iff in Hz as (p & <- & Hp).
  rewrite Nat2Z.id. rewrite Forall_forall in Hout.
  destruct (Hout p Hp) as (_ & Hpk). split; [exact Hpk|].
  destruct Hpk as (l & r & Hl & Hr & _ & Hflat & Hbefore & Hafter).
  split.
  - destruct (Nat.eq_dec l p) as [->|Hne]; [lra|].
    rewrite (Hflat (p - 1)%nat) by lia. lra.
  - destruct (Nat.eq_dec r p) as [->|Hne]; [lra|].
    rewrite (Hflat (p + 1)%nat) by lia. lra.
Qed.

Lemma detected_beats_are_local_maxima_witness :
  detect_r_peaks two_impulses (rational_rate (5 / 16)) (6 / 10) = Returns [3; 25]%Z /\
  exists filtered env,
    bandpass_stage two_impulses (rational_rate (5 / 16)) = Returns filtered /\
    enhancer_stage filtered (rational_rate (5 / 16)) = Returns env /\
    Forall (fun p =>
              plateau_peak env (Z.to_nat p) /\
              nth (Z.to_nat p - 1) env 0 <= nth (Z.to_nat p) env 0 /\
              nth (Z.to_nat p + 1) env 0 <= nth (Z.to_nat p) env 0)
           [3; 25]%Z.
Proof.
  split; [exact detect_two_impulses|].
  apply (detected_beats_are_local_maxima two_impulses (rational_rate (5 / 16)) (6 / 10)
           [3; 25]%Z).
  exact detect_two_impulses.
Defined.



(** *** How many beats *)

Lemma spaced_indices_span (d lo hi : Z) (l : list nat) :
  StronglySorted (fun p q => (Z.of_nat p + d <= Z.of_nat q)%Z) l ->
  Forall (fun p => (lo <= Z.of_nat p <= hi)%Z) l ->
  l <> [] ->
  ((Z.of_nat (length l) - 1) * d <= hi - lo)%Z.
Proof.
  intros Hs. revert lo. induction Hs as [|p l Hs IH Hall]; intros lo Hb Hne;
    [contradiction|].
  apply Forall_cons_iff in Hb as [Hp Hb].
  destruct l as [|q l]; [cbn [length]; lia|].
  assert (Hb' : Forall (fun x => (Z.of_nat p + d <= Z.of_nat x <= hi)%Z) (q :: l)).
  { apply Forall_forall. intros x Hx. rewrite Forall_forall in Hall, Hb.
    specialize (Hall x Hx). specialize (Hb x Hx). cbv beta in *. lia. }
  specialize (IH (Z.of_nat p + d)%Z Hb' ltac:(discriminate)).
  cbn [length] in *. lia.
Qed.

(** X6: the number of beats [detect_r_peaks] returns is bounded by the
    length of the envelope: [n] beats take at least [(n - 1)] times the
    minimum distance [int(0.6 * fs)], between the second and the
    second-to-last sample of the envelope, whose length is the larger of
    [len(ecg) - 1] and the window length. *)
Theorem beat_count_is_bounded (ecg : list R) (fs tf : R) (peaks : list Z) :
  detect_r_peaks ecg fs tf = Returns peaks ->
  ((Z.of_nat (length peaks) - 1) * min_distance fs
   <= Z.max (Z.of_nat (length ecg) - 1) (window_size fs) - 3)%Z.
Proof.
  intros Hrun.
  pose proof (detect_r_peaks_rate _ _ _ _ Hrun) as Hfs.
  destruct (min_distance_floor fs Hfs) as (_ & Hd).
  destruct (detect_r_peaks_Returns _ _ _ _ Hrun)
    as (filtered & env & out & _ & Henv & Hout & -> & Hlen & Hlong).
  apply nonlinear_enhancer_length in Henv as (Hw & _ & Hlen').
  apply peak_detector_spec in Hout as (_ & Hb & Hs).
  rewrite length_map.
  destruct out as [|p out]; [cbn [length]; lia|].
  pose proof (spaced_indices_span (min_distance fs) 1
                (Z.max (Z.of_nat (length ecg) - 1) (window_size fs) - 2)
                (p :: out) Hs) as Hspan.
  assert (Hb' : Forall (fun p => (1 <= Z.of_nat p
                  <= Z.max (Z.of_nat (length ecg) - 1) (window_size fs) - 2)%Z)
                  (p :: out)).
  { eapply List.Forall_impl; [|exact Hb]. cbv beta. intros q Hq.
    rewrite Hlen', Hlen in Hq. lia. }
  specialize (Hspan Hb' ltac:(discriminate)). lia.
Qed.

Lemma beat_count_is_bounded_witness :
  detect_r_peaks two_impulses (rational_rate (5 / 16)) (6 / 10) = Returns [3; 25]%Z /\
  ((Z.of_nat (length [3; 25]%Z) - 1) * min_distance (rational_rate (5 / 16))
   <= Z.max (Z.of_nat (length (@two_impulses R _)) - 1)
            (window_size (rational_rate (5 / 16))) - 3)%Z.
Proof.
  split; [exact detect_two_impulses|].
  apply (beat_count_is_bounded two_impulses (rational_rate (5 / 16)) (6 / 10) [3; 25]%Z).
  exact detect_two_impulses.
Defined.

(** ** Polarity and baseline of the recording *)

(** X7: [detect_r_peaks] does not see the polarity of the recording: for
    every negative factor [c] (an inverted lead is [c = -1]) the recording
    scaled by [c] gives exactly the result of the recording itself, because
    the filtered signal is squared. *)
Theorem negative_scaling_keeps_beats (ecg : list R) (fs tf c : R) :
  c < 0 ->
  detect_r_peaks (map (Rmult c) ecg) fs tf = detect_r_peaks ecg fs tf.
Proof.
  intros Hc. unfold detect_r_peaks, bandpass_stage.
  destruct (butter2_bandpass 5 15 fs) as [[b a]|e]; [|reflexivity].
  cbn [bind fst snd]. rewrite filtfilt_scale, bind_outcome_map.
  apply bind_ext. intros filtered.
  unfold enhancer_stage. rewrite nonlinear_enhancer_scale, bind_outcome_map.
  apply bind_ext. intros integrated.
  unfold peak_stage. rewrite peak_detector_scale; [reflexivity|]. nra.
Qed.

Lemma negative_scaling_keeps_beats_witness :
  -1 < 0 /\
  detect_r_peaks (map (Rmult (-1)) two_impulses) 360 (6 / 10) =
  detect_r_peaks two_impulses 360 (6 / 10).
Proof.
  split; [lra|].
  apply (negative_scaling_keeps_beats two_impulses 360 (6 / 10) (-1)). lra.
Defined.

Section Baseline.

Variables k a1 a2 a3 a4 : R.
Hypothesis denominator_sum : 1 + a1 + a2 + a3 + a4 <> 0.
Variable c : R.

Local Abbreviation b := [k; 0; - 2 * k; 0; k].
Local Abbreviation a := [1; a1; a2; a3; a4].

(** The delay values of the filter moved by those of the steady state at
    the level [c]. *)
Local Abbreviation lifted z0 z1 z2 z3 :=
  [z0 + - k * c; z1 + - k * c; z2 + k * c; z3 + k * c].

(** A sample raised by [c], with the delay values lifted, gives the same
    output and leaves the delay values lifted. *)
Lemma bandpass_step_lifted (z0 z1 z2 z3 x : R) :
  exists y z0' z1' z2' z3',
    lfilter_step b a [z0; z1; z2; z3] x = (y, [z0'; z1'; z2'; z3']) /\
    lfilter_step b a (lifted z0 z1 z2 z3) (c + x) = (y, lifted z0' z1' z2' z3').
Proof.
  unfold lfilter_step. cbn [hd tl next_state nadd nsub nmul R_numeric nofZ].
  eexists _, _, _, _, _. split; [reflexivity|].
  apply f_equal2; [ring|].
  repeat (apply (f_equal2 (@cons R)); [ring|]). reflexivity.
Qed.

Lemma lfilter_run_lifted (x : list R) (z0 z1 z2 z3 : R) :
  exists ys z0' z1' z2' z3',
    lfilter_run b a [z0; z1; z2; z3] x = (ys, [z0'; z1'; z2'; z3']) /\
    lfilter_run b a (lifted z0 z1 z2 z3) (map (Rplus c) x) =
      (ys, lifted z0' z1' z2' z3').
Proof.
  revert z0 z1 z2 z3. induction x as [|x0 x IH]; intros z0 z1 z2 z3.
  - eexists _, _, _, _, _. split; reflexivity.
  - destruct (bandpass_step_lifted z0 z1 z2 z3 x0)
      as (y & u0 & u1 & u2 & u3 & Hstep & Hstep').
    destruct (IH u0 u1 u2 u3) as (ys & v0 & v1 & v2 & v3 & Hrun & Hrun').
    exists (y :: ys), v0, v1, v2, v3.
    cbn [map lfilter_run]. rewrite Hstep, Hstep', Hrun, Hrun'. split; reflexivity.
Qed.

Lemma odd_ext_lifted (x : list R) (n : nat) :
  x <> [] -> odd_ext (map (Rplus c) x) n = map (Rplus c) (odd_ext x n).
Proof.
  intros Hx. unfold odd_ext. cbn [nofZ nsub nmul R_numeric].
  assert (Hhd : hd 0 (map (Rplus c) x) = c + hd 0 x)
    by (destruct x; [contradiction | reflexivity]).
  assert (Hlast : last (map (Rplus c) x) 0 = c + last x 0).
  { clear Hhd. induction x as [|v [|w x] IH]; [contradiction | reflexivity|].
    apply IH. discriminate. }
  rewrite Hhd, Hlast, length_map, !skipn_map, !firstn_map, <- !map_rev.
  rewrite !map_app, !map_map.
  apply f_equal2; [|apply f_equal]; apply map_ext; intros v; ring.
Qed.

(** The band-pass stage removes a constant offset altogether. *)
Lemma filtfilt_lifted (x : list R) :
  filtfilt b a (map (Rplus c) x) = filtfilt b a x.
Proof.
  unfold filtfilt. rewrite length_map.
  cbn [length Nat.max Nat.mul Nat.add].
  destruct (length x <=? 15)%nat eqn:E; [reflexivity|].
  apply Nat.leb_gt in E.
  rewrite odd_ext_lifted by (intros ->; cbn [length] in E; lia).
  rewrite lfilter_zi_bandpass by exact denominator_sum. cbn [bind].
  set (ext := odd_ext x 15).
  assert (Hext : ext <> []).
  { intros Hnil. apply (f_equal (@length R)) in Hnil. unfold ext in Hnil.
    rewrite odd_ext_length in Hnil by lia. cbn [length] in Hnil. lia. }
  destruct ext as [|x0 ext']; [contradiction|]. clear Hext.
  cbn [map hd nmul R_numeric].
  destruct (lfilter_run_lifted (x0 :: ext') (- k * x0) (- k * x0) (k * x0) (k * x0))
    as (ys & z0 & z1 & z2 & z3 & Hrun & Hrun').
  assert (Hfwd : lfilter b a (x0 :: ext') [- k * x0; - k * x0; k * x0; k * x0] =
                 Returns (ys, [z0; z1; z2; z3])).
  { unfold lfilter, lfilter_normalized. cbn [neqb R_numeric nofZ ndiv].
    replace (Reqb 1 (IZR 0)) with false by (symmetry; apply Reqb_false; lra).
    rewrite !map_div_one. cbn [length Nat.max Nat.sub Nat.eqb negb].
    unfold pad_to. cbn [length Nat.sub repeat app]. f_equal. exact Hrun. }
  assert (Hfwd' : lfilter b a (map (Rplus c) (x0 :: ext'))
                    [- k * (c + x0); - k * (c + x0); k * (c + x0); k * (c + x0)] =
                  Returns (ys, [z0 + - k * c; z1 + - k * c; z2 + k * c; z3 + k * c])).
  { unfold lfilter, lfilter_normalized. cbn [neqb R_numeric nofZ ndiv].
    replace (Reqb 1 (IZR 0)) with false by (symmetry; apply Reqb_false; lra).
    rewrite !map_div_one. cbn [length Nat.max Nat.sub Nat.eqb negb].
    unfold pad_to. cbn [length Nat.sub repeat app]. f_equal.
    rewrite <- Hrun'. f_equal.
    repeat (apply (f_equal2 (@cons R)); [ring|]). reflexivity. }
  cbn [map] in Hfwd'. rewrite Hfwd, Hfwd'. reflexivity.
Qed.

End Baseline.

(** X8: [detect_r_peaks] does not see the baseline of the recording: adding
    the same constant to every sample changes nothing in the result, the
    index sequence or the error.  The band-pass has no gain at frequency 0
    and [filtfilt] starts it in the steady state of the first sample. *)
Theorem constant_offset_keeps_beats (ecg : list R) (fs tf c : R) :
  detect_r_peaks (map (Rplus c) ecg) fs tf = detect_r_peaks ecg fs tf.
Proof.
  unfold detect_r_peaks, bandpass_stage.
  destruct (Rlt_dec 30 fs) as [Hfs|Hfs].
  - destruct (butter2_bandpass_shape fs Hfs) as (k & a1 & a2 & a3 & a4 & -> & Hsum).
    cbn [bind fst snd]. now rewrite filtfilt_lifted.
  - now rewrite butter2_bandpass_below_nyquist by lra.
Qed.

(** ** The distance selection drops no peak without need *)

Section Maximality.

Variable peaks : list nat.
Variable distance : Z.
Hypothesis peaks_increasing : increasing peaks.








End Maximality.





(** ** A threshold factor that is not positive *)




(** ** Heart rates *)

Lemma compute_heart_rate_formula (r_peaks : list Z) (fs : R) :
  fs <> 0 -> Forall (fun g => g <> 0%Z) (np_diff Z.sub r_peaks) ->
  compute_heart_rate r_peaks fs =
  Returns (map (fun g => Fin (60 * fs / IZR g)) (np_diff Z.sub r_peaks)).
Proof.
  intros Hfs Hg. unfold compute_heart_rate, rr_seconds. f_equal.
  rewrite map_map. apply map_ext_in. intros g Hin.
  rewrite Forall_forall in Hg. specialize (Hg g Hin).
  assert (Hg' : IZR g <> 0) by (now apply not_0_IZR).
  rewrite xdiv_fin by exact Hfs.
  rewrite xdiv_fin.
  - f_equal. field. split; assumption.
  - unfold Rdiv. apply Rmult_integral_contrapositive_currified;
      [exact Hg' | now apply Rinv_neq_0_compat].
Qed.

(** X9: at a non-zero sampling rate and for consecutive beat indices that
    differ, [compute_heart_rate] returns one rate per interval, and the rate
    of an interval of [g] samples is [60 * fs / g] beats per minute. *)
Theorem heart_rate_is_sixty_fs_over_gap (r_peaks : list Z) (fs : R) :
  fs <> 0 -> Forall (fun g => g <> 0%Z) (np_diff Z.sub r_peaks) ->
  compute_heart_rate r_peaks fs =
  Returns (map (fun g => Fin (60 * fs / IZR g)) (np_diff Z.sub r_peaks)).
Proof. apply compute_heart_rate_formula. Qed.

Lemma heart_rate_is_sixty_fs_over_gap_witness :
  100 <> 0 /\ Forall (fun g => g <> 0%Z) (np_diff Z.sub [0; 100; 200]%Z) /\
  compute_heart_rate [0; 100; 200]%Z 100 =
  Returns (map (fun g => Fin (60 * 100 / IZR g)) (np_diff Z.sub [0; 100; 200]%Z)).
Proof.
  assert (H : Forall (fun g => g <> 0%Z) (np_diff Z.sub [0; 100; 200]%Z))
    by (repeat constructor; discriminate).
  split; [lra|]. split; [exact H|].
  apply (heart_rate_is_sixty_fs_over_gap [0; 100; 200]%Z 100); [lra | exact H].
Defined.

(** X10: a sampling rate of 0 raises nothing: every interval between two
    different beat indices is infinite, and its rate is 0. *)
Theorem heart_rate_at_zero_sampling_rate (r_peaks : list Z) :
  Forall (fun g => g <> 0%Z) (np_diff Z.sub r_peaks) ->
  compute_heart_rate r_peaks 0 = Returns (repeat (Fin 0) (length r_peaks - 1)).
Proof.
  intros Hg. unfold compute_heart_rate, rr_seconds. f_equal.
  rewrite map_map, <- (np_diff_length Z.sub r_peaks).
  induction Hg as [|g gaps Hg _ IH]; [reflexivity|].
  cbn [map length repeat]. rewrite IH. f_equal.
  cbn [xdiv]. rewrite Reqb_refl. unfold inf_of_sign.
  assert (Hg' : IZR g <> 0) by (now apply not_0_IZR).
  destruct (Rltb 0 (IZR g)) eqn:E; [reflexivity|].
  apply Rltb_false in E.
  replace (Rltb (IZR g) 0) with true by (symmetry; apply Rltb_true; lra).
  reflexivity.
Qed.

Lemma heart_rate_at_zero_sampling_rate_witness :
  Forall (fun g => g <> 0%Z) (np_diff Z.sub [0; 100; 200]%Z) /\
  compute_heart_rate [0; 100; 200]%Z 0 =
  Returns (repeat (Fin 0) (length [0; 100; 200]%Z - 1)).
Proof.
  assert (H : Forall (fun g => g <> 0%Z) (np_diff Z.sub [0; 100; 200]%Z))
    by (repeat constructor; discriminate).
  split; [exact H|].
  apply (heart_rate_at_zero_sampling_rate [0; 100; 200]%Z). exact H.
Defined.

(** X11: a beat index that is repeated raises nothing: at a positive
    sampling rate an interval of 0 samples has the rate +inf.  (At a
    negative rate the interval is -0.0 in float64 and the rate -inf; the
    zero of the model has no sign.) *)
Theorem heart_rate_of_repeated_beats (r_peaks : list Z) (fs : R) :
  0 < fs -> Forall (fun g => g = 0%Z) (np_diff Z.sub r_peaks) ->
  compute_heart_rate r_peaks fs = Returns (repeat PInf (length r_peaks - 1)).
Proof.
  intros Hpos Hg. assert (Hfs : fs <> 0) by lra.
  unfold compute_heart_rate, rr_seconds. f_equal.
  rewrite map_map, <- (np_diff_length Z.sub r_peaks).
  induction Hg as [|g gaps -> _ IH]; [reflexivity|].
  cbn [map length repeat]. rewrite IH. f_equal.
  rewrite xdiv_fin by exact Hfs. cbn [xdiv].
  replace (Reqb (0 / fs) 0) with true
    by (symmetry; apply Reqb_true; unfold Rdiv; ring).
  unfold inf_of_sign.
  now replace (Rltb 0 60) with true by (symmetry; apply Rltb_true; lra).
Qed.

Lemma heart_rate_of_repeated_beats_witness :
  0 < 360 /\ Forall (fun g => g = 0%Z) (np_diff Z.sub [50; 50]%Z) /\
  compute_heart_rate [50; 50]%Z 360 = Returns (repeat PInf (length [50; 50]%Z - 1)).
Proof.
  assert (H : Forall (fun g => g = 0%Z) (np_diff Z.sub [50; 50]%Z))
    by (repeat constructor).
  split; [lra|]. split; [exact H|].
  apply (heart_rate_of_repeated_beats [50; 50]%Z 360); [lra | exact H].
Defined.

(** *** From the detected beats to the rates *)

Lemma gaps_at_least_diff (d : Z) (peaks : list Z) :
  gaps_at_least d peaks -> Forall (fun g => (d <= g)%Z) (np_diff Z.sub peaks).
Proof.
  unfold gaps_at_least. induction 1 as [|p peaks Hs IH Hall]; [constructor|].
  destruct peaks as [|q peaks]; [constructor|].
  rewrite np_diff_cons. constructor; [|exact IH].
  apply Forall_inv in Hall. lia.
Qed.

(** X12: the rates [compute_heart_rate] computes from the beats
    [detect_r_peaks] returns, at the same sampling rate, are real numbers,
    positive, at most [60 * fs / int(0.6 * fs)] and below 106 beats per
    minute: two detected beats are never closer than the minimum
    distance. *)
Theorem detected_heart_rates_are_bounded
    (ecg : list R) (fs tf : R) (peaks : list Z) :
  detect_r_peaks ecg fs tf = Returns peaks ->
  exists hr,
    compute_heart_rate peaks fs = Returns hr /\
    length hr = (length peaks - 1)%nat /\
    Forall (fun h => exists r, h = Fin r /\
                       0 < r <= 60 * fs / IZR (min_distance fs) /\ r < 106) hr.
Proof.
  intros Hrun.
  pose proof (detect_r_peaks_rate _ _ _ _ Hrun) as Hfs.
  destruct (detect_r_peaks_gaps _ _ _ _ Hrun) as (Hgaps & Hfloor & Hd).
  apply gaps_at_least_diff in Hgaps.
  assert (Hnz : Forall (fun g => g <> 0%Z) (np_diff Z.sub peaks)).
  { eapply List.Forall_impl; [|exact Hgaps]. cbv beta. intros g Hg. lia. }
  rewrite (compute_heart_rate_formula peaks fs ltac:(lra) Hnz).
  eexists. split; [reflexivity|].
  split; [now rewrite length_map, np_diff_length|].
  apply Forall_forall. intros h Hh. apply in_map_iff in Hh as (g & <- & Hg).
  rewrite Forall_forall in Hgaps. specialize (Hgaps g Hg). cbv beta in Hgaps.
  eexists. split; [reflexivity|].
  set (d := min_distance fs) in *.
  assert (Hd18 : 18 <= IZR d) by (apply IZR_le in Hd; exact Hd).
  assert (Hgd : IZR d <= IZR g) by (now apply IZR_le).
  assert (Hfl : 6 / 10 * fs < IZR d + 1).
  { rewrite Hfloor. pose proof (Zfloor_bound (6 / 10 * fs)) as [_ Hb]. lra. }
  assert (Hid : 0 < / IZR d) by (apply Rinv_0_lt_compat; lra).
  assert (Hig : 0 < / IZR g) by (apply Rinv_0_lt_compat; lra).
  assert (Hle : / IZR g <= / IZR d) by (apply Rinv_le_contravar; lra).
  assert (Hone : IZR d * / IZR d = 1) by (apply Rinv_r; lra).
  unfold Rdiv. repeat split.
  - apply Rmult_lt_0_compat; lra.
  - apply Rmult_le_compat_l; lra.
  - apply Rle_lt_trans with (60 * fs * / IZR d).
    + apply Rmult_le_compat_l; lra.
    + assert (60 * fs < 100 * IZR d + 100) by lra.
      assert (100 * / IZR d <= 100 * / 18).
      { apply Rmult_le_compat_l; [lra|]. apply Rinv_le_contravar; lra. }
      assert (60 * fs * / IZR d < (100 * IZR d + 100) * / IZR d)
        by (apply Rmult_lt_compat_r; lra).
      replace ((100 * IZR d + 100) * / IZR d) with (100 * (IZR d * / IZR d) + 100 * / IZR d)
        in * by ring.
      rewrite Hone in *. lra.
Qed.

Lemma detected_heart_rates_are_bounded_witness :
  detect_r_peaks two_impulses (rational_rate (5 / 16)) (6 / 10) = Returns [3; 25]%Z /\
  exists hr,
    compute_heart_rate [3; 25]%Z (rational_rate (5 / 16)) = Returns hr /\
    length hr = (length [3; 25]%Z - 1)%nat /\
    Forall (fun h => exists r, h = Fin r /\
                       0 < r <= 60 * rational_rate (5 / 16) /
                                IZR (min_distance (rational_rate (5 / 16))) /\
                       r < 106) hr.
Proof.
  split; [exact detect_two_impulses|].
  apply (detected_heart_rates_are_bounded two_impulses (rational_rate (5 / 16)) (6 / 10)
           [3; 25]%Z).
  exact detect_two_impulses.
Defined.

(** ** The beat indices enter through their differences *)

Lemma np_diff_shift (k : Z) (l : list Z) :
  np_diff Z.sub (map (Z.add k) l) = np_diff Z.sub l.
Proof.
  destruct l as [|x l]; [reflexivity|].
  revert x. induction l as [|y l IH]; intros x; [reflexivity|].
  cbn [map]. rewrite !np_diff_cons. cbn [map] in IH. rewrite IH.
  f_equal. lia.
Qed.

(** X13: [compute_heart_rate] and [compute_hrv_metrics] depend on the beat
    indices only through their differences: moving every index by the same
    number of samples changes nothing in either result. *)
Theorem beat_index_shift_keeps_rates_and_metrics (r_peaks : list Z) (fs : R) (k : Z) :
  compute_heart_rate (map (Z.add k) r_peaks) fs = compute_heart_rate r_peaks fs /\
  compute_hrv_metrics (map (Z.add k) r_peaks) fs = compute_hrv_metrics r_peaks fs.
Proof.
  unfold compute_heart_rate, compute_hrv_metrics, rr_milliseconds, rr_seconds.
  now rewrite np_diff_shift.
Qed.

Lemma np_diff_stretch (k : Z) (l : list Z) :
  np_diff Z.sub (map (Z.mul k) l) = map (Z.mul k) (np_diff Z.sub l).
Proof.
  destruct l as [|x l]; [reflexivity|].
  revert x. induction l as [|y l IH]; intros x; [reflexivity|].
  cbn [map]. rewrite !np_diff_cons. cbn [map] in *. rewrite IH.
  f_equal. lia.
Qed.

Lemma rr_seconds_stretch (r_peaks : list Z) (fs : R) (k : Z) :
  (0 < k)%Z ->
  rr_seconds (map (Z.mul k) r_peaks) (IZR k * fs) = rr_seconds r_peaks fs.
Proof.
  intros Hk. unfold rr_seconds. rewrite np_diff_stretch, map_map.
  apply map_ext. intros g. rewrite mult_IZR.
  assert (Hk' : 0 < IZR k) by (now apply IZR_lt).
  destruct (Req_dec_T fs 0) as [->|Hfs].
  - cbn [xdiv]. rewrite Rmult_0_r, Reqb_refl. unfold inf_of_sign.
    destruct (Rltb 0 (IZR g)) eqn:E1.
    + apply Rltb_true in E1.
      now replace (Rltb 0 (IZR k * IZR g)) with true
        by (symmetry; apply Rltb_true; nra).
    + apply Rltb_false in E1.
      replace (Rltb 0 (IZR k * IZR g)) with false
        by (symmetry; apply Rltb_false; nra).
      destruct (Rltb (IZR g) 0) eqn:E2.
      * apply Rltb_true in E2.
        now replace (Rltb (IZR k * IZR g) 0) with true
          by (symmetry; apply Rltb_true; nra).
      * apply Rltb_false in E2.
        now replace (Rltb (IZR k * IZR g) 0) with false
          by (symmetry; apply Rltb_false; nra).
  - rewrite !xdiv_fin by (try exact Hfs; nra). f_equal. field. split; lra.
Qed.

(** X14: [compute_heart_rate] and [compute_hrv_metrics] see only the beat
    times: multiplying every beat index and the sampling rate by the same
    positive integer (the same beats at a [k] times higher rate) changes
    nothing in either result. *)
Theorem resampling_keeps_rates_and_metrics (r_peaks : list Z) (fs : R) (k : Z) :
  (0 < k)%Z ->
  compute_heart_rate (map (Z.mul k) r_peaks) (IZR k * fs) = compute_heart_rate r_peaks fs /\
  compute_hrv_metrics (map (Z.mul k) r_peaks) (IZR k * fs) = compute_hrv_metrics r_peaks fs.
Proof.
  intros Hk.
  unfold compute_heart_rate, compute_hrv_metrics, rr_milliseconds.
  now rewrite rr_seconds_stretch.
Qed.

Lemma resampling_keeps_rates_and_metrics_witness :
  (0 < 2)%Z /\
  compute_heart_rate (map (Z.mul 2) [0; 300; 610]%Z) (IZR 2 * 360) =
    compute_heart_rate [0; 300; 610]%Z 360 /\
  compute_hrv_metrics (map (Z.mul 2) [0; 300; 610]%Z) (IZR 2 * 360) =
    compute_hrv_metrics [0; 300; 610]%Z 360.
Proof.
  split; [lia|].
  apply (resampling_keeps_rates_and_metrics [0; 300; 610]%Z 360 2). lia.
Defined.

(** ** The time-domain metrics *)

Lemma rr_milliseconds_finite (r_peaks : list Z) (fs : R) :
  fs <> 0 ->
  rr_milliseconds r_peaks fs =
  map (fun g => Fin (IZR g / fs * 1000)) (np_diff Z.sub r_peaks).
Proof.
  intros Hfs. unfold rr_milliseconds, rr_seconds. rewrite map_map.
  apply map_ext. intros g. now rewrite xdiv_fin by exact Hfs.
Qed.

(** X15: with exactly two beats, at a sampling rate of at least 1 Hz,
    [compute_hrv_metrics] returns the single interval in milliseconds as
    [mean_rr], 0 for [std_rr], [nn50] and [pnn50], and NaN for [rmssd] and
    [sdsd], which are taken over an empty sequence of successive
    differences.  The interval is the exact quotient and product; in
    float64 both are rounded, and at such a rate the interval of two
    [int64] indices does not overflow. *)
Theorem hrv_of_two_beats (p q : Z) (fs : R) :
  1 <= fs ->
  exists hrv,
    compute_hrv_metrics [p; q] fs = Returns hrv /\
    hrv !! "mean_rr" = Some (Fin (IZR (q - p) / fs * 1000)) /\
    hrv !! "std_rr" = Some (Fin 0) /\
    hrv !! "rmssd" = Some NaN /\
    hrv !! "sdsd" = Some NaN /\
    hrv !! "nn50" = Some (Fin 0) /\
    hrv !! "pnn50" = Some (Fin 0).
Proof.
  intros Hrate. assert (Hfs : fs <> 0) by lra.
  destruct (compute_hrv_metrics_keys [p; q] fs)
    as (hrv & Hrun & _ & _ & _ & _ & Hmean & Hstd & Hrmssd & Hsdsd & Hnn & Hpnn).
  cbv zeta in *.
  rewrite (rr_milliseconds_finite _ _ Hfs) in *.
  cbn [np_diff map] in *.
  set (v := IZR (q - p) / fs * 1000) in *.
  change [Fin v] with (repeat (Fin v) 1) in *.
  rewrite np_mean_repeat in Hmean. rewrite np_std_repeat in Hstd.
  cbn [repeat np_diff map] in *.
  rewrite np_mean_empty in Hrmssd. rewrite np_std_empty in Hsdsd.
  unfold nn50_count in *. cbn [np_diff filter length INR] in *.
  rewrite xdiv_fin in Hpnn by lra. cbn [xmul] in Hpnn.
  replace (0 / 1 * 100) with 0 in Hpnn by field.
  exists hrv. repeat split; assumption.
Qed.

Lemma hrv_of_two_beats_witness :
  1 <= 360 /\
  exists hrv,
    compute_hrv_metrics [100; 400]%Z 360 = Returns hrv /\
    hrv !! "mean_rr" = Some (Fin (IZR (400 - 100) / 360 * 1000)) /\
    hrv !! "std_rr" = Some (Fin 0) /\
    hrv !! "rmssd" = Some NaN /\
    hrv !! "sdsd" = Some NaN /\
    hrv !! "nn50" = Some (Fin 0) /\
    hrv !! "pnn50" = Some (Fin 0).
Proof.
  split; [lra|]. apply (hrv_of_two_beats 100 400 360). lra.
Defined.

Lemma np_diff_xsub_finite (l : list xreal) :
  Forall finite l -> Forall finite (np_diff xsub l).
Proof.
  induction 1 as [|x l Hx Hl IH]; [constructor|].
  destruct l as [|y l]; [constructor|].
  rewrite np_diff_cons. constructor; [|exact IH].
  apply Forall_inv in Hl. destruct Hx as [a ->], Hl as [b ->]. now eexists.
Qed.

Lemma xsqrt_nonneg (x : xreal) : nonneg x -> nonneg (xsqrt x).
Proof.
  intros (r & -> & Hr). cbn [xsqrt].
  replace (Rltb r 0) with false by (symmetry; apply Rltb_false; lra).
  eexists. split; [reflexivity | apply sqrt_pos].
Qed.

Lemma squares_nonneg (f : xreal -> xreal) (l : list xreal) :
  Forall finite (map f l) ->
  Forall nonneg (map (fun x => xmul (f x) (f x)) l).
Proof.
  intros H. apply Forall_forall. intros y Hy.
  apply in_map_iff in Hy as (x & <- & Hx).
  rewrite Forall_forall in H. destruct (H (f x)) as [r Hr].
  { apply in_map_iff. now exists x. }
  rewrite Hr. cbn [xmul]. eexists. split; [reflexivity | nra].
Qed.

Lemma np_std_nonneg (l : list xreal) :
  l <> [] -> Forall finite l -> nonneg (np_std l).
Proof.
  intros Hne Hfin. unfold np_std.
  destruct (np_mean_finite l Hne Hfin) as [m Hm]. rewrite Hm.
  apply xsqrt_nonneg, np_mean_nonneg.
  - destruct l; [contradiction | discriminate].
  - apply (squares_nonneg (fun x => xsub x (Fin m))).
    apply Forall_forall. intros y Hy. apply in_map_iff in Hy as (x & <- & Hx).
    rewrite Forall_forall in Hfin. destruct (Hfin x Hx) as [r ->]. now eexists.
Qed.

(** X16: with at least three beats, at a sampling rate of at least 1 Hz,
    the time-domain metrics are real numbers (no NaN, no infinity), and
    [std_rr], [rmssd] and [sdsd] are not negative.  The values are those of
    exact arithmetic; at such a rate the intervals of [int64] indices and
    their squares do not overflow in float64. *)
Theorem time_domain_metrics_are_real (r_peaks : list Z) (fs : R) :
  1 <= fs -> (3 <= length r_peaks)%nat ->
  exists hrv,
    compute_hrv_metrics r_peaks fs = Returns hrv /\
    (exists m, hrv !! "mean_rr" = Some (Fin m)) /\
    (exists s, hrv !! "std_rr" = Some (Fin s) /\ 0 <= s) /\
    (exists s, hrv !! "rmssd" = Some (Fin s) /\ 0 <= s) /\
    (exists s, hrv !! "sdsd" = Some (Fin s) /\ 0 <= s).
Proof.
  intros Hrate Hlen. assert (Hfs : fs <> 0) by lra.
  destruct (compute_hrv_metrics_keys r_peaks fs)
    as (hrv & Hrun & _ & _ & _ & Hn & Hmean & Hstd & Hrmssd & Hsdsd & _ & _).
  cbv zeta in *. set (rr := rr_milliseconds r_peaks fs) in *.
  assert (Hfin : Forall finite rr).
  { unfold rr. rewrite (rr_milliseconds_finite _ _ Hfs).
    apply Forall_forall. intros y Hy. apply in_map_iff in Hy as (g & <- & _).
    now eexists. }
  assert (Hne : rr <> []) by (intros E; rewrite E in Hn; cbn [length] in Hn; lia).
  pose proof (np_diff_xsub_finite rr Hfin) as Hdfin.
  assert (Hdne : np_diff xsub rr <> []).
  { intros E. apply (f_equal (@length xreal)) in E.
    rewrite np_diff_length in E. cbn [length] in E. lia. }
  exists hrv. split; [exact Hrun|]. repeat split.
  - destruct (np_mean_finite rr Hne Hfin) as [m Hm]. exists m. now rewrite Hmean, Hm.
  - destruct (np_std_nonneg rr Hne Hfin) as (s & Hs & Hs0). exists s.
    now rewrite Hstd, Hs.
  - destruct (xsqrt_nonneg (np_mean (map (fun d => xmul d d) (np_diff xsub rr))))
      as (s & Hs & Hs0).
    { apply np_mean_nonneg.
      - destruct (np_diff xsub rr); [contradiction | discriminate].
      - apply (squares_nonneg (fun d => d)). now rewrite map_id. }
    exists s. now rewrite Hrmssd, Hs.
  - destruct (np_std_nonneg _ Hdne Hdfin) as (s & Hs & Hs0). exists s.
    now rewrite Hsdsd, Hs.
Qed.

Lemma time_domain_metrics_are_real_witness :
  1 <= 360 /\ (3 <= length [0; 300; 610]%Z)%nat /\
  exists hrv,
    compute_hrv_metrics [0; 300; 610]%Z 360 = Returns hrv /\
    (exists m, hrv !! "mean_rr" = Some (Fin m)) /\
    (exists s, hrv !! "std_rr" = Some (Fin s) /\ 0 <= s) /\
    (exists s, hrv !! "rmssd" = Some (Fin s) /\ 0 <= s) /\
    (exists s, hrv !! "sdsd" = Some (Fin s) /\ 0 <= s).
Proof.
  split; [lra|]. split; [simpl; lia|].
  apply (time_domain_metrics_are_real [0; 300; 610]%Z 360); [lra | simpl; lia].
Defined.

(** *** The mean interval *)

Lemma last_default (l : list Z) (x y : Z) : l <> [] -> last l x = last l y.
Proof.
  induction l as [|z [|w l] IH]; intros Hne; [contradiction | reflexivity|].
  change (last (w :: l) x = last (w :: l) y). apply IH. discriminate.
Qed.

Lemma fold_Zadd_diff (l : list Z) (x a : Z) :
  fold_left Z.add (np_diff Z.sub (x :: l)) a = (a + last l x - x)%Z.
Proof.
  revert x a. induction l as [|y l IH]; intros x a; [cbn; lia|].
  rewrite np_diff_cons. cbn [fold_left]. rewrite IH.
  destruct l as [|z l]; [cbn [last]; lia|].
  change (last (y :: z :: l) x) with (last (z :: l) x).
  rewrite (last_default (z :: l) y x) by discriminate. lia.
Qed.

Lemma fold_Rplus_gaps (gaps : list Z) (fs : R) (a : Z) :
  fold_left Rplus (map (fun g => IZR g / fs * 1000) gaps) (IZR a / fs * 1000) =
  IZR (fold_left Z.add gaps a) / fs * 1000.
Proof.
  revert a. induction gaps as [|g gaps IH]; intros a; [reflexivity|].
  cbn [map fold_left]. rewrite <- IH, plus_IZR. f_equal. unfold Rdiv. ring.
Qed.

(** X17: with at least two beats, at a non-zero sampling rate, [mean_rr]
    depends on the first and the last beat only: it is the time between
    them in milliseconds divided by the number of intervals. *)
Theorem mean_rr_spans_first_to_last (first : Z) (rest : list Z) (fs : R) :
  fs <> 0 -> rest <> [] ->
  exists hrv,
    compute_hrv_metrics (first :: rest) fs = Returns hrv /\
    hrv !! "mean_rr" =
      Some (Fin (IZR (last rest first - first) / fs * 1000 / INR (length rest))).
Proof.
  intros Hfs Hrest.
  destruct (compute_hrv_metrics_keys (first :: rest) fs)
    as (hrv & Hrun & _ & _ & _ & _ & Hmean & _).
  cbv zeta in *. exists hrv. split; [exact Hrun|].
  rewrite Hmean. f_equal.
  rewrite (rr_milliseconds_finite _ _ Hfs).
  unfold np_mean. rewrite <- (map_map (fun g => IZR g / fs * 1000) Fin).
  rewrite np_sum_map_Fin, !length_map, np_diff_length.
  replace (length (first :: rest) - 1)%nat with (length rest)
    by (cbn [length]; lia).
  assert (Hn : INR (length rest) <> 0).
  { apply not_0_INR. destruct rest; [contradiction | discriminate]. }
  rewrite xdiv_fin by exact Hn. f_equal.
  replace 0 with (IZR 0 / fs * 1000) at 1 by (unfold Rdiv; ring).
  rewrite fold_Rplus_gaps, fold_Zadd_diff. repeat f_equal; lia.
Qed.

Lemma mean_rr_spans_first_to_last_witness :
  360 <> 0 /\ [300; 610]%Z <> [] /\
  exists hrv,
    compute_hrv_metrics (0 :: [300; 610])%Z 360 = Returns hrv /\
    hrv !! "mean_rr" =
      Some (Fin (IZR (last [300; 610]%Z 0%Z - 0) / 360 * 1000
                 / INR (length [300; 610]%Z))).
Proof.
  split; [lra|]. split; [discriminate|].
  apply (mean_rr_spans_first_to_last 0 [300; 610]%Z 360); [lra | discriminate].
Defined.

(** ** The frequency-domain metrics *)

(** X18: when there are at least 11 intervals (12 beats), [lf_power] and
    [hf_power] are real numbers and not negative, whatever the beat indices
    and the sampling rate. *)
Theorem band_powers_are_not_negative (r_peaks : list Z) (fs : R) :
  (12 <= length r_peaks)%nat ->
  exists hrv lf hf,
    compute_hrv_metrics r_peaks fs = Returns hrv /\
    hrv !! "lf_power" = Some (Fin lf) /\ 0 <= lf /\
    hrv !! "hf_power" = Some (Fin hf) /\ 0 <= hf.
Proof.
  intros Hlen.
  pose proof (rr_milliseconds_length r_peaks fs) as Hn.
  rewrite np_diff_length in Hn.
  destruct (compute_hrv_metrics_frequency r_peaks fs)
    as (hrv & freqs & psd & Hrun & Hw & Hlf & Hhf & _); [cbv zeta; lia|].
  set (rr := rr_milliseconds r_peaks fs) in *.
  assert (Hfin : forall f, xdiv (Fin 1000) (np_mean rr) = Fin f -> 0 < f ->
                           Forall finite rr).
  { intros f Hf Hpos. destruct (np_mean rr) as [m| | |] eqn:Hm.
    - now apply np_mean_Fin_inv in Hm.
    - cbn in Hf. injection Hf as <-. lra.
    - cbn in Hf. injection Hf as <-. lra.
    - discriminate. }
  assert (HN : (2 <= Nat.min 256 (length rr))%nat) by lia.
  destruct (welch_band_powers _ _ _ _ _ (4 / 100) (15 / 100) Hw ltac:(lra) HN Hfin)
    as (l & Hl & Hl0).
  destruct (welch_band_powers _ _ _ _ _ (15 / 100) (4 / 10) Hw ltac:(lra) HN Hfin)
    as (h & Hh & Hh0).
  exists hrv, l, h. rewrite Hlf, Hhf, Hl, Hh. repeat split; assumption.
Qed.

Lemma band_powers_are_not_negative_witness :
  (12 <= length (map (Z.mul 300) (map Z.of_nat (seq 0 12))))%nat /\
  exists hrv lf hf,
    compute_hrv_metrics (map (Z.mul 300) (map Z.of_nat (seq 0 12))) 360 = Returns hrv /\
    hrv !! "lf_power" = Some (Fin lf) /\ 0 <= lf /\
    hrv !! "hf_power" = Some (Fin hf) /\ 0 <= hf.
Proof.
  split; [simpl; lia|].
  apply (band_powers_are_not_negative (map (Z.mul 300) (map Z.of_nat (seq 0 12))) 360).
  simpl; lia.
Defined.

(** ** The spectrum of a perfectly regular rhythm *)

Lemma np_sum_zeros (l : list xreal) : Forall (eq (Fin 0)) l -> np_sum l = Fin 0.
Proof.
  intros H. apply Forall_eq_repeat in H. rewrite H. unfold np_sum.
  rewrite fold_xadd_repeat. f_equal. ring.
Qed.

Lemma np_mean_zeros (l : list xreal) :
  l <> [] -> Forall (eq (Fin 0)) l -> np_mean l = Fin 0.
Proof.
  intros Hne H. apply Forall_eq_repeat in H. rewrite H.
  destruct (length l) eqn:E; [|apply np_mean_repeat].
  destruct l; [contradiction | discriminate].
Qed.

Lemma weighted_sum_zeros (v : list xreal) (c : nat -> R) :
  Forall (eq (Fin 0)) v ->
  np_sum (map (fun nv => xmul (snd nv) (Fin (c (fst nv))))
              (combine (seq 0 (length v)) v)) = Fin 0.
Proof.
  intros H. apply np_sum_zeros. apply Forall_forall. intros y Hy.
  apply in_map_iff in Hy as ([n x] & <- & Hin). apply in_combine_r in Hin.
  rewrite Forall_forall in H. rewrite <- (H x Hin).
  cbn [snd fst xmul]. f_equal. ring.
Qed.

Lemma rfft_power_zeros (v : list xreal) (k : nat) :
  Forall (eq (Fin 0)) v -> rfft_power v k = Fin 0.
Proof.
  intros H. unfold rfft_power.
  pose proof (weighted_sum_zeros v
    (fun n => cos (2 * PI * INR k * INR n / INR (length v))) H) as Hre.
  pose proof (weighted_sum_zeros v
    (fun n => - sin (2 * PI * INR k * INR n / INR (length v))) H) as Him.
  cbv beta in Hre, Him. cbv zeta. rewrite Hre, Him.
  cbn [xmul xadd]. f_equal. ring.
Qed.

Lemma detrend_constant_level (seg : list xreal) (v : R) :
  Forall (eq (Fin v)) seg -> Forall (eq (Fin 0)) (detrend_constant seg).
Proof.
  intros H. unfold detrend_constant.
  destruct seg as [|x seg]; [constructor|].
  assert (Hm : np_mean (x :: seg) = Fin v).
  { rewrite (Forall_eq_repeat H). cbn [length]. apply np_mean_repeat. }
  rewrite Hm.
  apply Forall_forall. intros y Hy. apply in_map_iff in Hy as (z & <- & Hz).
  rewrite Forall_forall in H. rewrite <- (H z Hz).
  cbn [xsub xneg xadd]. f_equal. ring.
Qed.

Lemma segment_psd_level (seg : list xreal) (win : list R) (v s : R) (nfft : nat) :
  Forall (eq (Fin v)) seg ->
  Forall (eq (Fin 0)) (segment_psd seg win (Fin s) nfft) /\
  length (segment_psd seg win (Fin s) nfft) = (nfft / 2 + 1)%nat.
Proof.
  intros H. unfold segment_psd. split; [|now rewrite length_map, length_seq].
  apply Forall_forall. intros y Hy. apply in_map_iff in Hy as (k & <- & _).
  rewrite rfft_power_zeros.
  - cbn [xmul]. f_equal. ring.
  - apply Forall_forall. intros y Hy. apply in_map_iff in Hy as ([x w] & <- & Hin).
    apply in_combine_l in Hin.
    pose proof (detrend_constant_level seg v H) as Hd.
    rewrite Forall_forall in Hd. rewrite <- (Hd x Hin).
    cbn [fst snd xmul]. f_equal. ring.
Qed.

Lemma mean_over_segments_zeros (ps : list (list xreal)) (nbins : nat) :
  ps <> [] ->
  Forall (fun p => Forall (eq (Fin 0)) p /\ length p = nbins) ps ->
  Forall (eq (Fin 0)) (mean_over_segments ps nbins).
Proof.
  intros Hne H.
  assert (G : Forall (eq (Fin 0))
                (map (fun k => np_mean (map (fun p => nth k p NaN) ps)) (seq 0 nbins))).
  { apply Forall_forall. intros y Hy. apply in_map_iff in Hy as (k & <- & Hk).
    apply in_seq in Hk. symmetry. apply np_mean_zeros.
    - destruct ps; [contradiction | discriminate].
    - apply Forall_forall. intros z Hz. apply in_map_iff in Hz as (p & <- & Hp).
      rewrite Forall_forall in H. destruct (H p Hp) as [Hz Hlen].
      rewrite Forall_forall in Hz. apply Hz, nth_In. lia. }
  unfold mean_over_segments.
  destruct ps as [|p [|q ps]]; [contradiction | | exact G].
  now apply Forall_inv in H as [Hp _].
Qed.

Lemma welch_of_constant (v f : R) (n N : nat) :
  0 < f -> (2 <= N)%nat ->
  exists xs psd,
    welch (repeat (Fin v) n) (Fin f) N = (map Fin xs, psd) /\
    Forall (eq (Fin 0)) psd.
Proof.
  intros Hf HN. unfold welch.
  pose proof (hann_sum_squares_pos N HN) as Hss.
  set (ss := fold_left Rplus (map (fun w => w * w) (hann N)) 0) in *.
  assert (HN0 : 0 < INR N) by (apply lt_0_INR; lia).
  assert (Hinv : 0 < 1 / f) by (apply Rdiv_lt_0_compat; lra).
  assert (Hd : 0 < INR N * (1 / f)) by (apply Rmult_lt_0_compat; lra).
  exists (map (fun k => INR k * (1 / (INR N * (1 / f)))) (seq 0 (N / 2 + 1))).
  eexists. split.
  - f_equal. unfold rfftfreq.
    rewrite (xdiv_fin 1 f) by lra. cbn [xmul].
    rewrite xdiv_fin by lra. now rewrite map_map.
  - cbn [xmul]. rewrite xdiv_fin by (apply Rgt_not_eq, Rmult_lt_0_compat; lra).
    apply mean_over_segments_zeros.
    + unfold segments. rewrite Nat.add_1_r. cbn [seq map]. discriminate.
    + apply Forall_forall. intros p Hp. apply in_map_iff in Hp as (seg & <- & Hseg).
      apply (segment_psd_level seg (hann N) v).
      unfold segments in Hseg. apply in_map_iff in Hseg as (i & <- & _).
      apply Forall_take, Forall_drop.
      apply Forall_forall. intros y Hy. now apply repeat_spec in Hy as ->.
Qed.

Lemma select_band_zeros (lo hi : R) (freqs a : list xreal) :
  Forall (eq (Fin 0)) a -> Forall (eq (Fin 0)) (select_band lo hi freqs a).
Proof.
  intros H. revert freqs. induction H as [|v a Hv _ IH]; intros [|f freqs]; simpl;
    try constructor.
  destruct (in_band lo hi f); [constructor; [exact Hv | apply IH] | apply IH].
Qed.

Lemma select_band_finite (lo hi : R) (freqs a : list xreal) :
  Forall finite a -> Forall finite (select_band lo hi freqs a).
Proof.
  intros H. revert freqs. induction H as [|v a Hv _ IH]; intros [|f freqs]; simpl;
    try constructor.
  destruct (in_band lo hi f); [constructor; [exact Hv | apply IH] | apply IH].
Qed.

Lemma trapz_terms_zeros (ys xs : list xreal) :
  Forall (eq (Fin 0)) ys -> Forall finite xs ->
  Forall (eq (Fin 0)) (trapz_terms ys xs).
Proof.
  intros Hy. revert xs. induction Hy as [|y0 ys Hy0 Hys IH]; intros xs Hxs.
  - constructor.
  - destruct ys as [|y1 ys]; [constructor|].
    destruct xs as [|x0 [|x1 xs]]; try constructor.
    + apply Forall_inv in Hys. subst y0 y1.
      apply Forall_cons_iff in Hxs as [[a ->] Hxs].
      apply Forall_inv in Hxs as [b ->].
      cbn [xsub xneg xadd xmul]. rewrite xdiv_fin by lra. f_equal.
      unfold Rdiv. ring.
    + apply (IH (x1 :: xs)). now apply Forall_inv_tail in Hxs.
Qed.

Lemma band_power_zeros (lo hi : R) (xs : list R) (psd : list xreal) :
  Forall (eq (Fin 0)) psd -> band_power lo hi (map Fin xs) psd = Fin 0.
Proof.
  intros Hpsd. unfold band_power, np_trapz.
  apply np_sum_zeros, trapz_terms_zeros.
  - now apply select_band_zeros.
  - apply select_band_finite. apply Forall_forall. intros y Hy.
    apply in_map_iff in Hy as (x & <- & _). now eexists.
Qed.

(** X22: for a perfectly regular rhythm with at least 11 intervals (all
    consecutive beat differences equal), [compute_hrv_metrics] returns 0
    for [lf_power], [hf_power] and [lf_hf_ratio], whatever the sampling
    rate: the spectral estimate of the constant interval series is zero,
    or no frequency bin lies in the bands. *)
Theorem regular_intervals_zero_band_power
    (r_peaks : list Z) (fs : R) (d : Z) (n : nat) :
  np_diff Z.sub r_peaks = repeat d n -> (11 <= n)%nat ->
  exists hrv,
    compute_hrv_metrics r_peaks fs = Returns hrv /\
    hrv !! "lf_power" = Some (Fin 0) /\
    hrv !! "hf_power" = Some (Fin 0) /\
    hrv !! "lf_hf_ratio" = Some (Fin 0).
Proof.
  intros Hd Hn.
  assert (Hrr : rr_milliseconds r_peaks fs =
                repeat (xmul (xdiv (Fin (IZR d)) (Fin fs)) (Fin 1000)) n).
  { unfold rr_milliseconds, rr_seconds. now rewrite Hd, !map_repeat. }
  destruct (compute_hrv_metrics_frequency r_peaks fs)
    as (hrv & freqs & psd & Hrun & Hw & Hlf & Hhf & Hratio).
  { cbv zeta. now rewrite Hrr, repeat_length. }
  rewrite Hrr in Hw. rewrite repeat_length in Hw.
  set (x := xmul (xdiv (Fin (IZR d)) (Fin fs)) (Fin 1000)) in *.
  set (fsw := xdiv (Fin 1000) (np_mean (repeat x n))) in *.
  assert (HN : (2 <= Nat.min 256 n)%nat) by lia.
  assert (Hzero : forall lo hi, 0 < lo -> band_power lo hi freqs psd = Fin 0).
  { intros lo hi Hlo.
    assert (Hcase : (exists f, fsw = Fin f /\ 0 < f) \/
                    (forall f, fsw = Fin f -> f <= 0)).
    { destruct fsw as [f| | |]; try (right; intros; discriminate).
      destruct (Rlt_dec 0 f); [left; now exists f|].
      right. intros g [= <-]. lra. }
    destruct Hcase as [(f & Hf & Hpos) | Hneg].
    - assert (Hfin : exists v, x = Fin v).
      { unfold fsw in Hf. destruct (np_mean (repeat x n)) as [m| | |] eqn:Hm.
        - apply np_mean_Fin_inv in Hm. rewrite Forall_forall in Hm.
          apply Hm. destruct n; [lia | now left].
        - cbn in Hf. injection Hf as <-. lra.
        - cbn in Hf. injection Hf as <-. lra.
        - discriminate. }
      destruct Hfin as [v Hv]. rewrite Hv, Hf in Hw.
      destruct (welch_of_constant v f n (Nat.min 256 n) Hpos HN)
        as (xs & psd' & Hw' & Hz).
      rewrite Hw in Hw'. injection Hw' as -> ->.
      now apply band_power_zeros.
    - assert (Hfreqs : freqs = rfftfreq (Nat.min 256 n) (xdiv (Fin 1) fsw)).
      { unfold welch in Hw. now injection Hw as <- _. }
      unfold band_power.
      rewrite !select_band_none
        by (rewrite Hfreqs; now apply rfftfreq_out_of_band).
      reflexivity. }
  exists hrv. split; [exact Hrun|].
  rewrite !Hzero in Hlf, Hhf, Hratio by lra.
  cbn [xltb] in Hratio. rewrite Rltb_irrefl in Hratio.
  repeat split; assumption.
Qed.

Lemma regular_intervals_zero_band_power_witness :
  np_diff Z.sub (map (Z.mul 300) (map Z.of_nat (seq 0 12))) = repeat 300%Z 11 /\
  (11 <= 11)%nat /\
  exists hrv,
    compute_hrv_metrics (map (Z.mul 300) (map Z.of_nat (seq 0 12))) 360 = Returns hrv /\
    hrv !! "lf_power" = Some (Fin 0) /\
    hrv !! "hf_power" = Some (Fin 0) /\
    hrv !! "lf_hf_ratio" = Some (Fin 0).
Proof.
  split; [reflexivity|]. split; [lia|].
  apply (regular_intervals_zero_band_power
           (map (Z.mul 300) (map Z.of_nat (seq 0 12))) 360 300%Z 11);
    [reflexivity | lia].
Defined.

(** ** The report of [main] *)

Lemma fold_xmin_Fin (rs : list R) (a : R) :
  exists lo, fold_left xmin (map Fin rs) (Fin a) = Fin lo /\
             In lo (a :: rs) /\ Forall (fun r => lo <= r) (a :: rs).
Proof.
  revert a. induction rs as [|r rs IH]; intros a; cbn [map fold_left].
  - exists a. split; [reflexivity|]. split; [now left|]. constructor; [lra | constructor].
  - cbn [xmin xltb]. destruct (Rltb r a) eqn:E.
    + apply Rltb_true in E. destruct (IH r) as (lo & Hlo & Hin & Hall).
      exists lo. split; [exact Hlo|]. split; [now right|].
      pose proof (Forall_inv Hall). constructor; [lra | exact Hall].
    + apply Rltb_false in E. destruct (IH a) as (lo & Hlo & Hin & Hall).
      exists lo. split; [exact Hlo|].
      apply Forall_cons_iff in Hall as [Ha Hall]. split.
      * destruct Hin as [<-|Hin]; [now left | right; now right].
      * constructor; [exact Ha|]. constructor; [lra | exact Hall].
Qed.

Lemma fold_xmax_Fin (rs : list R) (a : R) :
  exists hi, fold_left xmax (map Fin rs) (Fin a) = Fin hi /\
             In hi (a :: rs) /\ Forall (fun r => r <= hi) (a :: rs).
Proof.
  revert a. induction rs as [|r rs IH]; intros a; cbn [map fold_left].
  - exists a. split; [reflexivity|]. split; [now left|]. constructor; [lra | constructor].
  - cbn [xmax xltb]. destruct (Rltb a r) eqn:E.
    + apply Rltb_true in E. destruct (IH r) as (hi & Hhi & Hin & Hall).
      exists hi. split; [exact Hhi|]. split; [now right|].
      pose proof (Forall_inv Hall). constructor; [lra | exact Hall].
    + apply Rltb_false in E. destruct (IH a) as (hi & Hhi & Hin & Hall).
      exists hi. split; [exact Hhi|].
      apply Forall_cons_iff in Hall as [Ha Hall]. split.
      * destruct Hin as [<-|Hin]; [now left | right; now right].
      * constructor; [exact Ha|]. constructor; [lra | exact Hall].
Qed.

(** X19: [main] analyses its recording at 360 Hz with the default
    threshold factor; the recording has [int(360 * 30)] samples, and more
    than 15 are enough here.  The detection returns; when it finds fewer
    than two beats the report stops with the [ValueError] of [np.min] on the
    empty rate array (after the mean was taken as NaN), and when it finds at
    least two beats the report is complete: no dictionary lookup fails, the
    lowest and the highest rate are positive real numbers below 106 beats
    per minute, and the LF/HF line is printed exactly when there are at
    least 12 beats. *)
Theorem main_report_needs_two_beats (ecg : list R) :
  (15 < length ecg)%nat ->
  exists peaks,
    detect_r_peaks ecg 360 (6 / 10) = Returns peaks /\
    ((length peaks < 2)%nat ->
     main_report ecg = Failed (LibraryError (ValueError ZeroSizeReduction))) /\
    ((2 <= length peaks)%nat ->
     exists r lo hi,
       main_report ecg = Done r /\
       heartbeats r = length peaks /\
       lowest_heart_rate r = Fin lo /\ highest_heart_rate r = Fin hi /\
       0 < lo <= hi /\ hi < 106 /\
       (is_Some (lf_hf r) <-> (12 <= length peaks)%nat)).
Proof.
  intros Hlen.
  destruct (detect_r_peaks_succeeds ecg 360 (6 / 10)) as (peaks & Hrun);
    [lra | lia |].
  exists peaks. split; [exact Hrun|].
  unfold main_report. rewrite Hrun. cbn [call run_bind].
  destruct (compute_hrv_metrics_keys peaks 360)
    as (hrv & Hhrv & _ & _ & Hratio & Hn & Hmean & Hstd & Hrmssd & _ & _ & Hpnn).
  cbv zeta in Hratio, Hn.
  rewrite Hhrv. split.
  - intros Hshort. unfold compute_heart_rate, rr_seconds.
    now rewrite (np_diff_short Z.sub) by exact Hshort.
  - intros Hmany.
    pose proof (detect_r_peaks_gaps _ _ _ _ Hrun) as (Hgaps & Hfloor & Hd).
    apply gaps_at_least_diff in Hgaps.
    assert (Hnz : Forall (fun g => g <> 0%Z) (np_diff Z.sub peaks)).
    { eapply List.Forall_impl; [|exact Hgaps]. cbv beta. intros g Hg. lia. }
    rewrite (compute_heart_rate_formula peaks 360 ltac:(lra) Hnz).
    cbn [call run_bind].
    rewrite <- (map_map (fun g => 60 * 360 / IZR g) Fin).
    remember (map (fun g => 60 * 360 / IZR g) (np_diff Z.sub peaks)) as rates
      eqn:Erates.
    assert (Hrates : Forall (fun r => 0 < r < 106) rates).
    { rewrite Erates. apply Forall_forall. intros r Hr. apply in_map_iff in Hr as (g & <- & Hg).
      rewrite Forall_forall in Hgaps. specialize (Hgaps g Hg). cbv beta in Hgaps.
      assert (216 <= IZR g).
      { apply Rle_trans with (IZR (min_distance 360)); [|now apply IZR_le].
        replace (min_distance 360) with 216%Z; [lra|].
        symmetry. apply py_int_floor; [lia | lra]. }
      assert (Hig : 0 < / IZR g) by (apply Rinv_0_lt_compat; lra).
      assert (/ IZR g <= / 216) by (apply Rinv_le_contravar; lra).
      unfold Rdiv. split; [apply Rmult_lt_0_compat; lra|].
      apply Rle_lt_trans with (60 * 360 * / 216); [|lra].
      apply Rmult_le_compat_l; lra. }
    destruct rates as [|r0 rest].
    { apply (f_equal (@length R)) in Erates.
      rewrite length_map, np_diff_length in Erates. cbn [length] in Erates. lia. }
    cbn [map np_min_float np_max_float call run_bind].
    destruct (fold_xmin_Fin rest r0) as (lo & -> & Hlo_in & Hlo).
    destruct (fold_xmax_Fin rest r0) as (hi & -> & Hhi_in & Hhi).
    unfold getitem. rewrite Hmean, Hstd, Hrmssd, Hpnn. cbn [run_bind].
    rewrite Forall_forall in Hrates, Hlo.
    pose proof (Hrates lo Hlo_in) as Hlo_range.
    pose proof (Hrates hi Hhi_in) as Hhi_range.
    pose proof (Hlo hi Hhi_in) as Hlohi.
    assert (Hkeys : is_Some (hrv !! "lf_hf_ratio") <-> (12 <= length peaks)%nat).
    { rewrite Hratio, Hn. lia. }
    destruct (hrv !! "lf_hf_ratio") as [ratio|] eqn:Eratio.
    + eexists _, lo, hi. split; [reflexivity|].
      cbn [heartbeats lowest_heart_rate highest_heart_rate lf_hf].
      split; [reflexivity|]. split; [reflexivity|]. split; [reflexivity|].
      split; [lra|]. split; [lra|].
      split; [intros _; apply Hkeys; now eexists | intros _; now eexists].
    + eexists _, lo, hi. split; [reflexivity|].
      cbn [heartbeats lowest_heart_rate highest_heart_rate lf_hf].
      split; [reflexivity|]. split; [reflexivity|]. split; [reflexivity|].
      split; [lra|]. split; [lra|].
      split; [intros [x Hx]; discriminate|].
      intros H12. apply Hkeys in H12 as [x Hx]. discriminate.
Qed.

Lemma main_report_needs_two_beats_witness :
  (15 < length (repeat 1 20))%nat /\
  exists peaks,
    detect_r_peaks (repeat 1 20) 360 (6 / 10) = Returns peaks /\
    ((length peaks < 2)%nat ->
     main_report (repeat 1 20) = Failed (LibraryError (ValueError ZeroSizeReduction))) /\
    ((2 <= length peaks)%nat ->
     exists r lo hi,
       main_report (repeat 1 20) = Done r /\
       heartbeats r = length peaks /\
       lowest_heart_rate r = Fin lo /\ highest_heart_rate r = Fin hi /\
       0 < lo <= hi /\ hi < 106 /\
       (is_Some (lf_hf r) <-> (12 <= length peaks)%nat)).
Proof.
  split; [simpl; lia|].
  apply (main_report_needs_two_beats (repeat 1 20)). simpl; lia.
Defined.
